(** * The fetch-and-ingest pipeline of the Telegram gift parser

    A shallow embedding of [parser/data_manager.py], [parser/cache_manager.py],
    [parser/async_downloader.py] and [parser/collection_manager.py], with the
    properties the specification states about them.

    Python dictionaries are finite maps ([gmap]), sets are [gset], integers
    are [Z].  A string is the UTF-8 encoding of the Python string.  The gift
    dictionaries are objects with an address: the upsert writes into the
    dictionary it is handed and stores that very dictionary, so the
    collections hold addresses and a heap maps the addresses to the
    dictionaries.  The managers and the disk are threaded explicitly through
    every function.  The network, the clock, the HTML extractor and the
    rendering of exceptions are inputs of the model. *)

From stdpp Require Import gmap strings list fin_maps sorting pretty.
From Stdlib Require Import ZArith Ascii Lia.

#[local] Open Scope Z_scope.

(** ** Python values, as far as the records of this program hold them *)

Inductive value :=
| VNone
| VStr (s : string)
| VInt (z : Z).

#[global] Instance value_eq_dec : EqDecision value.
Proof. solve_decision. Defined.

#[global] Instance value_countable : Countable value.
Proof.
  refine (inj_countable'
    (fun v => match v with
              | VNone => inl ()
              | VStr s => inr (inl s)
              | VInt z => inr (inr z)
              end)
    (fun x => match x with
              | inl _ => VNone
              | inr (inl s) => VStr s
              | inr (inr z) => VInt z
              end) _).
  by intros [].
Defined.

(** Python truth value: [None], [""] and [0] are false. *)
Definition truthy (v : value) : bool :=
  match v with
  | VNone => false
  | VStr s => negb (String.eqb s "")
  | VInt z => negb (z =? 0)
  end.

(** A dictionary with string keys, [Dict[str, Any]]. *)
Abbreviation dict := (gmap string value).

(** [d.get(k)]: the value under [k], [None] when the key is missing. *)
Definition dict_get (d : dict) (k : string) : value :=
  default VNone (d !! k).

(** One reading of the clock: [time.time()] and
    [datetime.utcnow().isoformat() + 'Z']. *)
Record instant := { unix : Z; iso : string }.

(** The address of a gift dictionary in the interpreter's memory. *)
Definition addr := nat.

(** ** Records that are persisted *)

(** A collection,
    [{collection_name, total_gifts, processed_gifts, last_updated,
      created_at, gifts}].  In memory [gifts] lists the addresses of the gift
    dictionaries ([G] is [addr]); in a file it lists the dictionaries
    themselves ([G] is [dict]). *)
Record collection_data (G : Type) := {
  collection_name : string;
  total_gifts : Z;
  processed_gifts : Z;
  last_updated : string;
  created_at : string;
  gifts : list G
}.
Arguments collection_name {G} _.
Arguments total_gifts {G} _.
Arguments processed_gifts {G} _.
Arguments last_updated {G} _.
Arguments created_at {G} _.
Arguments gifts {G} _.

(** [url_status_cache[url]]. *)
Record url_record := {
  status : string;
  processed_at : string;
  metadata : dict
}.

(** [collection_progress[name]]; the two rates the code derives from these
    counts are floating point and are left out. *)
Record progress := {
  progress_total_urls : Z;
  progress_processed_urls : Z;
  progress_success_count : Z;
  progress_error_count : Z;
  progress_last_updated : string
}.

#[global] Instance collection_data_eq_dec `{EqDecision G} :
  EqDecision (collection_data G).
Proof. solve_decision. Defined.
#[global] Instance url_record_eq_dec : EqDecision url_record.
Proof. solve_decision. Defined.
#[global] Instance progress_eq_dec : EqDecision progress.
Proof. solve_decision. Defined.

(** ** Strings and paths *)

(** Index of the last ["."] of a string, [str.rfind('.')]. *)
Fixpoint rfind_dot (s : string) : option nat :=
  match s with
  | EmptyString => None
  | String c s' =>
      match rfind_dot s' with
      | Some i => Some (S i)
      | None => if Ascii.eqb c "."%char then Some 0%nat else None
      end
  end.

(** [PurePath.suffix]: the last dot-separated part of the name, if the dot is
    neither the first nor the last character. *)
Definition py_suffix (name : string) : string :=
  match rfind_dot name with
  | Some i =>
      if ((0 <? i) && (i <? String.length name - 1))%nat
      then String.substring i (String.length name - i) name
      else ""
  | None => ""
  end.

(** [PurePath.with_suffix], on the file name. *)
Definition with_suffix (name suffix : string) : string :=
  String.substring 0 (String.length name - String.length (py_suffix name)) name
  +:+ suffix.

Fixpoint string_last (s : string) : option Ascii.ascii :=
  match s with
  | EmptyString => None
  | String c EmptyString => Some c
  | String _ s' => string_last s'
  end.

(** [str.startswith]. *)
Definition startswith (s p : string) : bool := String.prefix p s.


(** The white space of [str.isspace], by its UTF-8 encoding.  One byte:
    U+0009 to U+000D, U+001C to U+001F and U+0020. *)
Definition is_space (c : Ascii.ascii) : bool :=
  let n := Ascii.nat_of_ascii c in
  ((n =? 32) || ((9 <=? n) && (n <=? 13)) || ((28 <=? n) && (n <=? 31)))%nat.

(** Two bytes: U+0085 and U+00A0. *)
Definition is_space2 (c1 c2 : Ascii.ascii) : bool :=
  let n1 := Ascii.nat_of_ascii c1 in
  let n2 := Ascii.nat_of_ascii c2 in
  ((n1 =? 194) && ((n2 =? 133) || (n2 =? 160)))%nat.

(** Three bytes: U+1680, U+2000 to U+200A, U+2028, U+2029, U+202F, U+205F
    and U+3000. *)
Definition is_space3 (c1 c2 c3 : Ascii.ascii) : bool :=
  let n1 := Ascii.nat_of_ascii c1 in
  let n2 := Ascii.nat_of_ascii c2 in
  let n3 := Ascii.nat_of_ascii c3 in
  (((n1 =? 225) && (n2 =? 154) && (n3 =? 128))
   || ((n1 =? 226) && (n2 =? 128)
       && (((128 <=? n3) && (n3 <=? 138))
           || (n3 =? 168) || (n3 =? 169) || (n3 =? 175)))
   || ((n1 =? 226) && (n2 =? 129) && (n3 =? 159))
   || ((n1 =? 227) && (n2 =? 128) && (n3 =? 128)))%nat.

(** [str.lstrip()]. *)
Fixpoint lstrip (s : string) : string :=
  match s with
  | EmptyString => s
  | String c1 s1 =>
      if is_space c1 then lstrip s1
      else
        match s1 with
        | EmptyString => s
        | String c2 s2 =>
            if is_space2 c1 c2 then lstrip s2
            else
              match s2 with
              | EmptyString => s
              | String c3 s3 =>
                  if is_space3 c1 c2 c3 then lstrip s3 else s
              end
        end
  end.

(** [str.rstrip()] on the reversed string: the bytes of a character come
    last byte first. *)
Fixpoint rstrip_rev (s : string) : string :=
  match s with
  | EmptyString => s
  | String c1 s1 =>
      if is_space c1 then rstrip_rev s1
      else
        match s1 with
        | EmptyString => s
        | String c2 s2 =>
            if is_space2 c2 c1 then rstrip_rev s2
            else
              match s2 with
              | EmptyString => s
              | String c3 s3 =>
                  if is_space3 c3 c2 c1 then rstrip_rev s3 else s
              end
        end
  end.

(** [str.strip()]. *)
Definition strip (s : string) : string :=
  String.rev (rstrip_rev (String.rev (lstrip s))).

(** The line feed. *)
Definition LF : string := String (Ascii.ascii_of_nat 10) EmptyString.

(** The characters that end a line of a text file read with universal
    newlines: line feed and carriage return. *)
Definition is_newline (c : Ascii.ascii) : bool :=
  let n := Ascii.nat_of_ascii c in ((n =? 10) || (n =? 13))%nat.

(** The lines [for line in f] yields, without their line ends: a line ends
    with a line feed, a carriage return or the two in a row, and the last
    one with the text. *)
Fixpoint split_lines (s : string) : list string :=
  match s with
  | EmptyString => []
  | String c s' =>
      if (Ascii.nat_of_ascii c =? 13)%nat && String.prefix LF s'
      then split_lines s'
      else if is_newline c then EmptyString :: split_lines s'
      else
        match split_lines s' with
        | l :: ls => String c l :: ls
        | [] => [String c EmptyString]
        end
  end.

(** What a loop of [f.write(f"{line}\n")] writes. *)
Definition write_lines (ls : list string) : string :=
  foldr (fun l rest => l +:+ LF +:+ rest) EmptyString ls.

(** ** Configuration ([parser/config.py]) *)

(** A path is a directory and a file name. *)
Abbreviation path := (string * string)%type.

(** The directories and files of [ParserConfig]: class-level defaults that
    [from_env] leaves as they are. *)
Definition MATERIALS_DIR : string := "/app/materials".
Definition OUTPUT_DIR : string := "/app/output".
Definition COLLECTIONS_DIR : string := "/app/output/collections".
Definition CACHE_DIR : string := "/app/output/cache".

Definition CACHE_FILE : path := (CACHE_DIR, "processed_urls.txt").
Definition PROGRESS_CACHE : path := (CACHE_DIR, "progress.json").

(** The settings the pipeline reads. *)
Record ParserConfig := {
  MAX_CONCURRENT_REQUESTS : Z;
  BATCH_SIZE : Z;
  REQUESTS_PER_SECOND : Z;
  SAVE_INTERVAL : Z;
  AUTO_BACKUP : bool;
  SKIP_404_ERRORS : bool;
  SKIP_TIMEOUT_ERRORS : bool
}.

(** The defaults of [ParserConfig]; [from_env] may override
    [MAX_CONCURRENT_REQUESTS] and [BATCH_SIZE]. *)
Definition config : ParserConfig := {|
  MAX_CONCURRENT_REQUESTS := 100;
  BATCH_SIZE := 500;
  REQUESTS_PER_SECOND := 20;
  SAVE_INTERVAL := 1000;
  AUTO_BACKUP := true;
  SKIP_404_ERRORS := true;
  SKIP_TIMEOUT_ERRORS := false
|}.

(** ** The disk *)

(** A JSON file holds either a complete encoding or one cut short by an
    interrupted write; the latter does not decode. *)
Inductive encoded (A : Type) :=
| Complete (a : A)
| Truncated (a : A).
Arguments Complete {A} _.
Arguments Truncated {A} _.

(** What a collection file, its temporary file or its backup holds: a
    collection with all its fields.  A file whose JSON is of another shape
    is none the program writes, and is left out. *)
Abbreviation file_content := (encoded (collection_data dict)).

(** The files, kept by what they hold.  [files] are the JSON files of
    [COLLECTIONS_DIR]: the collections, their temporary files and their
    backups.  [texts] are the text files: the lists of [MATERIALS_DIR] and
    [CACHE_FILE]; every path the program opens as text ends in [.txt], no
    path it opens as JSON does.  The two JSON files of the cache manager, in
    [CACHE_DIR], have a field each.  [faulty] are the paths that cannot be
    opened for writing nor replaced. *)
Record disk := {
  files : gmap path file_content;
  texts : gmap path string;
  url_status_cache_json : option (encoded (gmap string url_record));
  progress_json : option (encoded (gmap string progress));
  faulty : gset path
}.

Definition set_files (d : disk) (fs : gmap path file_content) : disk :=
  {| files := fs; texts := texts d;
     url_status_cache_json := url_status_cache_json d;
     progress_json := progress_json d; faulty := faulty d |}.

Definition set_texts (d : disk) (ts : gmap path string) : disk :=
  {| files := files d; texts := ts;
     url_status_cache_json := url_status_cache_json d;
     progress_json := progress_json d; faulty := faulty d |}.

Definition set_url_status_cache_json (d : disk)
    (x : option (encoded (gmap string url_record))) : disk :=
  {| files := files d; texts := texts d;
     url_status_cache_json := x;
     progress_json := progress_json d; faulty := faulty d |}.

Definition set_progress_json (d : disk)
    (x : option (encoded (gmap string progress))) : disk :=
  {| files := files d; texts := texts d;
     url_status_cache_json := url_status_cache_json d;
     progress_json := x; faulty := faulty d |}.

(** The file operations of [save_collection]. *)
Inductive fs_op :=
| OpCopy (src dst : path)
| OpWrite (dst : path) (c : collection_data dict)
| OpRename (src dst : path).

(** One file operation run to its end; [None] when it raises. *)
Definition exec_op (o : fs_op) (d : disk) : option disk :=
  match o with
  | OpCopy src dst =>
      match files d !! src with
      | Some c => if decide (dst ∈ faulty d) then None
                  else Some (set_files d (<[dst := c]> (files d)))
      | None => None
      end
  | OpWrite dst c =>
      if decide (dst ∈ faulty d) then None
      else Some (set_files d (<[dst := Complete c]> (files d)))
  | OpRename src dst =>
      match files d !! src with
      | Some c => if decide (dst ∈ faulty d) then None
                  else Some (set_files d (<[dst := c]> (delete src (files d))))
      | None => None
      end
  end.

(** The state an interruption in the middle of one operation leaves: a write
    or a copy has produced a cut-short destination, a rename (atomic) has not
    happened. *)
Definition interrupt_op (o : fs_op) (d : disk) : disk :=
  match o with
  | OpCopy src dst =>
      match files d !! src with
      | Some (Complete c) | Some (Truncated c) =>
          set_files d (<[dst := Truncated c]> (files d))
      | None => d
      end
  | OpWrite dst c => set_files d (<[dst := Truncated c]> (files d))
  | OpRename _ _ => d
  end.

(** The paths an operation creates, overwrites or removes. *)
Definition touches (o : fs_op) (p : path) : Prop :=
  match o with
  | OpCopy _ dst => p = dst
  | OpWrite dst _ => p = dst
  | OpRename src dst => p = src \/ p = dst
  end.

(** Operations in sequence; stops at the first one that raises, keeping what
    the earlier ones did. *)
Fixpoint run_ops (ops : list fs_op) (d : disk) : bool * disk :=
  match ops with
  | [] => (true, d)
  | o :: ops' =>
      match exec_op o d with
      | Some d' => run_ops ops' d'
      | None => (false, d)
      end
  end.

(** The disk when the process is killed after [k] operations have completed,
    either between two operations ([mid = false]) or inside the next one. *)
Definition crash_state (ops : list fs_op) (k : nat) (mid : bool) (d : disk) : disk :=
  let d' := (run_ops (take k ops) d).2 in
  if mid then
    match ops !! k with
    | Some o => interrupt_op o d'
    | None => d'
    end
  else d'.

(** Exceptions that travel through the pipeline.  A [ClientResponseError]
    carries the URL of the request with the status and the message. *)
Inductive exn :=
| TimeoutError
| ClientError (msg : string)
| ClientResponseError (url : string) (http_status : Z) (message : string)
| ValueError (msg : string)
| ZeroDivisionError
| OtherError (msg : string).

#[global] Instance exn_eq_dec : EqDecision exn.
Proof. solve_decision. Defined.

(** ** [DataManager] ([parser/data_manager.py]) *)

Module DataManager.

(** [heap] holds the gift dictionaries alive in the interpreter, by address:
    those the cached collections list and those a caller hands over.  It is
    kept with the manager so that one state is threaded through the
    methods. *)
Record t := {
  collections_cache : gmap string (collection_data addr);
  last_save_time : Z;
  heap : gmap addr dict
}.

Definition set_cache (dm : t) (m : gmap string (collection_data addr)) : t :=
  {| collections_cache := m; last_save_time := last_save_time dm;
     heap := heap dm |}.

Definition set_last_save_time (dm : t) (z : Z) : t :=
  {| collections_cache := collections_cache dm; last_save_time := z;
     heap := heap dm |}.

Definition set_heap (dm : t) (h : gmap addr dict) : t :=
  {| collections_cache := collections_cache dm;
     last_save_time := last_save_time dm; heap := h |}.

(** The dictionary at an address. *)
Definition deref (h : gmap addr dict) (a : addr) : dict := default ∅ (h !! a).

(** A new dictionary, at an address that is not in use. *)
Definition alloc (g : dict) (dm : t) : addr * t :=
  let a := fresh (dom (heap dm)) in
  (a, set_heap dm (<[a := g]> (heap dm))).

(** The dictionaries [json.loads] builds for the records of a file. *)
Fixpoint alloc_list (gs : list dict) (dm : t) : list addr * t :=
  match gs with
  | [] => ([], dm)
  | g :: gs' =>
      let '(a, dm1) := alloc g dm in
      let '(rest, dm2) := alloc_list gs' dm1 in
      (a :: rest, dm2)
  end.

(** A collection with other records. *)
Definition set_gifts {G H} (c : collection_data G) (gs : list H)
  : collection_data H :=
  {| collection_name := collection_name c;
     total_gifts := total_gifts c;
     processed_gifts := processed_gifts c;
     last_updated := last_updated c;
     created_at := created_at c;
     gifts := gs |}.

(** What [json.dumps(collection_data)] encodes: the collection with the
    dictionaries its addresses lead to. *)
Definition to_json (h : gmap addr dict) (c : collection_data addr)
  : collection_data dict :=
  set_gifts c (deref h <$> gifts c).

(** [config.COLLECTIONS_DIR / f"{collection_name}.json"] *)
Definition collection_file (name : string) : path :=
  (COLLECTIONS_DIR, name +:+ ".json").

(** [config.COLLECTIONS_DIR / f"{collection_name}.json.backup"] *)
Definition backup_file (name : string) : path :=
  (COLLECTIONS_DIR, name +:+ ".json.backup").

(** [collection_file.with_suffix('.tmp')] *)
Definition temp_file (name : string) : path :=
  ((collection_file name).1, with_suffix (collection_file name).2 ".tmp").

Definition _create_empty_collection (now : instant) (name : string)
  : collection_data addr :=
  {| collection_name := name;
     total_gifts := 0;
     processed_gifts := 0;
     last_updated := iso now;
     created_at := iso now;
     gifts := [] |}.

(** [load_collection]: the cached collection; else the one decoded from the
    file, its records new dictionaries; else (no file, or a file that does
    not decode) a new empty one.  The result is cached. *)
Definition load_collection (now : instant) (name : string) (dm : t) (d : disk)
  : collection_data addr * t :=
  match collections_cache dm !! name with
  | Some c => (c, dm)
  | None =>
      match files d !! collection_file name with
      | Some (Complete j) =>
          let '(addrs, dm1) := alloc_list (gifts j) dm in
          let c := set_gifts j addrs in
          (c, set_cache dm1 (<[name := c]> (collections_cache dm1)))
      | _ =>
          let c := _create_empty_collection now name in
          (c, set_cache dm (<[name := c]> (collections_cache dm)))
      end
  end.

Section WithConfig.
Variable cfg : ParserConfig.

(** The file operations of one [save_collection], in order: the optional
    backup copy, the write of the temporary file, the rename over the
    target. *)
Definition save_ops (name : string) (j : collection_data dict) (d : disk)
  : list fs_op :=
  (if bool_decide (is_Some (files d !! collection_file name)) && AUTO_BACKUP cfg
   then [OpCopy (collection_file name) (backup_file name)] else [])
  ++ [OpWrite (temp_file name) j;
      OpRename (temp_file name) (collection_file name)].

(** What [save_collection] makes of the cached collection before it writes:
    [last_updated] and [processed_gifts] are set anew. *)
Definition stamp_for_save {G} (now : instant) (c : collection_data G)
  : collection_data G :=
  {| collection_name := collection_name c;
     total_gifts := total_gifts c;
     processed_gifts := Z.of_nat (length (gifts c));
     last_updated := iso now;
     created_at := created_at c;
     gifts := gifts c |}.

Definition save_collection (now : instant) (name : string) (dm : t) (d : disk)
  : bool * t * disk :=
  match collections_cache dm !! name with
  | None => (false, dm, d)
  | Some c =>
      let c' := stamp_for_save now c in
      let dm1 := set_cache dm (<[name := c']> (collections_cache dm)) in
      match run_ops (save_ops name (to_json (heap dm) c') d) d with
      | (true, d') => (true, set_last_save_time dm1 (unix now), d')
      | (false, d') => (false, dm1, d')
      end
  end.

(** What lines 191 and 192 write into the incoming dictionary. *)
Definition stamp_update (now : instant) (existing_gift gift : dict) : dict :=
  <["previous_status" := dict_get existing_gift "status"]>
    (<["updated_at" := VStr (iso now)]> gift).

(** The inner [for i, existing_gift in enumerate(...)] loop, for the incoming
    dictionary at [a]: at the first stored dictionary with the id the loop
    ends; when that one differs from the incoming dictionary, the incoming
    dictionary is written into and takes its place in the list.  The third
    component is the increment of [updated_count]. *)
Fixpoint update_existing (now : instant) (a : addr) (gift_id : value)
    (stored : list addr) (h : gmap addr dict)
  : list addr * gmap addr dict * Z :=
  match stored with
  | [] => ([], h, 0)
  | e :: rest =>
      let existing_gift := deref h e in
      let gift := deref h a in
      if decide (dict_get existing_gift "gift_id" = gift_id) then
        if decide (existing_gift ≠ gift) then
          (a :: rest, <[a := stamp_update now existing_gift gift]> h, 1)
        else (stored, h, 0)
      else
        let '(rest', h', u) := update_existing now a gift_id rest h in
        (e :: rest', h', u)
  end.

(** Loop state of [add_gifts_to_collection]. *)
Record upsert_state := {
  st_gifts : list addr;
  st_heap : gmap addr dict;
  existing_gift_ids : gset value;
  added_count : Z;
  updated_count : Z
}.

(** One iteration of [for gift in gifts]. *)
Definition upsert_one (now : instant) (st : upsert_state) (a : addr)
  : upsert_state :=
  let gift_id := dict_get (deref (st_heap st) a) "gift_id" in
  if negb (truthy gift_id) then st
  else if decide (gift_id ∈ existing_gift_ids st) then
    let '(gs, h, u) := update_existing now a gift_id (st_gifts st) (st_heap st) in
    {| st_gifts := gs;
       st_heap := h;
       existing_gift_ids := existing_gift_ids st;
       added_count := added_count st;
       updated_count := updated_count st + u |}
  else
    {| st_gifts := st_gifts st ++ [a];
       st_heap := st_heap st;
       existing_gift_ids := {[gift_id]} ∪ existing_gift_ids st;
       added_count := added_count st + 1;
       updated_count := updated_count st |}.

Definition upsert_init (stored : list addr) (h : gmap addr dict)
  : upsert_state :=
  {| st_gifts := stored;
     st_heap := h;
     existing_gift_ids :=
       list_to_set ((fun e => dict_get (deref h e) "gift_id") <$> stored);
     added_count := 0;
     updated_count := 0 |}.

Definition upsert_loop (now : instant) (stored : list addr)
    (h : gmap addr dict) (incoming : list addr) : upsert_state :=
  foldl (upsert_one now) (upsert_init stored h) incoming.

(** The collection after the loop, with its two counters recomputed. *)
Definition with_gifts (h : gmap addr dict) (c : collection_data addr)
    (gs : list addr) : collection_data addr :=
  {| collection_name := collection_name c;
     total_gifts := Z.of_nat (length gs);
     processed_gifts :=
       Z.of_nat (length (filter (fun g => dict_get (deref h g) "status"
                                          = VStr "active") gs));
     last_updated := last_updated c;
     created_at := created_at c;
     gifts := gs |}.

(** [add_gifts_to_collection(collection_name, gifts)]; [incoming] are the
    addresses of the dictionaries of the list [gifts]. *)
Definition add_gifts_to_collection (now : instant) (name : string)
    (incoming : list addr) (dm : t) (d : disk)
  : Z * t * disk :=
  match incoming with
  | [] => (0, dm, d)
  | _ =>
      let '(c, dm1) := load_collection now name dm d in
      let st := upsert_loop now (gifts c) (heap dm1) incoming in
      let c' := with_gifts (st_heap st) c (st_gifts st) in
      let dm2 :=
        set_heap (set_cache dm1 (<[name := c']> (collections_cache dm1)))
                 (st_heap st) in
      let '(dm3, d') :=
        if 30 <? unix now - last_save_time dm2
        then let '(_, dm3, d') := save_collection now name dm2 d in (dm3, d')
        else (dm2, d) in
      (added_count st + updated_count st, dm3, d')
  end.

(** [save_all_collections] *)
Definition save_all_collections (now : instant) (dm : t) (d : disk) : t * disk :=
  foldl (fun '(dm, d) name =>
           let '(_, dm', d') := save_collection now name dm d in (dm', d'))
        (dm, d) (elements (dom (collections_cache dm))).

End WithConfig.
End DataManager.

(** [DataManager()] at [now]. *)
Definition new_data_manager (now : instant) : DataManager.t :=
  {| DataManager.collections_cache := ∅;
     DataManager.last_save_time := unix now;
     DataManager.heap := ∅ |}.

(** ** The command [fix_collection] ([parser/utils.py]) *)

Module Utils.
Import DataManager.

(** The records the command keeps: those with an id that no record before
    them has. *)
Fixpoint unique_gifts (h : gmap addr dict) (seen_ids : gset value)
    (gs : list addr) : list addr :=
  match gs with
  | [] => []
  | a :: rest =>
      let gift_id := dict_get (deref h a) "gift_id" in
      if truthy gift_id && bool_decide (gift_id ∉ seen_ids)
      then a :: unique_gifts h ({[gift_id]} ∪ seen_ids) rest
      else unique_gifts h seen_ids rest
  end.

(** The fields the command writes into a record that lacks them. *)
Definition fix_fields (now : instant) (gift : dict) : dict :=
  let gift :=
    if truthy (dict_get gift "parsed_at") then gift
    else <["parsed_at" := VStr (iso now)]> gift in
  if truthy (dict_get gift "status") then gift
  else <["status" := VStr "active"]> gift.

(** The file of [--backup], named after the time [stamp] of the command. *)
Definition dated_backup_file (name stamp : string) : path :=
  (COLLECTIONS_DIR, name +:+ "_backup_" +:+ stamp +:+ ".json").

(** The command up to its last line, the call of [save_collection]: a new
    manager loads the collection; with [--backup] what it loaded is written
    to a file; the records without an id and the repeated ones are dropped,
    the missing fields are written into the others, the counters are set
    anew, and the collection is put in the cache.  When the backup cannot
    be written the command ends there. *)
Definition fix_collection (now : instant) (name : string)
    (backup : option string) (d : disk) : DataManager.t * disk :=
  let '(c, dm) := load_collection now name (new_data_manager now) d in
  let written :=
    match backup with
    | Some stamp =>
        exec_op (OpWrite (dated_backup_file name stamp) (to_json (heap dm) c)) d
    | None => Some d
    end in
  match written with
  | None => (dm, d)
  | Some d1 =>
      let unique := unique_gifts (heap dm) ∅ (gifts c) in
      let h :=
        foldl (fun h a => <[a := fix_fields now (deref h a)]> h)
              (heap dm) unique in
      let c' :=
        {| collection_name := collection_name c;
           total_gifts := Z.of_nat (length unique);
           processed_gifts :=
             Z.of_nat (length (filter (fun g => dict_get (deref h g) "status"
                                                = VStr "active") unique));
           last_updated := iso now;
           created_at := created_at c;
           gifts := unique |} in
      (set_heap (set_cache dm (<[name := c']> (collections_cache dm))) h, d1)
  end.

End Utils.

(** ** [CacheManager] ([parser/cache_manager.py]) *)

Module CacheManager.

Record t := {
  processed_urls : gset string;
  url_status_cache : gmap string url_record;
  collection_progress : gmap string progress;
  cache_dirty : bool;
  last_save_time : instant
}.

(** [CacheManager()] at time [now]. *)
Definition init (now : instant) : t :=
  {| processed_urls := ∅;
     url_status_cache := ∅;
     collection_progress := ∅;
     cache_dirty := false;
     last_save_time := now |}.

(** [config.CACHE_DIR / 'url_status_cache.json'] *)
Definition status_cache_file : path := (CACHE_DIR, "url_status_cache.json").

(** [sorted(self.processed_urls)] *)
Definition sorted_urls (s : gset string) : list string :=
  merge_sort (fun a b => Is_true (String.leb a b)) (elements s).

(** [_save_processed_urls]: every URL and a line feed, in sorted order;
    [None] when the file cannot be opened. *)
Definition _save_processed_urls (cm : t) (d : disk) : option disk :=
  if decide (CACHE_FILE ∈ faulty d) then None
  else Some (set_texts d
               (<[CACHE_FILE := write_lines (sorted_urls (processed_urls cm))]>
                  (texts d))).

(** [_save_url_status_cache] *)
Definition _save_url_status_cache (cm : t) (d : disk) : option disk :=
  if decide (status_cache_file ∈ faulty d) then None
  else Some (set_url_status_cache_json d (Some (Complete (url_status_cache cm)))).

(** [_save_collection_progress] *)
Definition _save_collection_progress (cm : t) (d : disk) : option disk :=
  if decide (PROGRESS_CACHE ∈ faulty d) then None
  else Some (set_progress_json d (Some (Complete (collection_progress cm)))).

(** [save_cache(force)]: the three writes in turn; the first that raises ends
    the save, what was written stays written. *)
Definition save_cache (now : instant) (force : bool) (cm : t) (d : disk)
  : bool * t * disk :=
  if negb (cache_dirty cm) && negb force then (true, cm, d)
  else
    match _save_processed_urls cm d with
    | None => (false, cm, d)
    | Some d1 =>
        match _save_url_status_cache cm d1 with
        | None => (false, cm, d1)
        | Some d2 =>
            match _save_collection_progress cm d2 with
            | None => (false, cm, d2)
            | Some d3 =>
                (true,
                 {| processed_urls := processed_urls cm;
                    url_status_cache := url_status_cache cm;
                    collection_progress := collection_progress cm;
                    cache_dirty := false;
                    last_save_time := now |},
                 d3)
            end
        end
    end.

Definition is_url_processed (cm : t) (url : string) : bool :=
  bool_decide (url ∈ processed_urls cm).

(** [mark_url_processed(url, status, metadata)]; [metadata or {}]. *)
Definition mark_url_processed (now : instant) (url status : string)
    (metadata : option dict) (cm : t) : t :=
  {| processed_urls := {[url]} ∪ processed_urls cm;
     url_status_cache :=
       <[url := {| status := status;
                   processed_at := iso now;
                   metadata := default ∅ metadata |}]> (url_status_cache cm);
     collection_progress := collection_progress cm;
     cache_dirty := true;
     last_save_time := last_save_time cm |}.

Definition get_url_status (cm : t) (url : string) : option url_record :=
  url_status_cache cm !! url.

Definition filter_unprocessed_urls (cm : t) (urls : list string) : list string :=
  List.filter (fun url => negb (is_url_processed cm url)) urls.

Definition update_collection_progress (now : instant) (name : string)
    (total processed success errors : Z) (cm : t) : t :=
  {| processed_urls := processed_urls cm;
     url_status_cache := url_status_cache cm;
     collection_progress :=
       <[name := {| progress_total_urls := total;
                    progress_processed_urls := processed;
                    progress_success_count := success;
                    progress_error_count := errors;
                    progress_last_updated := iso now |}]> (collection_progress cm);
     cache_dirty := true;
     last_save_time := last_save_time cm |}.

(** The URLs a text lists: its lines, stripped, the empty ones dropped. *)
Definition listed_urls (text : string) : list string :=
  List.filter (fun url => negb (String.eqb url "")) (strip <$> split_lines text).

(** [_load_processed_urls]: the URLs of [CACHE_FILE] are added to the set;
    nothing happens without the file. *)
Definition _load_processed_urls (cm : t) (d : disk) : t :=
  match texts d !! CACHE_FILE with
  | None => cm
  | Some text =>
      {| processed_urls := list_to_set (listed_urls text) ∪ processed_urls cm;
         url_status_cache := url_status_cache cm;
         collection_progress := collection_progress cm;
         cache_dirty := cache_dirty cm;
         last_save_time := last_save_time cm |}
  end.

(** [_load_url_status_cache]: the decoded map; an empty one when the file
    does not decode; nothing happens without the file. *)
Definition _load_url_status_cache (cm : t) (d : disk) : t :=
  match url_status_cache_json d with
  | None => cm
  | Some c =>
      {| processed_urls := processed_urls cm;
         url_status_cache :=
           match c with Complete m => m | Truncated _ => ∅ end;
         collection_progress := collection_progress cm;
         cache_dirty := cache_dirty cm;
         last_save_time := last_save_time cm |}
  end.

(** [_load_collection_progress], likewise. *)
Definition _load_collection_progress (cm : t) (d : disk) : t :=
  match progress_json d with
  | None => cm
  | Some c =>
      {| processed_urls := processed_urls cm;
         url_status_cache := url_status_cache cm;
         collection_progress :=
           match c with Complete m => m | Truncated _ => ∅ end;
         cache_dirty := cache_dirty cm;
         last_save_time := last_save_time cm |}
  end.

(** [load_cache]: the three loads in turn.  Reading does not raise here, so
    the answer is [True]. *)
Definition load_cache (cm : t) (d : disk) : bool * t :=
  (true,
   _load_collection_progress
     (_load_url_status_cache (_load_processed_urls cm d) d) d).

(** [cleanup_old_cache_entries], given the cut-off date as the string
    [cutoff_str] the code compares with: the URLs whose record has an older
    [processed_at] leave both the status map and the set. *)
Definition cleanup_old_cache_entries (cutoff_str : string) (cm : t) : t :=
  let old := filter (fun kv => Is_true (String.ltb (processed_at kv.2) cutoff_str))
                    (url_status_cache cm) in
  {| processed_urls := processed_urls cm ∖ dom old;
     url_status_cache :=
       filter (fun kv => ¬ Is_true (String.ltb (processed_at kv.2) cutoff_str))
              (url_status_cache cm);
     collection_progress := collection_progress cm;
     cache_dirty := if decide (0 < size old)%nat then true else cache_dirty cm;
     last_save_time := last_save_time cm |}.

End CacheManager.

(** ** The outside world *)

(** What one [session.get(url)] exchange (with [response.text()]) yields. *)
Inductive response :=
| Response (http_status : Z) (text : string)
| Raises (e : exn).

(** [(url, html_content, error_message)] *)
Abbreviation FetchResult := (string * option string * option string)%type.

Record Environment := {
  (** the answer to the [n]-th attempt (from 1) at a URL *)
  net : string -> nat -> response;
  (** [str(e)] *)
  str_exn : exn -> string;
  (** the extractor, [GiftParser.parse_gift_data(html_content, url)] *)
  parse_gift_data : string -> string -> option dict;
  (** whether [urlparse] finds both a scheme and a network location *)
  has_scheme_and_netloc : string -> bool;
  (** the clock while the [k]-th result of a run is ingested *)
  clock : Z -> instant
}.

(** ** [AsyncDownloader] ([parser/async_downloader.py]) *)

Module AsyncDownloader.

Record statistics := {
  total_requests : Z;
  successful_requests : Z;
  failed_requests : Z;
  retries : Z;
  timeouts : Z;
  errors_404 : Z;
  other_errors : Z
}.

(** [slept] lists the waits between attempts, the latest last. *)
Record t := {
  stats : statistics;
  failed_urls : gset string;
  slept : list Z
}.

Definition init : t :=
  {| stats := {| total_requests := 0; successful_requests := 0;
                 failed_requests := 0; retries := 0; timeouts := 0;
                 errors_404 := 0; other_errors := 0 |};
     failed_urls := ∅;
     slept := [] |}.

Definition map_stats (f : statistics -> statistics) (dl : t) : t :=
  {| stats := f (stats dl); failed_urls := failed_urls dl; slept := slept dl |}.

Definition incr_total (s : statistics) : statistics :=
  {| total_requests := total_requests s + 1;
     successful_requests := successful_requests s;
     failed_requests := failed_requests s; retries := retries s;
     timeouts := timeouts s; errors_404 := errors_404 s;
     other_errors := other_errors s |}.
Definition incr_successful (s : statistics) : statistics :=
  {| total_requests := total_requests s;
     successful_requests := successful_requests s + 1;
     failed_requests := failed_requests s; retries := retries s;
     timeouts := timeouts s; errors_404 := errors_404 s;
     other_errors := other_errors s |}.
Definition incr_failed (s : statistics) : statistics :=
  {| total_requests := total_requests s;
     successful_requests := successful_requests s;
     failed_requests := failed_requests s + 1; retries := retries s;
     timeouts := timeouts s; errors_404 := errors_404 s;
     other_errors := other_errors s |}.
Definition incr_timeouts (s : statistics) : statistics :=
  {| total_requests := total_requests s;
     successful_requests := successful_requests s;
     failed_requests := failed_requests s; retries := retries s;
     timeouts := timeouts s + 1; errors_404 := errors_404 s;
     other_errors := other_errors s |}.
Definition incr_404 (s : statistics) : statistics :=
  {| total_requests := total_requests s;
     successful_requests := successful_requests s;
     failed_requests := failed_requests s; retries := retries s;
     timeouts := timeouts s; errors_404 := errors_404 s + 1;
     other_errors := other_errors s |}.
Definition incr_other (s : statistics) : statistics :=
  {| total_requests := total_requests s;
     successful_requests := successful_requests s;
     failed_requests := failed_requests s; retries := retries s;
     timeouts := timeouts s; errors_404 := errors_404 s;
     other_errors := other_errors s + 1 |}.

Definition add_failed_url (url : string) (dl : t) : t :=
  {| stats := stats dl; failed_urls := {[url]} ∪ failed_urls dl;
     slept := slept dl |}.

Definition sleep (secs : Z) (dl : t) : t :=
  {| stats := stats dl; failed_urls := failed_urls dl;
     slept := slept dl ++ [secs] |}.

(** How a call ends. *)
Inductive outcome :=
| Returned (r : FetchResult)
| Raised (e : exn).

(** [stop_after_attempt(3)] *)
Definition stop_after_attempt : nat := 3.

(** [wait_exponential(multiplier=1, min=1, max=10)] after attempt [n]. *)
Definition wait_exponential (n : nat) : Z :=
  Z.max (Z.max 0 1) (Z.min (1 * 2 ^ (Z.of_nat n - 1)) 10).

Section WithWorld.
Variable cfg : ParserConfig.
Variable env : Environment.

(** The [except] clauses of [_download_single]. *)
Definition handle (url : string) (e : exn) (dl : t) : outcome * t :=
  match e with
  | TimeoutError =>
      let dl := map_stats incr_failed (map_stats incr_timeouts dl) in
      if SKIP_TIMEOUT_ERRORS cfg
      then (Returned (url, None, Some "Request timeout"), dl)
      else (Raised e, dl)
  | ClientError _ | ClientResponseError _ _ _ =>
      (Returned (url, None, Some ("Client error: " +:+ str_exn env e)),
       map_stats incr_failed dl)
  | _ => (Raised e, map_stats incr_failed dl)
  end.

(** The body of [_download_single]: one attempt. *)
Definition attempt (url : string) (r : response) (dl : t) : outcome * t :=
  let dl := map_stats incr_total dl in
  match r with
  | Response http_status text =>
      if http_status =? 200 then
        (Returned (url, Some text, None), map_stats incr_successful dl)
      else if http_status =? 404 then
        let dl := add_failed_url url (map_stats incr_404 dl) in
        if SKIP_404_ERRORS cfg
        then (Returned (url, None, Some "404 Not Found"), dl)
        else handle url (ClientResponseError url 404 "") dl
      else
        handle url
          (ClientResponseError url http_status
             ("HTTP " +:+ pretty http_status))
          (map_stats incr_other dl)
  | Raises e => handle url e dl
  end.

(** The [@retry] wrapper: attempt [attempt_number], and, when it raises, wait
    and try again unless [remaining] is used up, in which case the exception
    is raised again ([reraise=True]). *)
Fixpoint retry_from (remaining attempt_number : nat) (url : string) (dl : t)
  : outcome * t :=
  match attempt url (net env url attempt_number) dl with
  | (Returned r, dl') => (Returned r, dl')
  | (Raised e, dl') =>
      match remaining with
      | O => (Raised e, dl')
      | S remaining' =>
          retry_from remaining' (S attempt_number) url
            (sleep (wait_exponential attempt_number) dl')
      end
  end.

Definition _download_single (url : string) (dl : t) : outcome * t :=
  retry_from (stop_after_attempt - 1) 1 url dl.

(** [await task] inside [try]/[except Exception] of [download_batch]. *)
Definition await_task (acc : list FetchResult * t) (url : string)
  : list FetchResult * t :=
  match _download_single url acc.2 with
  | (Returned r, dl') => (acc.1 ++ [r], dl')
  | (Raised e, dl') => (acc.1 ++ [(url, None, Some (str_exn env e))], dl')
  end.

(** [download_batch]: a task for every URL not known as failed when the batch
    starts; the tasks' results in the order of the tasks.  Tasks only share
    the counters and [failed_urls], to which each adds its own URL, so they
    are run here one after the other. *)
Definition download_batch (urls : list string) (dl : t)
  : list FetchResult * t :=
  let tasks := List.filter (fun url => bool_decide (url ∉ failed_urls dl)) urls in
  foldl await_task ([], dl) tasks.

(** [range(start, stop, step)]; [None] is the [ValueError] of a zero step. *)
Definition py_range (start stop step : Z) : option (list Z) :=
  if step =? 0 then None
  else
    let n := if 0 <? step then (stop - start + step - 1) / step
             else (start - stop - step - 1) / (- step) in
    Some ((fun k => start + Z.of_nat k * step) <$> seq 0 (Z.to_nat n)).

(** [l[i:j]] for [0 <= i], the only case the loop below reaches. *)
Definition slice {A} (l : list A) (i j : Z) : list A :=
  take (Z.to_nat (j - i)) (drop (Z.to_nat i) l).

Definition download_with_batching (urls : list string) (batch_size : Z) (dl : t)
  : (exn + list FetchResult) * t :=
  match py_range 0 (Z.of_nat (length urls)) batch_size with
  | None => (inl (ValueError "range() arg 3 must not be zero"), dl)
  | Some starts =>
      let '(all_results, dl') :=
        foldl (fun '(all_results, dl) i =>
                 let '(batch_results, dl') :=
                   download_batch (slice urls i (i + batch_size)) dl in
                 (all_results ++ batch_results, dl'))
              ([], dl) starts in
      (inr all_results, dl')
  end.

(** [health_check(test_url)] *)
Definition health_check (test_url : string) (dl : t) : bool * t :=
  match _download_single test_url dl with
  | (Returned (_, html_content, error), dl') =>
      (bool_decide (is_Some html_content)
       || bool_decide (error = Some "404 Not Found"), dl')
  | (Raised _, dl') => (false, dl')
  end.

End WithWorld.

(** [reset_stats]: the counters go back to zero and the known failures are
    forgotten. *)
Definition reset_stats (dl : t) : t :=
  {| stats := {| total_requests := 0; successful_requests := 0;
                 failed_requests := 0; retries := 0; timeouts := 0;
                 errors_404 := 0; other_errors := 0 |};
     failed_urls := ∅;
     slept := slept dl |}.

End AsyncDownloader.

(** ** [GiftParser.validate_gift_data] ([parser/gift_parser.py]) *)

Definition validate_gift_data (env : Environment) (gift_data : dict)
  : bool :=
  forallb (fun field => bool_decide (is_Some (gift_data !! field))
                        && truthy (dict_get gift_data field))
          ["url"; "gift_id"; "collection"; "status"]
  && match gift_data !! "url" with
     | Some (VStr u) => has_scheme_and_netloc env u
     | _ => false
     end.

(** ** The tasks of [_download_single] on the event loop

    [download_batch] makes a task of every call of [_download_single]; the
    tasks run interleaved, each giving way to the others where it waits.
    The coroutine is written here as the sequence of these points, in the
    order of the source: the two [async with], the count of the request,
    the short sleep, the request, and what follows the answer; the [with]
    blocks are left, throttler first, on a result as on an exception; the
    [@retry] wrapper then returns, raises, or waits and starts over. *)

Module Tasks.
Import AsyncDownloader.

Inductive co :=
| Return (r : FetchResult)
| Raise (e : exn)
| AcquireSemaphore (k : co)    (* [async with self.semaphore:], on entry *)
| ReleaseSemaphore (k : co)    (* the same, on exit *)
| EnterThrottler (k : co)      (* [async with self.throttler:], on entry *)
| ExitThrottler (k : co)       (* the same, on exit *)
| CountRequest (k : co)        (* [self.stats['total_requests'] += 1] *)
| Jitter (k : co)              (* [await asyncio.sleep(random.uniform(...))] *)
| Get (url : string) (n : nat) (k : response -> co)
                               (* [self.session.get(url)], the [n]-th for the URL *)
| Respond (url : string) (r : response) (k : outcome -> co)
                               (* the branches on the status and the [except] clauses *)
| Wait (secs : Z) (k : co).    (* the wait of [@retry] before the next attempt *)

(** The body of [_download_single]: one attempt, then [k]. *)
Definition body (url : string) (n : nat) (k : outcome -> co) : co :=
  AcquireSemaphore
    (EnterThrottler
       (CountRequest
          (Jitter
             (Get url n (fun r =>
                Respond url r (fun o =>
                  ExitThrottler (ReleaseSemaphore (k o)))))))).

(** [_download_single] under [@retry]. *)
Fixpoint retry_task (remaining attempt_number : nat) (url : string) : co :=
  body url attempt_number
    (fun o =>
       match o with
       | Returned r => Return r
       | Raised e =>
           match remaining with
           | O => Raise e
           | S remaining' =>
               Wait (wait_exponential attempt_number)
                    (retry_task remaining' (S attempt_number) url)
           end
       end).

Definition _download_single (url : string) : co :=
  retry_task (stop_after_attempt - 1) 1 url.

Section WithWorld.
Variable cfg : ParserConfig.
Variable env : Environment.

(** What follows the answer: the branches on the status and the [except]
    clauses, as in [AsyncDownloader.attempt] after the count of the
    request. *)
Definition respond (url : string) (r : response) (dl : t) : outcome * t :=
  match r with
  | Response http_status text =>
      if http_status =? 200 then
        (Returned (url, Some text, None), map_stats incr_successful dl)
      else if http_status =? 404 then
        let dl := add_failed_url url (map_stats incr_404 dl) in
        if SKIP_404_ERRORS cfg
        then (Returned (url, None, Some "404 Not Found"), dl)
        else handle cfg env url (ClientResponseError url 404 "") dl
      else
        handle cfg env url
          (ClientResponseError url http_status
             ("HTTP " +:+ pretty http_status))
          (map_stats incr_other dl)
  | Raises e => handle cfg env url e dl
  end.

(** A task run on its own, from its first point to its last. *)
Fixpoint run (c : co) (dl : t) : outcome * t :=
  match c with
  | Return r => (Returned r, dl)
  | Raise e => (Raised e, dl)
  | AcquireSemaphore k | ReleaseSemaphore k
  | EnterThrottler k | ExitThrottler k | Jitter k => run k dl
  | CountRequest k => run k (map_stats incr_total dl)
  | Get url n k => run (k (net env url n)) dl
  | Respond url r k => let '(o, dl') := respond url r dl in run (k o) dl'
  | Wait secs k => run k (sleep secs dl)
  end.

(** A task on the event loop: where it is in its code, and how many times it
    holds the semaphore. *)
Record task := { code : co; holding : Z }.

(** The event loop: the counter of [self.semaphore], the tasks, the
    downloader they share. *)
Record loop := {
  permits : Z;
  tasks : list task;
  downloader : t
}.

(** [AsyncDownloader()]: [Semaphore(config.MAX_CONCURRENT_REQUESTS)], no task
    yet. *)
Definition start (dl : t) : loop :=
  {| permits := MAX_CONCURRENT_REQUESTS cfg; tasks := []; downloader := dl |}.

(** One task moves from one point to the next; [None] when it cannot: it has
    ended, or it waits for the semaphore, whose counter is zero.  Acquiring
    takes a permit, releasing gives it back ([asyncio.Semaphore]). *)
Definition advance (p : Z) (dl : t) (t0 : task) : option (Z * t * task) :=
  let at_ k := {| code := k; holding := holding t0 |} in
  match code t0 with
  | Return _ | Raise _ => None
  | AcquireSemaphore k =>
      if 0 <? p
      then Some (p - 1, dl, {| code := k; holding := holding t0 + 1 |})
      else None
  | ReleaseSemaphore k =>
      Some (p + 1, dl, {| code := k; holding := holding t0 - 1 |})
  | EnterThrottler k | ExitThrottler k | Jitter k => Some (p, dl, at_ k)
  | CountRequest k => Some (p, map_stats incr_total dl, at_ k)
  | Get url n k => Some (p, dl, at_ (k (net env url n)))
  | Respond url r k =>
      let '(o, dl') := respond url r dl in Some (p, dl', at_ (k o))
  | Wait secs k => Some (p, sleep secs dl, at_ k)
  end.

(** The event loop moves: a call of [_download_single] becomes a task, or
    one of the tasks, any of them, moves on. *)
Inductive step : loop -> loop -> Prop :=
| step_create s url :
    step s {| permits := permits s;
              tasks := tasks s ++ [{| code := _download_single url;
                                      holding := 0 |}];
              downloader := downloader s |}
| step_advance s i t0 p' dl' t' :
    tasks s !! i = Some t0 ->
    advance (permits s) (downloader s) t0 = Some (p', dl', t') ->
    step s {| permits := p'; tasks := <[i := t']> (tasks s);
              downloader := dl' |}.

(** A schedule: which move the loop makes next.  A move that cannot be
    made leaves the loop as it is. *)
Inductive move :=
| Create (url : string)
| Advance (i : nat).

Definition do_move (s : loop) (m : move) : loop :=
  match m with
  | Create url =>
      {| permits := permits s;
         tasks := tasks s ++ [{| code := _download_single url;
                                 holding := 0 |}];
         downloader := downloader s |}
  | Advance i =>
      match tasks s !! i with
      | Some t0 =>
          match advance (permits s) (downloader s) t0 with
          | Some (p', dl', t') =>
              {| permits := p'; tasks := <[i := t']> (tasks s);
                 downloader := dl' |}
          | None => s
          end
      | None => s
      end
  end.

Definition schedule (ms : list move) (s : loop) : loop := foldl do_move s ms.

End WithWorld.

(** A task whose request is under way: it has called [session.get] and waits
    for the answer, or reads it. *)
Definition in_flight (t0 : task) : bool :=
  match code t0 with
  | Get _ _ _ | Respond _ _ _ => true
  | _ => false
  end.

(** The number of requests under way. *)
Definition requests_in_flight (s : loop) : Z :=
  Z.of_nat (length (List.filter in_flight (tasks s))).

(** How many times the tasks hold the semaphore, all together. *)
Definition held (ts : list task) : Z :=
  foldr (fun t0 n => holding t0 + n) 0 ts.

(** The discipline of the semaphore, read off a code: from this point on,
    for a task that holds the semaphore [h] times, a request is only made,
    and its answer only dealt with, while the semaphore is held; it is only
    released when held; and the task ends holding nothing. *)
Fixpoint guarded (h : Z) (c : co) : Prop :=
  match c with
  | Return _ | Raise _ => h = 0
  | AcquireSemaphore k => 0 <= h /\ guarded (h + 1) k
  | ReleaseSemaphore k => 1 <= h /\ guarded (h - 1) k
  | EnterThrottler k | ExitThrottler k | CountRequest k | Jitter k
  | Wait _ k => 0 <= h /\ guarded h k
  | Get _ _ k => 1 <= h /\ forall r, guarded h (k r)
  | Respond _ _ k => 1 <= h /\ forall o, guarded h (k o)
  end.

End Tasks.

(** ** [CollectionManager] ([parser/collection_manager.py]) *)

Module CollectionManager.

Record processing_statistics := {
  total_collections : Z;
  completed_collections : Z;
  total_urls : Z;
  processed_urls : Z;
  successful_parses : Z;
  failed_parses : Z
}.

Record t := {
  downloader : AsyncDownloader.t;
  data_manager : DataManager.t;
  cache_manager : CacheManager.t;
  processing_stats : processing_statistics
}.

Definition set_downloader (m : t) (x : AsyncDownloader.t) : t :=
  {| downloader := x; data_manager := data_manager m;
     cache_manager := cache_manager m; processing_stats := processing_stats m |}.
Definition set_data_manager (m : t) (x : DataManager.t) : t :=
  {| downloader := downloader m; data_manager := x;
     cache_manager := cache_manager m; processing_stats := processing_stats m |}.
Definition set_cache_manager (m : t) (x : CacheManager.t) : t :=
  {| downloader := downloader m; data_manager := data_manager m;
     cache_manager := x; processing_stats := processing_stats m |}.
Definition set_processing_stats (m : t) (x : processing_statistics) : t :=
  {| downloader := downloader m; data_manager := data_manager m;
     cache_manager := cache_manager m; processing_stats := x |}.

(** [CollectionManager()] at time [now]. *)
Definition init (now : instant) : t :=
  {| downloader := AsyncDownloader.init;
     data_manager := {| DataManager.collections_cache := ∅;
                        DataManager.last_save_time := unix now;
                        DataManager.heap := ∅ |};
     cache_manager := CacheManager.init now;
     processing_stats :=
       {| total_collections := 0; completed_collections := 0;
          total_urls := 0; processed_urls := 0;
          successful_parses := 0; failed_parses := 0 |} |}.

(** The dictionary [_create_collection_stats] builds, without its three
    floating-point entries. *)
Record collection_stats := {
  cs_collection_name : string;
  cs_total_urls : Z;
  cs_processed_urls : Z;
  cs_successful_parses : Z;
  cs_failed_parses : Z
}.

Definition _create_collection_stats (name : string)
    (total processed success errors : Z) : collection_stats :=
  {| cs_collection_name := name; cs_total_urls := total;
     cs_processed_urls := processed; cs_successful_parses := success;
     cs_failed_parses := errors |}.

(** Counters of the ingestion loop of [process_collection]. *)
Record counters := {
  processed_count : Z;
  success_count : Z;
  error_count : Z
}.

Section WithWorld.
Variable cfg : ParserConfig.
Variable env : Environment.

(** [load_collection_urls]: the lines of [MATERIALS_DIR/<name>.txt], stripped,
    that start with the gift URL prefix; no list when there is no file. *)
Definition load_collection_urls (name : string) (d : disk) : list string :=
  match texts d !! (MATERIALS_DIR, name +:+ ".txt") with
  | Some text =>
      List.filter (fun url => negb (String.eqb url "")
                              && startswith url "https://t.me/nft/")
                  (strip <$> split_lines text)
  | None => []
  end.

(** The body of [for url, html_content, error in results], up to the periodic
    save: the outcome of one fetch is recorded. *)
Definition ingest (name : string) (now : instant) (r : FetchResult)
    (k : counters) (m : t) (d : disk) : counters * t * disk :=
  let '(url, html_content, error) := r in
  let processed := processed_count k + 1 in
  match html_content with
  | Some html =>
      match parse_gift_data env html url with
      | Some gift_data =>
          if validate_gift_data env gift_data then
            let '(a, dm0) := DataManager.alloc gift_data (data_manager m) in
            let '(_, dm, d') :=
              DataManager.add_gifts_to_collection cfg now name [a] dm0 d in
            let cache :=
              CacheManager.mark_url_processed now url "active"
                (Some (<["collection" := VStr name]>
                         {["gift_id" := dict_get gift_data "gift_id"]}))
                (cache_manager m) in
            ({| processed_count := processed;
                success_count := success_count k + 1;
                error_count := error_count k |},
             set_cache_manager (set_data_manager m dm) cache, d')
          else
            ({| processed_count := processed;
                success_count := success_count k;
                error_count := error_count k + 1 |},
             set_cache_manager m
               (CacheManager.mark_url_processed now url "parse_failed" None
                  (cache_manager m)), d)
      | None =>
          ({| processed_count := processed;
              success_count := success_count k;
              error_count := error_count k + 1 |},
           set_cache_manager m
             (CacheManager.mark_url_processed now url "parse_failed" None
                (cache_manager m)), d)
      end
  | None =>
      let st := if decide (error = Some "404 Not Found")
                then "deleted" else "error" in
      ({| processed_count := processed;
          success_count := success_count k;
          error_count := error_count k + 1 |},
       set_cache_manager m
         (CacheManager.mark_url_processed now url st
            (Some {["error" := from_option VStr VNone error]})
            (cache_manager m)), d)
  end.

(** [_periodic_save] *)
Definition _periodic_save (now : instant) (name : string) (m : t) (d : disk)
  : t * disk :=
  let '(_, dm, d1) := DataManager.save_collection cfg now name (data_manager m) d in
  let '(_, cache, d2) := CacheManager.save_cache now false (cache_manager m) d1 in
  (set_cache_manager (set_data_manager m dm) cache, d2).

(** The ingestion loop.  [processed_count % config.SAVE_INTERVAL] raises for
    a zero interval; what was done until then stays done. *)
Fixpoint ingest_all (name : string) (results : list FetchResult)
    (k : counters) (m : t) (d : disk) : option exn * counters * t * disk :=
  match results with
  | [] => (None, k, m, d)
  | r :: rest =>
      let now := clock env (processed_count k + 1) in
      let '(k1, m1, d1) := ingest name now r k m d in
      if SAVE_INTERVAL cfg =? 0 then (Some ZeroDivisionError, k1, m1, d1)
      else
        let '(m2, d2) :=
          if processed_count k1 mod SAVE_INTERVAL cfg =? 0
          then _periodic_save now name m1 d1 else (m1, d1) in
        ingest_all name rest k1 m2 d2
  end.

Definition process_collection (name : string) (resume_mode : bool)
    (m : t) (d : disk) : (exn + collection_stats) * t * disk :=
  let all_urls := load_collection_urls name d in
  match all_urls with
  | [] => (inr (_create_collection_stats name 0 0 0 0), m, d)
  | _ =>
      let urls_to_process :=
        if resume_mode
        then CacheManager.filter_unprocessed_urls (cache_manager m) all_urls
        else all_urls in
      let skipped_count :=
        if resume_mode
        then Z.of_nat (length all_urls) - Z.of_nat (length urls_to_process)
        else 0 in
      match urls_to_process with
      | [] =>
          (inr (_create_collection_stats name (Z.of_nat (length all_urls))
                  0 0 skipped_count), m, d)
      | _ =>
          match AsyncDownloader.download_with_batching cfg env urls_to_process
                  (BATCH_SIZE cfg) (downloader m) with
          | (inl e, dl) => (inl e, set_downloader m dl, d)
          | (inr results, dl) =>
              match ingest_all name results
                      {| processed_count := 0; success_count := 0;
                         error_count := 0 |}
                      (set_downloader m dl) d with
              | (Some e, _, m1, d1) => (inl e, m1, d1)
              | (None, k, m1, d1) =>
                  let now := clock env (processed_count k + 1) in
                  let '(m2, d2) := _periodic_save now name m1 d1 in
                  let cache :=
                    CacheManager.update_collection_progress now name
                      (Z.of_nat (length all_urls)) (processed_count k)
                      (success_count k) (error_count k) (cache_manager m2) in
                  (inr (_create_collection_stats name
                          (Z.of_nat (length all_urls)) (processed_count k)
                          (success_count k) (error_count k)),
                   set_cache_manager m2 cache, d2)
              end
          end
      end
  end.

End WithWorld.

(** An entry of [collection_results]: the statistics of a collection, or the
    dictionary recorded for one that raised. *)
Inductive collection_result :=
| Stats (s : collection_stats)
| ErrorEntry (error : string) (processed successful failed : Z).


(** State of the loop over the collections; [position] is the index
    [enumerate(collections, 1)] gives. *)
Record loop_state := {
  position : nat;
  collection_results : gmap string collection_result;
  manager : t;
  the_disk : disk
}.

Definition record_success (s : collection_stats) (p : processing_statistics)
  : processing_statistics :=
  {| total_collections := total_collections p;
     completed_collections := completed_collections p + 1;
     total_urls := total_urls p;
     processed_urls := processed_urls p + cs_processed_urls s;
     successful_parses := successful_parses p + cs_successful_parses s;
     failed_parses := failed_parses p + cs_failed_parses s |}.

Section Loop.
(** The collection procedure the loop calls, given the position. *)
Variable process :
  nat -> string -> bool -> t -> disk -> (exn + collection_stats) * t * disk.
(** [str(e)] at that position. *)
Variable str_of : nat -> exn -> string.

(** One iteration of [for i, collection_name in enumerate(collections, 1)]:
    the [try] with its [except Exception]. *)
Definition loop_step (resume_mode : bool) (st : loop_state) (name : string)
  : loop_state :=
  match process (position st) name resume_mode (manager st) (the_disk st) with
  | (inr collection_stats, m, d) =>
      {| position := S (position st);
         collection_results :=
           <[name := Stats collection_stats]> (collection_results st);
         manager :=
           set_processing_stats m
             (record_success collection_stats (processing_stats m));
         the_disk := d |}
  | (inl e, m, d) =>
      {| position := S (position st);
         collection_results :=
           <[name := ErrorEntry (str_of (position st) e) 0 0 0]>
             (collection_results st);
         manager := m;
         the_disk := d |}
  end.

Definition collections_loop (resume_mode : bool) (collections : list string)
    (st : loop_state) : loop_state :=
  foldl (loop_step resume_mode) st collections.

End Loop.

Section WithConfig.
Variable cfg : ParserConfig.
(** The outside world while the [i]-th collection is processed. *)
Variable envs : nat -> Environment.



End WithConfig.
End CollectionManager.

(** ** The upsert contract *)

(** The id of the dictionary at an address. *)
Definition gift_id_at (h : gmap addr dict) (a : addr) : value :=
  dict_get (DataManager.deref h a) "gift_id".

(** Modelled from the spec: what [upsert(name, records)] is to do to the
    stored records, written from the specification's words for comparison
    with [DataManager.add_gifts_to_collection].  A state is the heap and
    the list of the stored records.  [upsert_spec now before incoming after
    n]: taking the [incoming] records in turn, a record of unseen id is
    appended; one of a seen id that differs from the stored record replaces
    it, with [updated_at] stamped and the stored [status] copied into
    [previous_status]; one equal to the stored record changes nothing; [n]
    counts the appended and the replaced ones. *)
Inductive upsert_spec (now : instant)
  : gmap addr dict * list addr -> list addr ->
    gmap addr dict * list addr -> Z -> Prop :=
| upsert_done h stored :
    upsert_spec now (h, stored) [] (h, stored) 0
| upsert_append h stored a rest final n :
    (forall e, e ∈ stored -> gift_id_at h e ≠ gift_id_at h a) ->
    upsert_spec now (h, stored ++ [a]) rest final n ->
    upsert_spec now (h, stored) (a :: rest) final (1 + n)
| upsert_replace h stored i e a rest final n :
    stored !! i = Some e ->
    gift_id_at h e = gift_id_at h a ->
    (forall j e', (j < i)%nat -> stored !! j = Some e' ->
       gift_id_at h e' ≠ gift_id_at h a) ->
    DataManager.deref h e ≠ DataManager.deref h a ->
    upsert_spec now
      (<[a := <["previous_status" := dict_get (DataManager.deref h e) "status"]>
                (<["updated_at" := VStr (iso now)]> (DataManager.deref h a))]> h,
       <[i := a]> stored)
      rest final n ->
    upsert_spec now (h, stored) (a :: rest) final (1 + n)
| upsert_untouched h stored i e a rest final n :
    stored !! i = Some e ->
    gift_id_at h e = gift_id_at h a ->
    (forall j e', (j < i)%nat -> stored !! j = Some e' ->
       gift_id_at h e' ≠ gift_id_at h a) ->
    DataManager.deref h e = DataManager.deref h a ->
    upsert_spec now (h, stored) rest final n ->
    upsert_spec now (h, stored) (a :: rest) final n.

(** The ids of the stored records, [{gift.get('gift_id') for gift in ...}]. *)
Definition ids_of (h : gmap addr dict) (stored : list addr) : gset value :=
  list_to_set (gift_id_at h <$> stored).

(** The ids of the stored records, in their order. *)
Definition gift_ids (h : gmap addr dict) (stored : list addr) : list value :=
  gift_id_at h <$> stored.

(** A record that carries an id. *)
Definition has_id (g : dict) : Prop :=
  truthy (dict_get g "gift_id") = true.

#[global] Instance has_id_dec g : Decision (has_id g).
Proof. unfold has_id. apply _. Defined.

(** A collection whose [total_gifts] is the number of its records. *)
Definition counted {G} (c : collection_data G) : Prop :=
  total_gifts c = Z.of_nat (length (gifts c)).

(** A collection as [save_collection] leaves it: both counters are the
    number of the records. *)
Definition settled {G} (c : collection_data G) : Prop :=
  counted c /\ processed_gifts c = Z.of_nat (length (gifts c)).

(** ** Runs of the collection store *)

(** What happens to the collection store from one moment to the next: a
    call of one of its methods, a caller that builds a dictionary or writes
    into one, the command [fix_collection] up to its save, the end of the
    process and the start of a new one ([DataManager()] at [now]), be it
    after the process was killed while it saved a collection. *)
Inductive store_event :=
| CallLoad (now : instant) (name : string)
| CallAddGifts (now : instant) (name : string) (incoming : list addr)
| CallSave (now : instant) (name : string)
| CallSaveAll (now : instant)
| NewDict (g : dict)
| WriteDict (a : addr) (g : dict)
| CallFixCollection (now : instant) (name : string) (backup : option string)
| Restart (now : instant)
| KilledInSave (now : instant) (name : string) (k : nat) (mid : bool).

Definition store_step (cfg : ParserConfig) (s : DataManager.t * disk)
    (e : store_event) : DataManager.t * disk :=
  let '(dm, d) := s in
  match e with
  | CallLoad now name => ((DataManager.load_collection now name dm d).2, d)
  | CallAddGifts now name incoming =>
      let '(_, dm', d') :=
        DataManager.add_gifts_to_collection cfg now name incoming dm d in
      (dm', d')
  | CallSave now name =>
      let '(_, dm', d') := DataManager.save_collection cfg now name dm d in
      (dm', d')
  | CallSaveAll now => DataManager.save_all_collections cfg now dm d
  | NewDict g => ((DataManager.alloc g dm).2, d)
  | WriteDict a g =>
      (DataManager.set_heap dm (<[a := g]> (DataManager.heap dm)), d)
  | CallFixCollection now name backup => Utils.fix_collection now name backup d
  | Restart now => (new_data_manager now, d)
  | KilledInSave now name k mid =>
      (new_data_manager now,
       match DataManager.collections_cache dm !! name with
       | Some c =>
           crash_state
             (DataManager.save_ops cfg name
                (DataManager.to_json (DataManager.heap dm)
                   (DataManager.stamp_for_save now c)) d)
             k mid d
       | None => d
       end)
  end.

Definition store_run (cfg : ParserConfig) (events : list store_event)
    (s : DataManager.t * disk) : DataManager.t * disk :=
  foldl (store_step cfg) s events.

(** The cached collections have [total_gifts] in step with their records,
    and so have the complete files, whose [processed_gifts] is the number
    of the records too. *)
Definition store_consistent (s : DataManager.t * disk) : Prop :=
  (forall name c,
     DataManager.collections_cache s.1 !! name = Some c -> counted c)
  /\ (forall p j, files s.2 !! p = Some (Complete j) -> settled j).

(** A string with a line feed or a carriage return in it. *)
Fixpoint has_newline (s : string) : bool :=
  match s with
  | EmptyString => false
  | String c s' => is_newline c || has_newline s'
  end.

(** ** Notions used to state the properties of the downloader *)

(** The URL a result is about. *)
Definition url_of (r : FetchResult) : string := r.1.1.

(** The answers that leave the body of [_download_single] by an exception,
    and so reach the [@retry] wrapper: a time-out unless
    [SKIP_TIMEOUT_ERRORS], and every exception that is not a [ClientError];
    never an HTTP status. *)
Definition escalates (cfg : ParserConfig) (r : response) : option exn :=
  match r with
  | Response _ _ => None
  | Raises TimeoutError =>
      if SKIP_TIMEOUT_ERRORS cfg then None else Some TimeoutError
  | Raises (ClientError _) | Raises (ClientResponseError _ _ _) => None
  | Raises e => Some e
  end.



(** An answer with status 404. *)
Definition is_404 (r : response) : bool :=
  match r with
  | Response http_status _ => http_status =? 404
  | Raises _ => false
  end.



(** How many times [@retry] starts [_download_single] over for a URL: once
    more after the first attempt when its answer escalates, and once more
    after the second when that one does too. *)
Definition retries_made (cfg : ParserConfig) (env : Environment)
    (url : string) : nat :=
  match escalates cfg (net env url 1) with
  | None => 0
  | Some _ =>
      match escalates cfg (net env url 2) with
      | None => 1
      | Some _ => 2
      end
  end.

(** What [download_batch] reports for a call of [_download_single]: its
    result, or, for an exception, the URL with [str(e)]. *)
Definition reported (env : Environment) (url : string)
    (o : AsyncDownloader.outcome) : FetchResult :=
  match o with
  | AsyncDownloader.Returned r => r
  | AsyncDownloader.Raised e => (url, None, Some (str_exn env e))
  end.

(** Modelled from the spec: the failures the specification calls retryable,
    a time-out, a transport error, an HTTP status that is neither 2xx nor
    404. *)
Definition retryable_by_spec (r : response) : Prop :=
  match r with
  | Response http_status _ =>
      ¬ (200 <= http_status < 300) /\ http_status ≠ 404
  | Raises TimeoutError | Raises (ClientError _) => True
  | Raises _ => False
  end.
(** ** Concrete data for the scenarios *)

Module Scenario.

Definition t0 : instant := {| unix := 1700000000; iso := "2023-11-14T22:13:20Z" |}.
Definition t1 : instant := {| unix := 1700000010; iso := "2023-11-14T22:13:30Z" |}.
(** More than thirty seconds after [t0]. *)
Definition t2 : instant := {| unix := 1700000060; iso := "2023-11-14T22:14:20Z" |}.

Definition url1 : string := "https://t.me/nft/lightsword-1".
Definition url2 : string := "https://t.me/nft/lightsword-2".

(** A gift as the extractor builds it, cut down to the fields used here. *)
Definition gift (url gift_id st parsed_at : string) : dict :=
  <["url" := VStr url]>
  (<["gift_id" := VStr gift_id]>
  (<["collection" := VStr "lightsword"]>
  (<["status" := VStr st]>
  {["parsed_at" := VStr parsed_at]}))).

Definition gift1 : dict := gift url1 "lightsword-1" "active" (iso t0).
Definition gift1_deleted : dict :=
  gift url1 "lightsword-1" "deleted" (iso t1).
Definition gift2 : dict := gift url2 "lightsword-2" "active" (iso t0).

(** The collection [lightsword] with its first gift: as a file holds it, and
    as the manager holds it, the gift at address 0. *)
Definition lightsword_json : collection_data dict :=
  {| collection_name := "lightsword";
     total_gifts := 1;
     processed_gifts := 1;
     last_updated := iso t0;
     created_at := iso t0;
     gifts := [gift1] |}.

Definition lightsword : collection_data addr :=
  DataManager.set_gifts lightsword_json [0%nat].

(** An older file of the collection, without gifts. *)
Definition older_json : collection_data dict :=
  {| collection_name := "lightsword";
     total_gifts := 0;
     processed_gifts := 0;
     last_updated := iso t0;
     created_at := iso t0;
     gifts := [] |}.

Definition empty_disk : disk :=
  {| files := ∅; texts := ∅; url_status_cache_json := None;
     progress_json := None; faulty := ∅ |}.

Definition disk_with (j : collection_data dict) : disk :=
  set_files empty_disk
    {[ DataManager.collection_file "lightsword" := Complete j ]}.

(** A disk on which the temporary file of [lightsword] cannot be written. *)
Definition broken_disk : disk :=
  {| files := ∅; texts := ∅; url_status_cache_json := None;
     progress_json := None;
     faulty := {[ DataManager.temp_file "lightsword" ]} |}.

(** A disk with the URL list of the collection [lightsword]. *)
Definition materials (lines : list string) : disk :=
  set_texts empty_disk
    {[ (MATERIALS_DIR, "lightsword.txt") := write_lines lines ]}.


Definition fresh_data_manager : DataManager.t := new_data_manager t0.

(** A manager that holds [lightsword]; the dictionaries at the addresses 1,
    2 and 3 are those of a caller: the second gift, the first gift as
    deleted, and a dictionary without an id. *)
Definition data_manager_with_lightsword : DataManager.t :=
  {| DataManager.collections_cache := {[ "lightsword" := lightsword ]};
     DataManager.last_save_time := unix t0;
     DataManager.heap :=
       <[0%nat := gift1]>
       (<[1%nat := gift2]>
       (<[2%nat := gift1_deleted]>
       {[3%nat := (∅ : dict)]})) |}.

(** The default configuration with other settings. *)
Definition with_batch_size (n : Z) : ParserConfig :=
  {| MAX_CONCURRENT_REQUESTS := MAX_CONCURRENT_REQUESTS config;
     BATCH_SIZE := n;
     REQUESTS_PER_SECOND := REQUESTS_PER_SECOND config;
     SAVE_INTERVAL := SAVE_INTERVAL config;
     AUTO_BACKUP := AUTO_BACKUP config;
     SKIP_404_ERRORS := SKIP_404_ERRORS config;
     SKIP_TIMEOUT_ERRORS := SKIP_TIMEOUT_ERRORS config |}.

Definition zero_batch : ParserConfig := with_batch_size 0.

Definition one_at_a_time : ParserConfig :=
  {| MAX_CONCURRENT_REQUESTS := 1;
     BATCH_SIZE := BATCH_SIZE config;
     REQUESTS_PER_SECOND := REQUESTS_PER_SECOND config;
     SAVE_INTERVAL := SAVE_INTERVAL config;
     AUTO_BACKUP := AUTO_BACKUP config;
     SKIP_404_ERRORS := SKIP_404_ERRORS config;
     SKIP_TIMEOUT_ERRORS := SKIP_TIMEOUT_ERRORS config |}.

End Scenario.


(** ** Concrete worlds for the scenarios *)

Module World.

(** [str(e)]: empty for [asyncio.TimeoutError()], the message for an
    exception built from one, and for [aiohttp.ClientResponseError] the
    status, the message and the URL as [aiohttp] prints them. *)
Definition str (e : exn) : string :=
  match e with
  | TimeoutError => ""
  | ClientError msg => msg
  | ClientResponseError url http_status msg =>
      pretty http_status +:+ ", message='" +:+ msg +:+ "', url='" +:+ url
      +:+ "'"
  | ValueError msg => msg
  | ZeroDivisionError => "integer modulo by zero"
  | OtherError msg => msg
  end.

Definition is_letter (c : Ascii.ascii) : bool :=
  let n := Ascii.nat_of_ascii c in
  ((65 <=? n) && (n <=? 90) || (97 <=? n) && (n <=? 122))%nat.

Definition is_scheme_char (c : Ascii.ascii) : bool :=
  let n := Ascii.nat_of_ascii c in
  (is_letter c || (48 <=? n) && (n <=? 57)
   || (n =? 43) || (n =? 45) || (n =? 46))%nat.

(** The characters before the first colon and those after it, when the
    former are all letters, digits, [+], [-] or [.]. *)
Fixpoint split_scheme (s : string) : option (string * string) :=
  match s with
  | EmptyString => None
  | String c s' =>
      if Ascii.eqb c ":" then Some (EmptyString, s')
      else if is_scheme_char c then
        match split_scheme s' with
        | Some (scheme, rest) => Some (String c scheme, rest)
        | None => None
        end
      else None
  end.

(** The characters up to the first [/], [?] or [#]. *)
Fixpoint netloc_of (s : string) : string :=
  match s with
  | EmptyString => EmptyString
  | String c s' =>
      if Ascii.eqb c "/" || Ascii.eqb c "?" || Ascii.eqb c "#"
      then EmptyString
      else String c (netloc_of s')
  end.

(** [urlparse(url)] finds a scheme and a network location: a scheme that
    starts with a letter, then [//] and at least one character before the
    next [/], [?] or [#].  This is [urlparse] on the URLs of the scenarios,
    which have no blank, no control character and no bracket. *)
Definition urlparse_finds_both (url : string) : bool :=
  match split_scheme url with
  | Some (String c _, String c1 (String c2 rest)) =>
      is_letter c && Ascii.eqb c1 "/" && Ascii.eqb c2 "/"
      && negb (String.eqb (netloc_of rest) "")
  | _ => false
  end.

(** What follows the prefix [https://t.me/nft/] of a gift URL. *)
Definition gift_name (url : string) : string :=
  String.substring 17 (String.length url - 17) url.

(** The extractor of the scenarios: from any page that is not empty, an
    active gift with the id its URL gives, when the URL is one of a gift. *)
Definition parse (html url : string) : option dict :=
  if String.eqb html "" then None
  else if startswith url "https://t.me/nft/"
  then Some (Scenario.gift url (gift_name url) "active" (iso Scenario.t0))
  else None.

Definition world (answers : string -> nat -> response) : Environment :=
  {| net := answers;
     str_exn := str;
     parse_gift_data := parse;
     has_scheme_and_netloc := urlparse_finds_both;
     clock := fun k => {| unix := unix Scenario.t0 + k; iso := iso Scenario.t0 |} |}.

(** The same answer to every request. *)
Definition always (r : response) : string -> nat -> response := fun _ _ => r.

(** A time-out first, then the page. *)
Definition flaky : string -> nat -> response :=
  fun _ n => match n with
             | 1%nat => Raises TimeoutError
             | _ => Response 200 "<html>"
             end.

(** The downloader after a health check answered by a 404. *)
Definition downloader_after_404 : AsyncDownloader.t :=
  (AsyncDownloader.health_check config (world (always (Response 404 "")))
     Scenario.url1 AsyncDownloader.init).2.

(** A cache in which the first URL is marked. *)
Definition cache_with_url1 : CacheManager.t :=
  CacheManager.mark_url_processed Scenario.t0 Scenario.url1 "active" None
    (CacheManager.init Scenario.t0).

Definition manager : CollectionManager.t := CollectionManager.init Scenario.t0.

Definition manager_with_url1 : CollectionManager.t :=
  CollectionManager.set_cache_manager manager cache_with_url1.


(** The event loop with one permit and two calls of [_download_single]:
    the first task has sent its request; the second waits for the
    semaphore, and the moves asked of it are not made. *)
Definition busy_loop : Tasks.loop :=
  Tasks.schedule Scenario.one_at_a_time (world flaky)
    [Tasks.Create Scenario.url1; Tasks.Create Scenario.url2;
     Tasks.Advance 0; Tasks.Advance 0; Tasks.Advance 0; Tasks.Advance 0;
     Tasks.Advance 1; Tasks.Advance 1]
    (Tasks.start Scenario.one_at_a_time AsyncDownloader.init).

End World.

(** * Properties *)

(** ** File names *)

Lemma string_last_app (a b : string) :
  b ≠ "" -> string_last (a +:+ b) = string_last b.
Proof.
  intros Hb. induction a as [|c a IH]; [done|].
  rewrite <- IH. change (String c a +:+ b) with (String c (a +:+ b)).
  destruct (a +:+ b) eqn:E; [|done].
  destruct a; [|discriminate]. by destruct b.
Qed.

Lemma json_name_not_tmp (a b : string) : a +:+ ".tmp" ≠ b +:+ ".json".
Proof.
  intros E. apply (f_equal string_last) in E.
  rewrite !string_last_app in E by done. discriminate.
Qed.

Lemma json_name_not_backup (a b : string) : a +:+ ".json.backup" ≠ b +:+ ".json".
Proof.
  intros E. apply (f_equal string_last) in E.
  rewrite !string_last_app in E by done. discriminate.
Qed.

Lemma string_length_app (a b : string) :
  String.length (a +:+ b) = (String.length a + String.length b)%nat.
Proof.
  induction a as [|c a IH]; [done|].
  change (String c a +:+ b) with (String c (a +:+ b)). cbn. by rewrite IH.
Qed.

Lemma string_app_assoc (a b c : string) : (a +:+ b) +:+ c = a +:+ (b +:+ c).
Proof.
  induction a as [|x a IH]; [done|].
  change (String x a +:+ b) with (String x (a +:+ b)).
  change (String x (a +:+ b) +:+ c) with (String x ((a +:+ b) +:+ c)).
  change (String x a +:+ (b +:+ c)) with (String x (a +:+ (b +:+ c))).
  by rewrite IH.
Qed.

(** Two strings that end with parts of the same length end with the same
    part. *)
Lemma string_app_suffix_inj (a b x y : string) :
  String.length x = String.length y -> a +:+ x = b +:+ y -> x = y.
Proof.
  intros Hlen. revert b. induction a as [|c a IH]; intros [|c' b] E.
  - done.
  - apply (f_equal String.length) in E.
    change ("" +:+ x) with x in E. rewrite string_length_app in E. cbn in E. lia.
  - apply (f_equal String.length) in E.
    change ("" +:+ y) with y in E. rewrite string_length_app in E. cbn in E. lia.
  - change (String c (a +:+ x) = String c' (b +:+ y)) in E.
    injection E as _ E. by apply (IH b).
Qed.

Lemma tmp_name_not_backup (a b : string) : a +:+ ".tmp" ≠ b +:+ ".json.backup".
Proof.
  change ".json.backup" with (".json.ba" +:+ "ckup").
  rewrite <- string_app_assoc. intros E.
  by apply string_app_suffix_inj in E.
Qed.

Lemma string_app_inj_r (a x y : string) : a +:+ x = a +:+ y -> x = y.
Proof.
  induction a as [|c a IH]; [done|].
  change (String c a +:+ x) with (String c (a +:+ x)).
  change (String c a +:+ y) with (String c (a +:+ y)).
  intros E. injection E as E. by apply IH.
Qed.

Lemma string_app_inj_l (a b x : string) : a +:+ x = b +:+ x -> a = b.
Proof.
  revert b. induction a as [|c a IH]; intros [|c' b] E.
  - done.
  - apply (f_equal String.length) in E.
    change ("" +:+ x) with x in E. rewrite string_length_app in E. cbn in E. lia.
  - apply (f_equal String.length) in E.
    change ("" +:+ x) with x in E. rewrite string_length_app in E. cbn in E. lia.
  - change (String c (a +:+ x) = String c' (b +:+ x)) in E.
    injection E as -> E. f_equal. by apply IH.
Qed.

Section DataManagerFacts.
Import DataManager.

Lemma temp_file_same_directory (name : string) :
  (temp_file name).1 = (collection_file name).1.
Proof. reflexivity. Qed.

Lemma temp_file_not_target (name other : string) :
  temp_file name ≠ collection_file other.
Proof.
  unfold temp_file, collection_file, with_suffix. cbn [fst snd].
  intros E. injection E as E. by apply json_name_not_tmp in E.
Qed.

Lemma backup_file_not_target (name other : string) :
  backup_file name ≠ collection_file other.
Proof.
  unfold backup_file, collection_file. intros E. injection E as E.
  by apply json_name_not_backup in E.
Qed.

Lemma temp_file_not_backup (name other : string) :
  temp_file name ≠ backup_file other.
Proof.
  unfold temp_file, backup_file, collection_file, with_suffix. cbn [fst snd].
  intros E. injection E as E. by apply tmp_name_not_backup in E.
Qed.

Lemma collection_file_inj (name other : string) :
  collection_file name = collection_file other -> name = other.
Proof.
  unfold collection_file. intros E. injection E as E.
  by apply string_app_inj_l in E.
Qed.

End DataManagerFacts.

(** ** Which files an operation leaves alone *)

Lemma exec_op_frame o d d' p :
  exec_op o d = Some d' -> ¬ touches o p -> files d' !! p = files d !! p.
Proof.
  destruct o as [src dst|dst q|src dst]; cbn; intros H Hp.
  - destruct (files d !! src); [|done]. case_decide; [done|].
    injection H as <-. cbn. by rewrite lookup_insert_ne.
  - case_decide; [done|]. injection H as <-. cbn. by rewrite lookup_insert_ne.
  - destruct (files d !! src); [|done]. case_decide; [done|].
    injection H as <-. cbn.
    assert (dst ≠ p /\ src ≠ p) as [? ?] by (split; intros ->; tauto).
    by rewrite lookup_insert_ne, lookup_delete_ne.
Qed.

(** An operation changes nothing but [files]. *)
Lemma exec_op_rest o d d' :
  exec_op o d = Some d' ->
  texts d' = texts d
  /\ url_status_cache_json d' = url_status_cache_json d
  /\ progress_json d' = progress_json d
  /\ faulty d' = faulty d.
Proof.
  destruct o as [src dst|dst q|src dst]; cbn; intros H.
  - destruct (files d !! src); [|done]. case_decide; [done|]. by injection H as <-.
  - case_decide; [done|]. by injection H as <-.
  - destruct (files d !! src); [|done]. case_decide; [done|]. by injection H as <-.
Qed.

Lemma run_ops_frame ops d p :
  Forall (fun o => ¬ touches o p) ops ->
  files (run_ops ops d).2 !! p = files d !! p.
Proof.
  intros H. revert d. induction H as [|o ops Ho _ IH]; intros d; [done|].
  cbn. destruct (exec_op o d) as [d'|] eqn:E; [|done].
  rewrite IH. by eapply exec_op_frame.
Qed.

Lemma run_ops_rest ops d :
  texts (run_ops ops d).2 = texts d
  /\ url_status_cache_json (run_ops ops d).2 = url_status_cache_json d
  /\ progress_json (run_ops ops d).2 = progress_json d
  /\ faulty (run_ops ops d).2 = faulty d.
Proof.
  revert d. induction ops as [|o ops IH]; intros d; [done|].
  cbn. destruct (exec_op o d) as [d'|] eqn:E; [|done].
  destruct (IH d') as (-> & -> & -> & ->). by apply (exec_op_rest o).
Qed.

Lemma interrupt_op_frame o d p :
  (¬ touches o p \/ exists src dst, o = OpRename src dst) ->
  files (interrupt_op o d) !! p = files d !! p.
Proof.
  intros [Hp|(src & dst & ->)]; [|done].
  destruct o as [src dst|dst q|src dst]; cbn in *; [| |done].
  - destruct (files d !! src) as [[q|q]|]; cbn; by rewrite ?lookup_insert_ne.
  - by rewrite lookup_insert_ne.
Qed.

Lemma run_ops_app ops1 ops2 d :
  run_ops (ops1 ++ ops2) d =
  if (run_ops ops1 d).1 then run_ops ops2 (run_ops ops1 d).2 else run_ops ops1 d.
Proof.
  revert d. induction ops1 as [|o ops1 IH]; intros d; [done|].
  cbn. destruct (exec_op o d); [apply IH|done].
Qed.

Lemma run_ops_failed ops d :
  (run_ops ops d).1 = false ->
  exists k, (k < length ops)%nat
            /\ (run_ops ops d).2 = (run_ops (take k ops) d).2.
Proof.
  revert d. induction ops as [|o ops IH]; intros d; [done|].
  cbn. destruct (exec_op o d) as [d'|] eqn:E.
  - intros H. destruct (IH d' H) as (k & Hk & Heq).
    exists (S k). split; [lia|]. cbn. by rewrite E.
  - intros _. exists 0%nat. split; [lia|done].
Qed.

(** ** Dictionaries and their addresses *)

Section Heap.
Import DataManager.

Lemma alloc_list_spec gs dm :
  let res := alloc_list gs dm in
  deref (heap res.2) <$> res.1 = gs
  /\ (forall a, a ∈ res.1 -> a ∉ dom (heap dm))
  /\ NoDup res.1
  /\ heap dm ⊆ heap res.2
  /\ collections_cache res.2 = collections_cache dm
  /\ last_save_time res.2 = last_save_time dm.
Proof.
  revert dm. induction gs as [|g gs IH]; intros dm; cbn.
  { split; [done|]. split; [by intros a ?%elem_of_nil|].
    split; [constructor|done]. }
  set (a := fresh (dom (heap dm))).
  set (dm1 := set_heap dm (<[a := g]> (heap dm))).
  assert (a ∉ dom (heap dm)) as Ha by apply is_fresh.
  specialize (IH dm1).
  destruct (alloc_list gs dm1) as [rest dm2]. cbn in *.
  destruct IH as (Hd & Hnew & Hnd & Hsub & Hc & Ht).
  assert (heap dm ⊆ heap dm2) as Hsub'.
  { etrans; [|exact Hsub]. apply insert_subseteq. by apply not_elem_of_dom. }
  split; [|split; [|split; [|done]]].
  - f_equal; [|done]. unfold deref.
    by rewrite (lookup_weaken _ _ a g (lookup_insert_eq _ _ _) Hsub).
  - intros b [->|Hb]%elem_of_cons; [done|].
    apply Hnew in Hb. cbn in Hb. set_solver.
  - constructor; [|done]. intros Hin. apply Hnew in Hin. cbn in Hin. set_solver.
Qed.

(** Reading through a larger heap. *)
Lemma deref_weaken h h' a :
  h ⊆ h' -> a ∈ dom h -> deref h' a = deref h a.
Proof.
  intros Hsub [g Hg]%elem_of_dom. unfold deref.
  by rewrite Hg, (lookup_weaken _ _ _ _ Hg Hsub).
Qed.

Lemma to_json_length h (c : collection_data addr) :
  length (gifts (to_json h c)) = length (gifts c).
Proof. cbn. by rewrite length_fmap. Qed.

End Heap.

(** ** Loading a collection *)

Section Load.
Import DataManager.

Lemma load_collection_cached now name dm d c :
  collections_cache dm !! name = Some c ->
  load_collection now name dm d = (c, dm).
Proof. intros H. unfold load_collection. by rewrite H. Qed.

(** What [load_collection] makes of a name that is not cached. *)
Lemma load_collection_new now name dm d :
  collections_cache dm !! name = None ->
  let res := load_collection now name dm d in
  collections_cache res.2 = <[name := res.1]> (collections_cache dm)
  /\ last_save_time res.2 = last_save_time dm
  /\ heap dm ⊆ heap res.2
  /\ (forall a, a ∈ gifts res.1 -> a ∉ dom (heap dm))
  /\ NoDup (gifts res.1)
  /\ match files d !! collection_file name with
     | Some (Complete j) => to_json (heap res.2) res.1 = j
     | _ => res.1 = _create_empty_collection now name /\ res.2 =
              set_cache dm (<[name := res.1]> (collections_cache dm))
     end.
Proof.
  intros Hc. unfold load_collection. rewrite Hc.
  destruct (files d !! collection_file name) as [[j|j]|] eqn:Hf; cbn.
  - pose proof (alloc_list_spec (gifts j) dm) as Hspec.
    destruct (alloc_list (gifts j) dm) as [addrs dm1]. cbn in *.
    destruct Hspec as (Hd & Hnew & Hnd & Hsub & Hcache & Ht).
    rewrite Hcache. do 5 (split; [done|]).
    unfold to_json, set_gifts. cbn. rewrite Hd. by destruct j.
  - do 3 (split; [done|]). split; [by intros a ?%elem_of_nil|].
    split; [constructor|done].
  - do 3 (split; [done|]). split; [by intros a ?%elem_of_nil|].
    split; [constructor|done].
Qed.

Lemma load_collection_caches now name dm d :
  let res := load_collection now name dm d in
  collections_cache res.2 !! name = Some res.1
  /\ (forall other, other ≠ name ->
        collections_cache res.2 !! other = collections_cache dm !! other)
  /\ last_save_time res.2 = last_save_time dm
  /\ heap dm ⊆ heap res.2.
Proof.
  destruct (collections_cache dm !! name) as [c|] eqn:Hc.
  - rewrite (load_collection_cached now name dm d c Hc). by cbn.
  - destruct (load_collection_new now name dm d Hc) as (Hcache & Ht & Hsub & _).
    cbn. rewrite Hcache. split; [by rewrite lookup_insert_eq|].
    split; [|done]. intros other Ho. by rewrite lookup_insert_ne.
Qed.

End Load.

(** ** Saving a collection *)

Section SaveCollection.
Variable cfg : ParserConfig.
Import DataManager.

Lemma save_collection_unfold now name dm d c :
  collections_cache dm !! name = Some c ->
  save_collection cfg now name dm d =
    ((run_ops (save_ops cfg name (to_json (heap dm) (stamp_for_save now c)) d) d).1,
     if (run_ops (save_ops cfg name (to_json (heap dm) (stamp_for_save now c)) d) d).1
     then set_last_save_time
            (set_cache dm (<[name := stamp_for_save now c]>
                             (collections_cache dm))) (unix now)
     else set_cache dm (<[name := stamp_for_save now c]> (collections_cache dm)),
     (run_ops (save_ops cfg name (to_json (heap dm) (stamp_for_save now c)) d) d).2).
Proof.
  intros Hc. unfold save_collection. rewrite Hc.
  by destruct (run_ops _ d) as [[] ?].
Qed.

Lemma run_ops_cons o ops d :
  run_ops (o :: ops) d =
  match exec_op o d with
  | Some d' => run_ops ops d'
  | None => (false, d)
  end.
Proof. done. Qed.

Lemma save_collection_unknown now name dm d :
  collections_cache dm !! name = None ->
  save_collection cfg now name dm d = (false, dm, d).
Proof. intros H. unfold save_collection. by rewrite H. Qed.

Lemma save_ops_shape name j d :
  exists pre,
    save_ops cfg name j d =
      pre ++ [OpWrite (temp_file name) j;
              OpRename (temp_file name) (collection_file name)]
    /\ Forall (fun o => ¬ touches o (collection_file name)) pre.
Proof.
  unfold save_ops. eexists; split; [reflexivity|].
  destruct (_ && _); [|constructor].
  repeat constructor. cbn. intros E. by apply (backup_file_not_target name name).
Qed.

Lemma save_ops_lookup name j d i o :
  save_ops cfg name j d !! i = Some o ->
  (S i < length (save_ops cfg name j d) ->
     ¬ touches o (collection_file name))%nat
  /\ (S i = length (save_ops cfg name j d) ->
       o = OpRename (temp_file name) (collection_file name))%nat.
Proof.
  destruct (save_ops_shape name j d) as (pre & -> & Hpre). intros Hi.
  rewrite length_app. cbn [length].
  apply lookup_app_Some in Hi as [Hi|[Hge Hi]].
  - apply lookup_lt_Some in Hi as Hlt. split; [|lia].
    intros _. by eapply Forall_lookup_1 in Hpre.
  - destruct (i - length pre)%nat as [|[|?]] eqn:Ei; cbn in Hi; simplify_eq.
    + split; [|lia]. intros _ E. by apply (temp_file_not_target name name).
    + split; [lia|done].
Qed.

Lemma save_ops_prefix_frame name j d k :
  (k < length (save_ops cfg name j d))%nat ->
  files (run_ops (take k (save_ops cfg name j d)) d).2 !! collection_file name
  = files d !! collection_file name.
Proof.
  intros Hk. apply run_ops_frame, Forall_lookup_2. intros i o Hi.
  apply lookup_take_Some in Hi as [Hi Hlt].
  apply (save_ops_lookup name j d i o Hi). lia.
Qed.

(** The run of the operations, written out. *)
Lemma save_ops_run name j d :
  let target := collection_file name in
  let temp := temp_file name in
  let backup := backup_file name in
  let copied :=
    match files d !! target with
    | Some old => if AUTO_BACKUP cfg then <[backup := old]> (files d) else files d
    | None => files d
    end in
  run_ops (save_ops cfg name j d) d =
    if bool_decide (is_Some (files d !! target)) && AUTO_BACKUP cfg
       && bool_decide (backup ∈ faulty d)
    then (false, d)
    else if bool_decide (temp ∈ faulty d) then (false, set_files d copied)
    else if bool_decide (target ∈ faulty d)
    then (false, set_files d (<[temp := Complete j]> copied))
    else (true, set_files d (<[target := Complete j]>
                               (delete temp (<[temp := Complete j]> copied)))).
Proof.
  intros target temp backup copied. unfold save_ops. fold target temp backup.
  assert (forall d0, faulty d0 = faulty d ->
    run_ops [OpWrite temp j; OpRename temp target] d0
    = if bool_decide (temp ∈ faulty d) then (false, d0)
      else if bool_decide (target ∈ faulty d)
      then (false, set_files d0 (<[temp := Complete j]> (files d0)))
      else (true, set_files d0 (<[target := Complete j]>
                                  (delete temp (<[temp := Complete j]> (files d0)))))) as Htail.
  { intros d0 Hf. cbn. rewrite Hf.
    case_decide as H1.
    { by rewrite bool_decide_eq_true_2. }
    rewrite (bool_decide_eq_false_2 _ H1). cbn.
    rewrite lookup_insert_eq. rewrite Hf.
    case_decide as H2.
    { by rewrite bool_decide_eq_true_2. }
    by rewrite (bool_decide_eq_false_2 _ H2). }
  destruct (files d !! target) as [old|] eqn:Hold.
  - rewrite bool_decide_eq_true_2 by eauto. cbn [andb].
    destruct (AUTO_BACKUP cfg); cbn [andb app].
    + assert (exec_op (OpCopy target backup) d
              = if decide (backup ∈ faulty d) then None
                else Some (set_files d copied)) as Hcopy.
      { cbn. by rewrite Hold. }
      rewrite (run_ops_cons (OpCopy target backup)), Hcopy.
      case_decide as H0.
      { by rewrite (bool_decide_eq_true_2 _ H0). }
      rewrite (bool_decide_eq_false_2 _ H0).
      rewrite Htail by done. subst copied. cbn.
      by repeat case_bool_decide.
    + rewrite Htail by done. subst copied.
      assert (set_files d (files d) = d) as -> by by destruct d.
      by repeat case_bool_decide.
  - rewrite bool_decide_eq_false_2 by (by intros [? ?]). cbn [andb app].
    rewrite Htail by done. subst copied.
    assert (set_files d (files d) = d) as -> by by destruct d.
    by repeat case_bool_decide.
Qed.

Lemma save_ops_success name j d :
  (run_ops (save_ops cfg name j d) d).1 = true ->
  files (run_ops (save_ops cfg name j d) d).2 !! collection_file name
  = Some (Complete j)
  /\ files (run_ops (save_ops cfg name j d) d).2 !! temp_file name = None.
Proof.
  rewrite save_ops_run. cbn zeta.
  destruct (_ && _ && _); [done|].
  destruct (bool_decide (temp_file name ∈ _)); [done|].
  destruct (bool_decide (collection_file name ∈ _)); [done|].
  intros _. cbn.
  split; [by rewrite lookup_insert_eq|].
  rewrite lookup_insert_ne by (intros E; by apply (temp_file_not_target name name)).
  by rewrite lookup_delete_eq.
Qed.

Lemma save_ops_failure name j d :
  (run_ops (save_ops cfg name j d) d).1 = false ->
  files (run_ops (save_ops cfg name j d) d).2 !! collection_file name
  = files d !! collection_file name.
Proof.
  intros Hf. destruct (run_ops_failed _ _ Hf) as (k & Hk & ->).
  by apply save_ops_prefix_frame.
Qed.

End SaveCollection.

Section Atomic.
Variable cfg : ParserConfig.
Import DataManager.

Lemma crash_state_done ops k mid d :
  (length ops <= k)%nat -> crash_state ops k mid d = (run_ops ops d).2.
Proof.
  intros Hk. unfold crash_state.
  rewrite take_ge by done. rewrite lookup_ge_None_2 by done. by destruct mid.
Qed.

(** The temporary file at the two interruptions around the end of the
    write, on a disk that lets the save reach the write. *)
Lemma save_ops_temp_file name j d :
  temp_file name ∉ faulty d ->
  (backup_file name ∉ faulty d \/ AUTO_BACKUP cfg = false
   \/ files d !! collection_file name = None) ->
  files (crash_state (save_ops cfg name j d)
           (length (save_ops cfg name j d) - 2) true d) !! temp_file name
    = Some (Truncated j)
  /\ files (crash_state (save_ops cfg name j d)
              (length (save_ops cfg name j d) - 1) false d) !! temp_file name
     = Some (Complete j).
Proof.
  intros Htemp Hbackup. unfold save_ops.
  destruct (files d !! collection_file name) as [old|] eqn:Hold;
    [destruct (AUTO_BACKUP cfg) eqn:Hauto|].
  - assert (backup_file name ∉ faulty d) as Hb
      by (by destruct Hbackup as [?|[?|?]]).
    rewrite bool_decide_eq_true_2 by eauto. cbn [andb app length Nat.sub].
    unfold crash_state. cbn [take lookup list_lookup run_ops exec_op].
    rewrite Hold. rewrite !decide_False by done. cbn.
    by rewrite !lookup_insert_eq.
  - rewrite andb_false_r. cbn [app length Nat.sub].
    unfold crash_state. cbn [take lookup list_lookup run_ops exec_op].
    rewrite ?decide_False by done. cbn.
    by rewrite !lookup_insert_eq.
  - rewrite bool_decide_eq_false_2 by (by intros [? ?]). cbn [andb app length Nat.sub].
    unfold crash_state. cbn [take lookup list_lookup run_ops exec_op].
    rewrite !decide_False by done. cbn.
    by rewrite !lookup_insert_eq.
Qed.

(** C6: [save_collection] copies the old file to the backup when asked to,
    writes the whole collection, every record with it, to a temporary file
    in the directory of the target, and renames that file over the target
    as its last operation.  On a disk that lets it write the save succeeds;
    a save that succeeds leaves the complete encoding of the collection in
    the target and no temporary file, and touches no other file than the
    backup; a save that fails leaves the target as it was.  An interruption
    at any point before the rename has happened leaves the target file as
    it was; at every point the target holds what it held or the complete
    new encoding; the encoding that an interrupted write cuts short is in
    the temporary file. *)
Theorem save_collection_atomic now name dm d c :
  collections_cache dm !! name = Some c ->
  let j := to_json (heap dm) (stamp_for_save now c) in
  let target := collection_file name in
  let temp := temp_file name in
  let backup := backup_file name in
  let ops := save_ops cfg name j d in
  let res := save_collection cfg now name dm d in
  ops = (if bool_decide (is_Some (files d !! target)) && AUTO_BACKUP cfg
         then [OpCopy target backup] else [])
        ++ [OpWrite temp j; OpRename temp target]
  /\ gifts j = deref (heap dm) <$> gifts c
  /\ temp.1 = target.1
  /\ temp ≠ target
  /\ backup ≠ target
  /\ res.1.1 = (run_ops ops d).1
  /\ res.2 = (run_ops ops d).2
  /\ (temp ∉ faulty d -> target ∉ faulty d ->
      (backup ∉ faulty d \/ AUTO_BACKUP cfg = false
       \/ files d !! target = None) ->
      res.1.1 = true)
  /\ (res.1.1 = true ->
      files res.2 !! target = Some (Complete j)
      /\ files res.2 !! temp = None
      /\ forall p, p ≠ target -> p ≠ temp -> p ≠ backup ->
           files res.2 !! p = files d !! p)
  /\ (res.1.1 = false -> files res.2 !! target = files d !! target)
  /\ (forall k mid, (k < length ops)%nat ->
        files (crash_state ops k mid d) !! target = files d !! target)
  /\ (forall k mid,
        files (crash_state ops k mid d) !! target = files d !! target
        \/ files (crash_state ops k mid d) !! target = Some (Complete j))
  /\ (temp ∉ faulty d ->
      (backup ∉ faulty d \/ AUTO_BACKUP cfg = false
       \/ files d !! target = None) ->
      files (crash_state ops (length ops - 2) true d) !! temp
        = Some (Truncated j)
      /\ files (crash_state ops (length ops - 1) false d) !! temp
         = Some (Complete j)).
Proof.
  intros Hc j target temp backup ops res.
  assert (res = ((run_ops ops d).1,
                 if (run_ops ops d).1
                 then set_last_save_time
                        (set_cache dm (<[name := stamp_for_save now c]>
                                         (collections_cache dm))) (unix now)
                 else set_cache dm (<[name := stamp_for_save now c]>
                                      (collections_cache dm)),
                 (run_ops ops d).2)) as Hres
    by apply (save_collection_unfold cfg now name dm d c Hc).
  assert (forall k mid, (k < length ops)%nat ->
            files (crash_state ops k mid d) !! target = files d !! target)
    as Hbefore.
  { intros k mid Hk. unfold crash_state.
    pose proof (save_ops_prefix_frame cfg name j d k Hk) as Hpre.
    fold ops target in Hpre.
    destruct mid; [|done].
    destruct (ops !! k) as [o|] eqn:Ho; [|done].
    rewrite interrupt_op_frame; [done|].
    destruct (save_ops_lookup cfg name j d k o Ho) as [Hlt Heq].
    fold ops in Hlt, Heq.
    destruct (decide (S k = length ops)) as [E|E]; [right|left].
    - rewrite (Heq E). eauto.
    - apply Hlt. lia. }
  split; [done|]. split; [done|]. split; [done|].
  split; [apply temp_file_not_target|].
  split; [apply backup_file_not_target|].
  split; [by rewrite Hres|]. split; [by rewrite Hres|].
  split; [|split; [|split; [|split; [done|split]]]].
  - intros Ht Hg Hb. rewrite Hres. cbn [fst snd]. unfold ops.
    rewrite save_ops_run. cbn zeta. fold target temp backup.
    rewrite (bool_decide_eq_false_2 (temp ∈ _)) by done.
    rewrite (bool_decide_eq_false_2 (target ∈ _)) by done.
    destruct Hb as [Hb|[Hb|Hb]].
    + by rewrite (bool_decide_eq_false_2 (backup ∈ _)), andb_false_r by done.
    + by rewrite Hb, andb_false_r.
    + rewrite Hb. by rewrite bool_decide_eq_false_2 by (by intros [? ?]).
  - rewrite Hres. cbn [fst snd]. intros Hok.
    destruct (save_ops_success cfg name j d Hok) as [Htarget Htemp].
    split; [done|]. split; [done|].
    intros p Hp1 Hp2 Hp3. apply run_ops_frame. unfold ops, save_ops.
    apply Forall_app. split.
    + destruct (_ && _); repeat constructor. by cbn.
    + repeat constructor; cbn; [done|]. by intros [?|?].
  - rewrite Hres. cbn [fst snd]. apply save_ops_failure.
  - intros k mid. destruct (decide (k < length ops)%nat) as [Hk|Hk].
    { left. by apply Hbefore. }
    rewrite crash_state_done by lia.
    destruct (run_ops ops d).1 eqn:Hok.
    + right. by apply save_ops_success.
    + left. by apply save_ops_failure.
  - apply save_ops_temp_file.
Qed.

End Atomic.

(** ** Upserting gifts *)

Section Upsert.
Variable cfg : ParserConfig.
Import DataManager.

Lemma elem_of_ids_of gid h stored :
  gid ∈ ids_of h stored <-> exists e, e ∈ stored /\ gift_id_at h e = gid.
Proof.
  unfold ids_of. rewrite elem_of_list_to_set, list_elem_of_fmap.
  split; intros (e & H1 & H2); by exists e.
Qed.

Lemma elem_of_gift_ids id h stored :
  id ∈ gift_ids h stored <-> id ∈ ids_of h stored.
Proof. unfold gift_ids, ids_of. by rewrite elem_of_list_to_set. Qed.

(** The two keys written into an incoming dictionary are not its id. *)
Lemma stamp_update_gift_id now (e g : dict) :
  dict_get (stamp_update now e g) "gift_id" = dict_get g "gift_id".
Proof. unfold stamp_update, dict_get. by rewrite !lookup_insert_ne. Qed.

(** Writing a dictionary with the same id at an address changes no id. *)
Lemma gift_id_at_insert h a g b :
  dict_get g "gift_id" = gift_id_at h a ->
  gift_id_at (<[a := g]> h) b = gift_id_at h b.
Proof.
  intros Hg. unfold gift_id_at, deref in *.
  destruct (decide (b = a)) as [->|Hne].
  - by rewrite lookup_insert_eq.
  - by rewrite lookup_insert_ne.
Qed.

Lemma gift_ids_insert h a g stored :
  dict_get g "gift_id" = gift_id_at h a ->
  gift_ids (<[a := g]> h) stored = gift_ids h stored.
Proof.
  intros Hg. unfold gift_ids. apply list_fmap_ext. intros _ b _.
  by apply gift_id_at_insert.
Qed.

(** The inner loop stops at the first stored record with the id. *)
Lemma update_existing_first now a h stored :
  gift_id_at h a ∈ ids_of h stored ->
  exists i e,
    stored !! i = Some e
    /\ gift_id_at h e = gift_id_at h a
    /\ (forall j e', (j < i)%nat -> stored !! j = Some e' ->
          gift_id_at h e' ≠ gift_id_at h a)
    /\ update_existing now a (gift_id_at h a) stored h =
         if decide (deref h e ≠ deref h a)
         then (<[i := a]> stored,
               <[a := stamp_update now (deref h e) (deref h a)]> h, 1)
         else (stored, h, 0).
Proof.
  rewrite elem_of_ids_of. intros (e0 & Hin & Hid).
  induction stored as [|e stored IH]; [by apply elem_of_nil in Hin|].
  cbn [update_existing]. fold (gift_id_at h e).
  destruct (decide (gift_id_at h e = gift_id_at h a)) as [E|E].
  - exists 0%nat, e. split; [done|]. split; [done|]. split; [lia|].
    by destruct (decide (deref h e ≠ deref h a)).
  - apply elem_of_cons in Hin as [->|Hin]; [done|].
    destruct (IH Hin) as (i & e1 & Hi & Hid1 & Hfirst & Hupd).
    exists (S i), e1. split; [done|]. split; [done|]. split.
    + intros [|j] e' Hj Hl; cbn in Hl; [by simplify_eq|].
      apply (Hfirst j); [lia|done].
    + rewrite Hupd. by destruct (decide (deref h e1 ≠ deref h a)).
Qed.

(** Without a stored record of the id the inner loop changes nothing. *)
Lemma update_existing_absent now a gid h stored :
  gid ∉ ids_of h stored ->
  update_existing now a gid stored h = (stored, h, 0).
Proof.
  rewrite elem_of_ids_of. intros Hno.
  induction stored as [|e stored IH]; [done|].
  cbn [update_existing]. fold (gift_id_at h e).
  rewrite decide_False.
  - rewrite IH; [done|]. intros (e' & ? & ?). apply Hno. exists e'.
    split; [by right|done].
  - intros E. apply Hno. exists e. split; [by left|done].
Qed.

(** What one iteration does, by the four cases of the loop body. *)
Lemma upsert_one_cases now st a :
  existing_gift_ids st = ids_of (st_heap st) (st_gifts st) ->
  let h := st_heap st in
  let st1 := upsert_one now st a in
  (¬ has_id (deref h a) /\ st1 = st)
  \/ (has_id (deref h a)
      /\ (forall e, e ∈ st_gifts st -> gift_id_at h e ≠ gift_id_at h a)
      /\ st_gifts st1 = st_gifts st ++ [a]
      /\ st_heap st1 = h
      /\ added_count st1 + updated_count st1
         = 1 + (added_count st + updated_count st))
  \/ (has_id (deref h a)
      /\ exists i e,
        st_gifts st !! i = Some e
        /\ gift_id_at h e = gift_id_at h a
        /\ (forall j e', (j < i)%nat -> st_gifts st !! j = Some e' ->
              gift_id_at h e' ≠ gift_id_at h a)
        /\ ((deref h e ≠ deref h a
             /\ st_gifts st1 = <[i := a]> (st_gifts st)
             /\ st_heap st1 = <[a := stamp_update now (deref h e) (deref h a)]> h
             /\ added_count st1 + updated_count st1
                = 1 + (added_count st + updated_count st))
            \/ (deref h e = deref h a
                /\ st_gifts st1 = st_gifts st
                /\ st_heap st1 = h
                /\ added_count st1 + updated_count st1
                   = added_count st + updated_count st))).
Proof.
  intros Hinv h st1. subst st1. unfold upsert_one. fold h. fold (gift_id_at h a).
  destruct (truthy (gift_id_at h a)) eqn:Hid; cbn [negb].
  2:{ left. split; [|done]. unfold has_id. fold (gift_id_at h a).
      by rewrite Hid. }
  assert (has_id (deref h a)) as Hhas by done.
  right. case_decide as Hin.
  - right. split; [done|]. rewrite Hinv in Hin.
    destruct (update_existing_first now a h (st_gifts st) Hin)
      as (i & e & Hi & Hide & Hfirst & Hupd).
    exists i, e. split; [done|]. split; [done|]. split; [done|].
    fold h in Hupd |- *. rewrite Hupd.
    destruct (decide (deref h e ≠ deref h a)) as [Hne|Heq]; cbn.
    + left. repeat split; try done. lia.
    + right. apply dec_stable in Heq. repeat split; try done. lia.
  - left. split; [done|]. rewrite Hinv, elem_of_ids_of in Hin.
    split; [|cbn; repeat split; try done; lia].
    intros e He Hide. apply Hin. by exists e.
Qed.

(** The ids of the stored records, in their order, after one iteration. *)
Lemma upsert_one_id_list now st a :
  existing_gift_ids st = ids_of (st_heap st) (st_gifts st) ->
  let st1 := upsert_one now st a in
  (forall b, gift_id_at (st_heap st1) b = gift_id_at (st_heap st) b)
  /\ ((gift_ids (st_heap st1) (st_gifts st1)
       = gift_ids (st_heap st) (st_gifts st))
      \/ (has_id (deref (st_heap st) a)
          /\ (gift_id_at (st_heap st) a ∉ gift_ids (st_heap st) (st_gifts st))
          /\ gift_ids (st_heap st1) (st_gifts st1)
             = gift_ids (st_heap st) (st_gifts st) ++ [gift_id_at (st_heap st) a]))
  /\ existing_gift_ids st1 = ids_of (st_heap st1) (st_gifts st1).
Proof.
  intros Hinv st1.
  pose proof (upsert_one_cases now st a Hinv) as Hcases. cbn zeta in Hcases.
  fold st1 in Hcases.
  assert (has_id (deref (st_heap st) a) ->
          gift_id_at (st_heap st) a ∈ ids_of (st_heap st) (st_gifts st) ->
          existing_gift_ids st1 = existing_gift_ids st) as Hseen.
  { intros Hhas Hin. subst st1. unfold upsert_one.
    fold (gift_id_at (st_heap st) a).
    assert (truthy (gift_id_at (st_heap st) a) = true) as -> by done.
    cbn [negb]. rewrite decide_True by (by rewrite Hinv).
    by destruct (update_existing _ _ _ _ _) as [[? ?] ?]. }
  destruct Hcases as [Hc|[Hc|Hc]].
  - destruct Hc as [_ Heq]. rewrite Heq.
    split; [done|]. split; [by left|done].
  - destruct Hc as (Hhas & Hnew & Hg & Hh & _). rewrite Hg, Hh.
    split; [done|]. split.
    + right. split; [done|]. split.
      * unfold gift_ids. rewrite list_elem_of_fmap.
        intros (e & He1 & He2). by apply (Hnew e).
      * unfold gift_ids. by rewrite fmap_app.
    + assert (existing_gift_ids st1
              = {[gift_id_at (st_heap st) a]} ∪ existing_gift_ids st) as ->.
      { subst st1. unfold upsert_one. fold (gift_id_at (st_heap st) a).
        assert (truthy (gift_id_at (st_heap st) a) = true) as -> by done.
        cbn [negb]. rewrite decide_False; [done|].
        rewrite Hinv, elem_of_ids_of. intros (e & He1 & He2).
        by apply (Hnew e). }
      rewrite Hinv. unfold ids_of. rewrite fmap_app, list_to_set_app_L.
      cbn. set_solver.
  - destruct Hc as (Hhas & i & e & Hi & Hide & _ & Hc).
    assert (gift_id_at (st_heap st) a ∈ ids_of (st_heap st) (st_gifts st))
      as Hin.
    { rewrite elem_of_ids_of. exists e.
      split; [by eapply list_elem_of_lookup_2|done]. }
    rewrite (Hseen Hhas Hin).
    destruct Hc as [Hc|Hc].
    + destruct Hc as (Hne & Hg & Hh & _).
      assert (forall l, gift_ids (st_heap st1) l = gift_ids (st_heap st) l)
        as Hids.
      { intros l. rewrite Hh. apply gift_ids_insert, stamp_update_gift_id. }
      assert (gift_ids (st_heap st1) (st_gifts st1)
              = gift_ids (st_heap st) (st_gifts st)) as Hsame.
      { rewrite Hids, Hg. unfold gift_ids. rewrite list_fmap_insert.
        apply list_insert_id. rewrite list_lookup_fmap, Hi. cbn. by f_equal. }
      split; [|split; [by left|]].
      * intros b. rewrite Hh. apply gift_id_at_insert, stamp_update_gift_id.
      * rewrite Hinv. unfold ids_of.
        fold (gift_ids (st_heap st) (st_gifts st)).
        fold (gift_ids (st_heap st1) (st_gifts st1)). by rewrite Hsame.
    + destruct Hc as (_ & Hg & Hh & _). rewrite Hg, Hh.
      split; [done|]. split; [by left|done].
Qed.

Lemma has_id_gift_id_at h h' a :
  gift_id_at h' a = gift_id_at h a ->
  has_id (deref h' a) <-> has_id (deref h a).
Proof. unfold has_id, gift_id_at. by intros ->. Qed.

(** The loop of [add_gifts_to_collection] does what the contract asks of
    the records that carry an id, and passes over the others. *)
Lemma upsert_loop_meets_spec now incoming st :
  existing_gift_ids st = ids_of (st_heap st) (st_gifts st) ->
  let st' := foldl (upsert_one now) st incoming in
  upsert_spec now (st_heap st, st_gifts st)
    (filter (fun a => has_id (deref (st_heap st) a)) incoming)
    (st_heap st', st_gifts st')
    (added_count st' + updated_count st' - (added_count st + updated_count st)).
Proof.
  revert st. induction incoming as [|a incoming IH]; intros st Hinv;
    cbn [foldl].
  { replace (_ - _) with 0 by lia. constructor. }
  destruct (upsert_one_id_list now st a Hinv) as (Hsame & _ & Hinv1).
  specialize (IH _ Hinv1). cbn zeta in IH.
  set (st1 := upsert_one now st a) in *.
  set (st' := foldl (upsert_one now) st1 incoming) in *.
  assert (filter (fun b => has_id (deref (st_heap st1) b)) incoming
          = filter (fun b => has_id (deref (st_heap st) b)) incoming) as Hf.
  { apply list_filter_iff. intros b. apply has_id_gift_id_at, Hsame. }
  rewrite Hf in IH.
  pose proof (upsert_one_cases now st a Hinv) as Hcases. cbn zeta in Hcases.
  fold st1 in Hcases.
  destruct Hcases as [Hc|[Hc|Hc]].
  - destruct Hc as [Hno Heq].
    rewrite filter_cons_False by done. by rewrite Heq in IH.
  - destruct Hc as (Hhas & Hnew & Hg & Hh & Hn).
    rewrite filter_cons_True by done. rewrite Hg, Hh in IH.
    replace (_ - _) with
      (1 + (added_count st' + updated_count st'
            - (added_count st1 + updated_count st1))) by lia.
    by apply upsert_append.
  - destruct Hc as (Hhas & i & e & Hi & Hide & Hfirst & Hc).
    rewrite filter_cons_True by done.
    destruct Hc as [Hc|Hc].
    + destruct Hc as (Hne & Hg & Hh & Hn). rewrite Hg, Hh in IH.
      replace (_ - _) with
        (1 + (added_count st' + updated_count st'
              - (added_count st1 + updated_count st1))) by lia.
      by eapply upsert_replace.
    + destruct Hc as (Heq & Hg & Hh & Hn). rewrite Hg, Hh in IH.
      replace (added_count st' + updated_count st'
               - (added_count st + updated_count st))
        with (added_count st' + updated_count st'
              - (added_count st1 + updated_count st1)) by lia.
      by eapply upsert_untouched.
Qed.

Lemma upsert_init_ids stored h :
  existing_gift_ids (upsert_init stored h)
  = ids_of (st_heap (upsert_init stored h)) (st_gifts (upsert_init stored h)).
Proof. done. Qed.

(** A save changes neither the records of the cached collection nor the
    heap. *)
Lemma save_collection_keeps_gifts now name dm d c :
  collections_cache dm !! name = Some c ->
  heap (save_collection cfg now name dm d).1.2 = heap dm
  /\ exists c2,
       collections_cache (save_collection cfg now name dm d).1.2 !! name = Some c2
       /\ gifts c2 = gifts c
       /\ total_gifts c2 = total_gifts c
       /\ processed_gifts c2 = Z.of_nat (length (gifts c)).
Proof.
  intros Hc. rewrite (save_collection_unfold cfg now name dm d c Hc).
  cbn [fst snd]. destruct (run_ops _ d).1; cbn.
  - split; [done|]. exists (stamp_for_save now c). by rewrite lookup_insert_eq.
  - split; [done|]. exists (stamp_for_save now c). by rewrite lookup_insert_eq.
Qed.

(** How a call on a batch that is not empty ends. *)
Lemma add_gifts_to_collection_unfold now name incoming dm d :
  incoming ≠ [] ->
  let before := load_collection now name dm d in
  let st := upsert_loop now (gifts before.1) (heap before.2) incoming in
  let res := add_gifts_to_collection cfg now name incoming dm d in
  res.1.1 = added_count st + updated_count st
  /\ heap res.1.2 = st_heap st
  /\ (forall other, other ≠ name ->
        collections_cache res.1.2 !! other = collections_cache dm !! other)
  /\ exists c',
       collections_cache res.1.2 !! name = Some c'
       /\ gifts c' = st_gifts st
       /\ total_gifts c' = Z.of_nat (length (st_gifts st))
       /\ processed_gifts c' =
            if 30 <? unix now - last_save_time dm
            then Z.of_nat (length (st_gifts st))
            else Z.of_nat (length (filter
                   (fun g => dict_get (deref (st_heap st) g) "status"
                             = VStr "active") (st_gifts st))).
Proof.
  intros Hne. cbn zeta. unfold add_gifts_to_collection.
  destruct incoming as [|a incoming]; [done|].
  pose proof (load_collection_caches now name dm d) as (Hcached & Hother & Ht & _).
  destruct (load_collection now name dm d) as [c dm1] eqn:Hb.
  cbn [fst snd] in *.
  set (st := upsert_loop now (gifts c) (heap dm1) (a :: incoming)).
  set (c' := with_gifts (st_heap st) c (st_gifts st)).
  set (dm2 := set_heap (set_cache dm1 (<[name := c']> (collections_cache dm1)))
                       (st_heap st)).
  assert (collections_cache dm2 !! name = Some c') as Hc2
    by (cbn; by rewrite lookup_insert_eq).
  assert (last_save_time dm2 = last_save_time dm) as Ht2 by done.
  rewrite Ht2.
  destruct (30 <? unix now - last_save_time dm) eqn:Hlate.
  - destruct (save_collection_keeps_gifts now name dm2 d c' Hc2)
      as (Hh & c2 & Hc2' & Hg & Htot & Hp).
    pose proof (save_collection_unfold cfg now name dm2 d c' Hc2) as Hs.
    destruct (save_collection cfg now name dm2 d) as [[ok dm3] d3].
    cbn [fst snd] in *. split; [done|]. split; [done|]. split.
    + intros other Ho. injection Hs as _ -> _.
      destruct (run_ops _ d).1; cbn; rewrite lookup_insert_ne by done;
        rewrite lookup_insert_ne by done; by apply Hother.
    + exists c2. by rewrite Hg, Htot, Hp.
  - cbn [fst snd]. split; [done|]. split; [done|]. split.
    + intros other Ho. cbn. rewrite lookup_insert_ne by done. by apply Hother.
    + by exists c'.
Qed.

(** C4: [add_gifts_to_collection] is the upsert of the contract.  The
    records of the batch are taken in turn, each as it is when its turn
    comes: one whose id is not in the collection is appended; one whose id
    is there and that differs from the first stored record of that id takes
    its place, [updated_at] stamped and [previous_status] the status of the
    stored record; one equal to the stored record (as the very dictionary
    that was stored a moment ago is) changes nothing; the call returns the
    number of the appended and the replaced records.  Dictionaries without
    an id (missing, [None], empty or zero) are no records: they are passed
    over.  This holds for every batch and every state of the manager. *)
Theorem add_gifts_to_collection_upserts now name incoming dm d :
  let before := load_collection now name dm d in
  let res := add_gifts_to_collection cfg now name incoming dm d in
  let after := load_collection now name res.1.2 res.2 in
  upsert_spec now
    (heap before.2, gifts before.1)
    (filter (fun a => has_id (deref (heap before.2) a)) incoming)
    (heap after.2, gifts after.1)
    res.1.1.
Proof.
  intros before res after.
  destruct (decide (incoming = [])) as [->|Hne].
  { subst res after. cbn. constructor. }
  destruct (add_gifts_to_collection_unfold now name incoming dm d Hne)
    as (Hn & Hh & _ & c' & Hc' & Hg & _).
  fold before res in Hn, Hh, Hc', Hg.
  subst after. rewrite (load_collection_cached now name _ _ c' Hc').
  cbn [fst snd]. rewrite Hn, Hh, Hg.
  pose proof (upsert_loop_meets_spec now incoming
                (upsert_init (gifts before.1) (heap before.2))
                (upsert_init_ids _ _)) as Hspec.
  cbn in Hspec. unfold upsert_loop.
  by replace (_ - _) with
    (added_count (foldl (upsert_one now)
                    (upsert_init (gifts before.1) (heap before.2)) incoming)
     + updated_count (foldl (upsert_one now)
                        (upsert_init (gifts before.1) (heap before.2)) incoming))
    in Hspec by lia.
Qed.

End Upsert.

(** ** The counters of a saved collection *)

Section SavedCounters.
Variable cfg : ParserConfig.
Import DataManager.

Lemma exec_op_settled o d d' :
  (forall p j, files d !! p = Some (Complete j) -> settled j) ->
  (forall dst j, o = OpWrite dst j -> settled j) ->
  exec_op o d = Some d' ->
  forall p j, files d' !! p = Some (Complete j) -> settled j.
Proof.
  intros Hd Ho. destruct o as [src dst|dst q|src dst]; cbn; intros H p j.
  - destruct (files d !! src) as [c|] eqn:Hsrc; [|done].
    case_decide; [done|]. injection H as <-. cbn.
    destruct (decide (p = dst)) as [->|Hne].
    + rewrite lookup_insert_eq. intros [= ->]. by apply (Hd src).
    + rewrite lookup_insert_ne by done. apply Hd.
  - case_decide; [done|]. injection H as <-. cbn.
    destruct (decide (p = dst)) as [->|Hne].
    + rewrite lookup_insert_eq. intros [= ->]. by apply (Ho dst).
    + rewrite lookup_insert_ne by done. apply Hd.
  - destruct (files d !! src) as [c|] eqn:Hsrc; [|done].
    case_decide; [done|]. injection H as <-. cbn.
    destruct (decide (p = dst)) as [->|Hne].
    + rewrite lookup_insert_eq. intros [= ->]. by apply (Hd src).
    + rewrite lookup_insert_ne by done.
      intros Hp. apply lookup_delete_Some in Hp as [_ Hp]. by apply (Hd p).
Qed.

Lemma run_ops_settled ops d :
  (forall p j, files d !! p = Some (Complete j) -> settled j) ->
  (forall dst j, OpWrite dst j ∈ ops -> settled j) ->
  forall p j, files (run_ops ops d).2 !! p = Some (Complete j) -> settled j.
Proof.
  revert d. induction ops as [|o ops IH]; intros d Hd Ho; [done|].
  cbn. destruct (exec_op o d) as [d'|] eqn:E; [|done].
  apply IH.
  - eapply exec_op_settled; [done| |done].
    intros dst j ->. apply (Ho dst). by left.
  - intros dst j Hin. apply (Ho dst). by right.
Qed.

Lemma interrupt_op_settled o d :
  (forall p j, files d !! p = Some (Complete j) -> settled j) ->
  forall p j, files (interrupt_op o d) !! p = Some (Complete j) -> settled j.
Proof.
  intros Hd p j. destruct o as [src dst|dst q|src dst]; cbn; [| |apply Hd].
  - destruct (files d !! src) as [[c|c]|]; cbn; [| |apply Hd].
    + destruct (decide (p = dst)) as [->|Hne].
      * by rewrite lookup_insert_eq.
      * rewrite lookup_insert_ne by done. apply Hd.
    + destruct (decide (p = dst)) as [->|Hne].
      * by rewrite lookup_insert_eq.
      * rewrite lookup_insert_ne by done. apply Hd.
  - destruct (decide (p = dst)) as [->|Hne].
    + by rewrite lookup_insert_eq.
    + rewrite lookup_insert_ne by done. apply Hd.
Qed.

(** What is written is settled when the cached collection is counted. *)
Lemma to_json_settled now h (c : collection_data addr) :
  counted c -> settled (to_json h (stamp_for_save now c)).
Proof.
  unfold settled, counted. cbn. rewrite length_fmap. by intros ->.
Qed.

Lemma save_ops_writes name j d dst j' :
  OpWrite dst j' ∈ save_ops cfg name j d -> j' = j.
Proof.
  unfold save_ops. rewrite elem_of_app. intros [H|H].
  - destruct (_ && _); [|by apply elem_of_nil in H].
    by apply list_elem_of_singleton in H.
  - apply elem_of_cons in H as [H|H]; [by injection H|].
    by apply list_elem_of_singleton in H.
Qed.

Lemma save_collection_consistent now name s :
  store_consistent s ->
  store_consistent ((save_collection cfg now name s.1 s.2).1.2,
                    (save_collection cfg now name s.1 s.2).2).
Proof.
  destruct s as [dm d]. intros [Hcache Hfiles]. cbn [fst snd] in *.
  destruct (collections_cache dm !! name) as [c|] eqn:Hc.
  2:{ by rewrite (save_collection_unknown cfg now name dm d Hc). }
  rewrite (save_collection_unfold cfg now name dm d c Hc). cbn [fst snd].
  split.
  - assert (forall n c0,
              <[name := stamp_for_save now c]> (collections_cache dm) !! n
              = Some c0 -> counted c0) as H.
    { intros n c0. destruct (decide (n = name)) as [->|Hne].
      - rewrite lookup_insert_eq. intros [= <-].
        unfold counted. cbn. by apply (Hcache name).
      - rewrite lookup_insert_ne by done. apply Hcache. }
    by destruct (run_ops _ d).1.
  - apply run_ops_settled; [done|].
    intros dst j' Hin. apply save_ops_writes in Hin as ->.
    apply to_json_settled. by apply (Hcache name).
Qed.

Lemma load_collection_consistent now name s :
  store_consistent s ->
  store_consistent ((load_collection now name s.1 s.2).2, s.2)
  /\ counted (load_collection now name s.1 s.2).1.
Proof.
  destruct s as [dm d]. intros [Hcache Hfiles]. cbn [fst snd] in *.
  destruct (collections_cache dm !! name) as [c|] eqn:Hc.
  { rewrite (load_collection_cached now name dm d c Hc).
    split; [done|]. by apply (Hcache name). }
  pose proof (load_collection_new now name dm d Hc) as H. cbn zeta in H.
  destruct (load_collection now name dm d) as [c dm1]. cbn [fst snd] in *.
  destruct H as (Hc1 & _ & _ & _ & _ & Hfile).
  assert (counted c) as Hcounted.
  { destruct (files d !! collection_file name) as [[j|j]|] eqn:Hf.
    - destruct (Hfiles _ _ Hf) as [Hj _]. subst j.
      unfold counted in *. cbn in Hj. by rewrite length_fmap in Hj.
    - by destruct Hfile as [-> _].
    - by destruct Hfile as [-> _]. }
  split; [|done]. split; [|done]. cbn. rewrite Hc1. intros n c0.
  destruct (decide (n = name)) as [->|Hne].
  - rewrite lookup_insert_eq. by intros [= <-].
  - rewrite lookup_insert_ne by done. apply Hcache.
Qed.

Lemma add_gifts_to_collection_consistent now name incoming s :
  store_consistent s ->
  store_consistent
    ((add_gifts_to_collection cfg now name incoming s.1 s.2).1.2,
     (add_gifts_to_collection cfg now name incoming s.1 s.2).2).
Proof.
  destruct s as [dm d]. intros Hs. cbn [fst snd].
  unfold add_gifts_to_collection.
  destruct incoming as [|a incoming]; [done|].
  destruct (load_collection_consistent now name (dm, d) Hs) as [[Hcache Hfiles] _].
  cbn [fst snd] in *.
  destruct (load_collection now name dm d) as [c dm1]. cbn [fst snd] in *.
  set (st := upsert_loop now (gifts c) (heap dm1) (a :: incoming)).
  set (c' := with_gifts (st_heap st) c (st_gifts st)).
  set (dm2 := set_heap (set_cache dm1 (<[name := c']> (collections_cache dm1)))
                       (st_heap st)).
  assert (store_consistent (dm2, d)) as H2.
  { split; [|done]. cbn. intros n c0.
    destruct (decide (n = name)) as [->|Hne].
    - rewrite lookup_insert_eq. by intros [= <-].
    - rewrite lookup_insert_ne by done. apply Hcache. }
  destruct (30 <? unix now - last_save_time dm2); [|done].
  pose proof (save_collection_consistent now name (dm2, d) H2) as H3.
  cbn [fst snd] in H3.
  by destruct (save_collection cfg now name dm2 d) as [[ok dm3] d3].
Qed.

Lemma save_all_collections_consistent now s :
  store_consistent s ->
  store_consistent (save_all_collections cfg now s.1 s.2).
Proof.
  destruct s as [dm d]. cbn [fst snd]. unfold save_all_collections.
  generalize (elements (dom (collections_cache dm))). intros names.
  revert dm d. induction names as [|name names IH]; intros dm d Hs; [done|].
  cbn [foldl].
  pose proof (save_collection_consistent now name (dm, d) Hs) as H.
  cbn [fst snd] in H.
  destruct (save_collection cfg now name dm d) as [[ok dm1] d1].
  by apply IH.
Qed.

Lemma crash_state_settled ops k mid d :
  (forall p j, files d !! p = Some (Complete j) -> settled j) ->
  (forall dst j, OpWrite dst j ∈ ops -> settled j) ->
  forall p j, files (crash_state ops k mid d) !! p = Some (Complete j) ->
              settled j.
Proof.
  intros Hd Ho. unfold crash_state.
  assert (forall p j, files (run_ops (take k ops) d).2 !! p = Some (Complete j)
                      -> settled j) as Hpre.
  { apply run_ops_settled; [done|]. intros dst j Hin. apply (Ho dst).
    by eapply subseteq_take. }
  destruct mid; [|done]. destruct (ops !! k); [|done].
  by apply interrupt_op_settled.
Qed.

Lemma fix_collection_consistent now name backup d :
  (forall p j, files d !! p = Some (Complete j) -> settled j) ->
  store_consistent (Utils.fix_collection now name backup d).
Proof.
  intros Hfiles. unfold Utils.fix_collection.
  assert (store_consistent (new_data_manager now, d)) as Hs.
  { split; [|done]. cbn. intros n c. by rewrite lookup_empty. }
  destruct (load_collection_consistent now name (new_data_manager now, d) Hs)
    as [[Hcache _] _]. cbn [fst snd] in Hcache.
  pose proof (load_collection_new now name (new_data_manager now) d
                (lookup_empty _)) as Hnew. cbn zeta in Hnew.
  destruct (load_collection now name (new_data_manager now) d) as [c dm].
  cbn [fst snd] in *. destruct Hnew as (_ & _ & _ & _ & _ & Hfile).
  assert (settled (to_json (heap dm) c)) as Hc.
  { destruct (files d !! collection_file name) as [[j|j]|] eqn:Hf.
    - rewrite Hfile. by apply (Hfiles _ _ Hf).
    - by destruct Hfile as [-> _].
    - by destruct Hfile as [-> _]. }
  assert (forall d1,
            (forall p j, files d1 !! p = Some (Complete j) -> settled j) ->
            store_consistent
              (set_heap
                 (set_cache dm
                    (<[name := {|
                        collection_name := collection_name c;
                        total_gifts :=
                          Z.of_nat (length (Utils.unique_gifts (heap dm) ∅ (gifts c)));
                        processed_gifts :=
                          Z.of_nat (length (filter
                            (fun g => dict_get
                               (deref (foldl (fun h a =>
                                   <[a := Utils.fix_fields now (deref h a)]> h)
                                 (heap dm)
                                 (Utils.unique_gifts (heap dm) ∅ (gifts c))) g)
                               "status" = VStr "active")
                            (Utils.unique_gifts (heap dm) ∅ (gifts c))));
                        last_updated := iso now;
                        created_at := created_at c;
                        gifts := Utils.unique_gifts (heap dm) ∅ (gifts c) |}]>
                       (collections_cache dm)))
                 (foldl (fun h a => <[a := Utils.fix_fields now (deref h a)]> h)
                    (heap dm) (Utils.unique_gifts (heap dm) ∅ (gifts c))),
               d1)) as Hput.
  { intros d1 Hd1. split; [|done]. cbn. intros n c0.
    destruct (decide (n = name)) as [->|Hne].
    - rewrite lookup_insert_eq. by intros [= <-].
    - rewrite lookup_insert_ne by done. apply Hcache. }
  destruct backup as [stamp|]; [|by apply Hput].
  destruct (exec_op _ d) as [d1|] eqn:Hw; [|done].
  apply Hput. eapply exec_op_settled; [exact Hfiles| |exact Hw].
  by intros dst j [= _ <-].
Qed.

Lemma store_step_consistent s e :
  store_consistent s -> store_consistent (store_step cfg s e).
Proof.
  intros Hs. destruct s as [dm d].
  destruct e as [now name|now name incoming|now name|now|g|a g
                |now name backup|now|now name k mid]; cbn [store_step].
  - by apply (load_collection_consistent now name (dm, d)).
  - pose proof (add_gifts_to_collection_consistent now name incoming (dm, d) Hs)
      as H. cbn [fst snd] in H.
    by destruct (add_gifts_to_collection cfg now name incoming dm d) as [[? ?] ?].
  - pose proof (save_collection_consistent now name (dm, d) Hs) as H.
    cbn [fst snd] in H.
    by destruct (save_collection cfg now name dm d) as [[? ?] ?].
  - by apply (save_all_collections_consistent now (dm, d)).
  - by destruct Hs.
  - by destruct Hs.
  - destruct Hs as [_ Hfiles]. by apply fix_collection_consistent.
  - destruct Hs as [_ Hfiles]. split; [|done]. cbn. intros name c.
    by rewrite lookup_empty.
  - destruct Hs as [Hcache Hfiles]. split.
    { cbn. intros n c. by rewrite lookup_empty. }
    cbn [snd]. destruct (collections_cache dm !! name) as [c|] eqn:Hc; [|done].
    apply crash_state_settled; [done|].
    intros dst j' Hin. apply save_ops_writes in Hin as ->.
    apply to_json_settled. by apply (Hcache name).
Qed.

Lemma store_run_consistent events s :
  store_consistent s -> store_consistent (store_run cfg events s).
Proof.
  revert s. induction events as [|e events IH]; intros s Hs; [done|].
  cbn. by apply IH, store_step_consistent.
Qed.

(** C10: a save that succeeds leaves, in memory and in the file, a
    collection whose [processed_gifts] is the number of its records,
    whatever their statuses and whatever the counter was before, as the
    count of the active records that the upsert leaves; in the file
    [total_gifts] is that number too, and so it is in every complete
    collection file on the disk.  The store is taken from a state in which
    [total_gifts] is in step with the records, as in a new manager on a disk
    without collection files, through any sequence of loads, upserts, saves,
    writes into the dictionaries, runs of the command [fix_collection],
    restarts and kills. *)
Theorem save_collection_counters events dm0 d0 now name dm' d' :
  (forall n c, collections_cache dm0 !! n = Some c -> counted c) ->
  (forall p j, files d0 !! p = Some (Complete j) -> settled j) ->
  let s := store_run cfg events (dm0, d0) in
  save_collection cfg now name s.1 s.2 = (true, dm', d') ->
  (exists c c' j,
     collections_cache s.1 !! name = Some c
     /\ collections_cache dm' !! name = Some c'
     /\ files d' !! collection_file name = Some (Complete j)
     /\ gifts c' = gifts c
     /\ gifts j = deref (heap s.1) <$> gifts c
     /\ processed_gifts c' = Z.of_nat (length (gifts c'))
     /\ processed_gifts j = Z.of_nat (length (gifts j))
     /\ total_gifts j = Z.of_nat (length (gifts j))
     /\ processed_gifts j = total_gifts j)
  /\ (forall p j, files d' !! p = Some (Complete j) ->
        processed_gifts j = Z.of_nat (length (gifts j))
        /\ processed_gifts j = total_gifts j).
Proof.
  intros H1 H2 s Hsave.
  assert (store_consistent s) as Hs by (by apply store_run_consistent).
  pose proof (save_collection_consistent now name s Hs) as Hs'.
  rewrite Hsave in Hs'. cbn [fst snd] in Hs'.
  split.
  - destruct (collections_cache s.1 !! name) as [c|] eqn:Hc.
    2:{ by rewrite (save_collection_unknown cfg now name _ _ Hc) in Hsave. }
    exists c, (stamp_for_save now c),
      (to_json (heap s.1) (stamp_for_save now c)).
    rewrite (save_collection_unfold cfg now name _ _ c Hc) in Hsave.
    injection Hsave as Hok Hdm Hd. subst d'.
    destruct (save_ops_success cfg name _ _ Hok) as [Hfile _].
    split; [done|]. split.
    { rewrite Hok in Hdm. subst dm'. cbn. apply lookup_insert_eq. }
    split; [done|]. split; [done|]. split; [done|]. split; [done|].
    destruct (to_json_settled now (heap s.1) c) as [Ht Hp].
    { destruct Hs as [Hcache _]. by apply (Hcache name). }
    unfold counted in Ht. split; [done|]. split; [done|]. by rewrite Hp, Ht.
  - intros p j Hp. destruct Hs' as [_ Hfiles].
    destruct (Hfiles p j Hp) as [Ht Hpr]. unfold counted in Ht.
    split; [done|]. by rewrite Hpr, Ht.
Qed.

End SavedCounters.


(** ** One download *)

Section Download.
Variable cfg : ParserConfig.
Variable env : Environment.
Import AsyncDownloader.

(** An attempt ends by an exception exactly for the answers that escalate;
    it is one request, and it sleeps nothing. *)
Lemma attempt_raised url r dl e :
  (attempt cfg env url r dl).1 = Raised e <-> escalates cfg r = Some e.
Proof.
  unfold attempt, escalates, handle.
  destruct r as [s text|[]]; cbn;
    repeat (case_match; cbn); naive_solver.
Qed.

Lemma attempt_returned url r dl :
  escalates cfg r = None ->
  exists res, (attempt cfg env url r dl).1 = Returned res /\ url_of res = url.
Proof.
  unfold attempt, escalates, handle.
  destruct r as [s text|[]]; cbn;
    repeat (case_match; cbn); intros; simplify_eq; eauto.
Qed.

Lemma attempt_counts url r dl :
  total_requests (stats (attempt cfg env url r dl).2)
    = total_requests (stats dl) + 1
  /\ retries (stats (attempt cfg env url r dl).2) = retries (stats dl)
  /\ slept (attempt cfg env url r dl).2 = slept dl.
Proof.
  unfold attempt, handle.
  destruct r as [s text|[]]; cbn; repeat (case_match; cbn); done.
Qed.

Lemma attempt_failed_urls url r dl :
  failed_urls (attempt cfg env url r dl).2
  = if is_404 r then {[url]} ∪ failed_urls dl else failed_urls dl.
Proof.
  unfold attempt, handle, is_404.
  destruct r as [s text|e]; cbn.
  - destruct (s =? 200) eqn:E200; cbn.
    + apply Z.eqb_eq in E200 as ->. done.
    + destruct (s =? 404) eqn:E404; cbn; [|done].
      by destruct (SKIP_404_ERRORS cfg).
  - destruct e; cbn; repeat (case_match; cbn); done.
Qed.

End Download.

Section Retry.
Variable cfg : ParserConfig.
Variable env : Environment.
Import AsyncDownloader.

Lemma wait_exponential_bounds n : 1 <= wait_exponential n <= 10.
Proof. unfold wait_exponential. lia. Qed.

Lemma retry_from_unfold remaining n url dl :
  retry_from cfg env remaining n url dl =
  match escalates cfg (net env url n), remaining with
  | Some e, S remaining' =>
      retry_from cfg env remaining' (S n) url
        (sleep (wait_exponential n) (attempt cfg env url (net env url n) dl).2)
  | _, _ => attempt cfg env url (net env url n) dl
  end.
Proof.
  destruct remaining; cbn [retry_from];
    destruct (attempt cfg env url (net env url n) dl) as [[r|e] dl'] eqn:E;
    destruct (escalates cfg (net env url n)) as [e'|] eqn:Ee; try done.
  all: first
    [ apply (proj2 (attempt_raised cfg env url _ dl e')) in Ee;
      rewrite E in Ee; discriminate Ee
    | destruct (attempt_returned cfg env url _ dl Ee) as (? & Hr & _);
      rewrite E in Hr; discriminate Hr ].
Qed.

(** What any call of the retry wrapper does to the downloader. *)
Lemma retry_from_effects remaining n url dl :
  let dl' := (retry_from cfg env remaining n url dl).2 in
  total_requests (stats dl) + 1 <= total_requests (stats dl')
    <= total_requests (stats dl) + 1 + Z.of_nat remaining
  /\ retries (stats dl') = retries (stats dl)
  /\ failed_urls dl ⊆ failed_urls dl'
  /\ failed_urls dl' ⊆ {[url]} ∪ failed_urls dl
  /\ (exists ws, slept dl' = slept dl ++ ws
                 /\ (length ws <= remaining)%nat
                 /\ Forall (fun w => 1 <= w <= 10) ws)
  /\ (forall r, (retry_from cfg env remaining n url dl).1 = Returned r ->
        url_of r = url).
Proof.
  revert n dl. induction remaining as [|rem IH]; intros n dl;
    rewrite retry_from_unfold; cbn zeta.
  - assert (match escalates cfg (net env url n) with
            | Some _ | _ => attempt cfg env url (net env url n) dl end
            = attempt cfg env url (net env url n) dl) as -> by (by case_match).
    destruct (attempt_counts cfg env url (net env url n) dl) as (Ht & Hr & Hs).
    rewrite Ht, Hr, Hs, attempt_failed_urls.
    split; [lia|]. split; [done|].
    split; [case_match; set_solver|]. split; [case_match; set_solver|].
    split; [exists []; rewrite app_nil_r; split; [done|split; [cbn; lia|constructor]]|].
    intros r Hret.
    destruct (escalates cfg (net env url n)) as [e|] eqn:Ee.
    + apply (proj2 (attempt_raised cfg env url _ dl e)) in Ee. congruence.
    + destruct (attempt_returned cfg env url _ dl Ee) as (r' & Hr' & Hu).
      congruence.
  - destruct (attempt_counts cfg env url (net env url n) dl) as (Ht & Hr & Hs).
    pose proof (attempt_failed_urls cfg env url (net env url n) dl) as Hf.
    destruct (escalates cfg (net env url n)) as [e|] eqn:Ee.
    + specialize (IH (S n)
        (sleep (wait_exponential n) (attempt cfg env url (net env url n) dl).2)).
      cbn zeta in IH. destruct IH as (It & Ir & If1 & If2 & (ws & Iw & Il & Ia) & Iu).
      cbn [sleep stats failed_urls slept] in *.
      rewrite Ht in It. rewrite Hr in Ir. rewrite Hf in If1, If2. rewrite Hs in Iw.
      split; [lia|]. split; [done|].
      split; [case_match; set_solver|]. split; [case_match; set_solver|].
      split; [|done].
      exists (wait_exponential n :: ws). rewrite Iw, <- app_assoc. cbn.
      split; [done|]. split; [lia|].
      constructor; [apply wait_exponential_bounds|done].
    + rewrite Ht, Hr, Hs, Hf.
      split; [lia|]. split; [done|].
      split; [case_match; set_solver|]. split; [case_match; set_solver|].
      split; [exists []; rewrite app_nil_r; split; [done|split; [cbn; lia|constructor]]|].
      intros r Hret.
      destruct (attempt_returned cfg env url _ dl Ee) as (r' & Hr' & Hu).
      congruence.
Qed.

End Retry.

Section DownloadSingle.
Variable cfg : ParserConfig.
Variable env : Environment.
Import AsyncDownloader.

Lemma download_single_bounded_holds url dl :
  let dl' := (_download_single cfg env url dl).2 in
  total_requests (stats dl) + 1 <= total_requests (stats dl')
    <= total_requests (stats dl) + 3
  /\ retries (stats dl') = retries (stats dl)
  /\ failed_urls dl ⊆ failed_urls dl'
  /\ failed_urls dl' ⊆ {[url]} ∪ failed_urls dl
  /\ (exists ws, slept dl' = slept dl ++ ws
                 /\ (length ws <= 2)%nat
                 /\ Forall (fun w => 1 <= w <= 10) ws)
  /\ (forall r, (_download_single cfg env url dl).1 = Returned r ->
        url_of r = url).
Proof.
  pose proof (retry_from_effects cfg env 2 1 url dl) as H. cbn zeta in *.
  unfold _download_single. cbn [stop_after_attempt Nat.sub].
  destruct H as (H1 & H2 & H3 & H4 & H5 & H6).
  split; [lia|done].
Qed.

(** X1: One call of [_download_single] makes at least one and at most three
    requests, waits at most twice, each time between 1 and 10 seconds, never
    counts a retry, adds at most its own URL to [failed_urls], and a result
    it returns is about the URL it was called with. *)
Theorem download_single_bounded url dl :
  let dl' := (_download_single cfg env url dl).2 in
  total_requests (stats dl) + 1 <= total_requests (stats dl')
    <= total_requests (stats dl) + 3
  /\ retries (stats dl') = retries (stats dl)
  /\ failed_urls dl ⊆ failed_urls dl'
  /\ failed_urls dl' ⊆ {[url]} ∪ failed_urls dl
  /\ (exists ws, slept dl' = slept dl ++ ws
                 /\ (length ws <= 2)%nat
                 /\ Forall (fun w => 1 <= w <= 10) ws)
  /\ (forall r, (_download_single cfg env url dl).1 = Returned r ->
        url_of r = url).
Proof. exact (download_single_bounded_holds url dl). Qed.

(** X2: A response whose status is neither 200 nor 404 is not tried again: the
    first such answer is reported at once as a client error, after one
    request and no wait, whatever later attempts would have answered. *)
Theorem http_error_not_retried url dl http_status text :
  net env url 1 = Response http_status text ->
  http_status ≠ 200 ->
  http_status ≠ 404 ->
  _download_single cfg env url dl =
    (Returned (url, None,
               Some ("Client error: " +:+
                     str_exn env (ClientResponseError url http_status
                                    ("HTTP " +:+ pretty http_status)))),
     map_stats incr_failed (map_stats incr_other (map_stats incr_total dl))).
Proof.
  intros Hnet H200 H404. unfold _download_single.
  rewrite retry_from_unfold, Hnet. cbn [escalates].
  unfold attempt.
  destruct (Z.eqb_spec http_status 200); [done|].
  destruct (Z.eqb_spec http_status 404); [done|]. done.
Qed.

(** X3: A transport error ([ClientError]) is not tried again either. *)
Theorem client_error_not_retried url dl msg :
  net env url 1 = Raises (ClientError msg) ->
  _download_single cfg env url dl =
    (Returned (url, None,
               Some ("Client error: " +:+ str_exn env (ClientError msg))),
     map_stats incr_failed (map_stats incr_total dl)).
Proof.
  intros Hnet. unfold _download_single.
  by rewrite retry_from_unfold, Hnet.
Qed.

(** X4: Three answers in a row that escalate (time-outs, unless
    [SKIP_TIMEOUT_ERRORS], or exceptions that are no [ClientError]) use up the
    attempts: three requests are made, with waits of 1 and 2 seconds between
    them, and the last exception is raised again. *)
Theorem retries_exhausted url dl e1 e2 e3 :
  escalates cfg (net env url 1) = Some e1 ->
  escalates cfg (net env url 2) = Some e2 ->
  escalates cfg (net env url 3) = Some e3 ->
  let dl' := (_download_single cfg env url dl).2 in
  (_download_single cfg env url dl).1 = Raised e3
  /\ total_requests (stats dl') = total_requests (stats dl) + 3
  /\ slept dl' = slept dl ++ [1; 2].
Proof.
  intros H1 H2 H3. cbn zeta. unfold _download_single.
  cbn [stop_after_attempt Nat.sub].
  rewrite retry_from_unfold, H1, retry_from_unfold, H2, retry_from_unfold, H3.
  split; [by apply attempt_raised|].
  set (d1 := (attempt cfg env url (net env url 1) dl).2).
  set (d2 := (attempt cfg env url (net env url 2)
                (sleep (wait_exponential 1) d1)).2).
  destruct (attempt_counts cfg env url (net env url 1) dl) as (Ht1 & _ & Hs1).
  destruct (attempt_counts cfg env url (net env url 2)
              (sleep (wait_exponential 1) d1)) as (Ht2 & _ & Hs2).
  destruct (attempt_counts cfg env url (net env url 3)
              (sleep (wait_exponential 2) d2)) as (Ht3 & _ & Hs3).
  fold d1 in Ht1, Hs1. fold d2 in Ht2, Hs2.
  cbn [sleep stats slept] in *.
  rewrite Ht3, Ht2, Ht1, Hs3, Hs2, Hs1. split; [lia|].
  by rewrite <- !app_assoc.
Qed.

(** X5: A first answer that escalates followed by one that does not: the second
    attempt decides, after two requests and one wait of a second. *)
Theorem retry_recovers url dl e1 :
  escalates cfg (net env url 1) = Some e1 ->
  escalates cfg (net env url 2) = None ->
  _download_single cfg env url dl =
    attempt cfg env url (net env url 2)
      (sleep 1 (attempt cfg env url (net env url 1) dl).2)
  /\ total_requests (stats (_download_single cfg env url dl).2)
     = total_requests (stats dl) + 2
  /\ slept (_download_single cfg env url dl).2 = slept dl ++ [1].
Proof.
  intros H1 H2. unfold _download_single. cbn [stop_after_attempt Nat.sub].
  rewrite retry_from_unfold, H1, retry_from_unfold, H2.
  change (wait_exponential 1) with 1.
  split; [done|].
  destruct (attempt_counts cfg env url (net env url 1) dl) as (Ht & _ & Hs).
  destruct (attempt_counts cfg env url (net env url 2)
              (sleep 1 (attempt cfg env url (net env url 1) dl).2))
    as (Ht' & _ & Hs').
  cbn [sleep stats slept] in *. rewrite Ht', Ht, Hs', Hs. split; [lia|done].
Qed.

End DownloadSingle.

(** ** Batches *)

Section Batches.
Variable cfg : ParserConfig.
Variable env : Environment.
Import AsyncDownloader.






(** X7: URLs already known as failed are skipped without a request. *)
Theorem download_batch_skips_failed urls dl :
  (forall url, url ∈ urls -> url ∈ failed_urls dl) ->
  download_batch cfg env urls dl = ([], dl).
Proof.
  intros Hall. unfold download_batch.
  replace (List.filter _ urls) with (@nil string); [done|].
  symmetry. induction urls as [|u urls IH]; [done|]. cbn.
  rewrite bool_decide_eq_false_2 by (intros Hn; apply Hn, Hall; by left).
  apply IH. intros url Hin. apply Hall. by right.
Qed.

End Batches.

Section Batching.
Variable cfg : ParserConfig.
Variable env : Environment.
Import AsyncDownloader.







Lemma download_with_batching_bad_size_holds urls batch_size dl :
  batch_size <= 0 ->
  download_with_batching cfg env urls batch_size dl
  = (if batch_size =? 0
     then inl (ValueError "range() arg 3 must not be zero")
     else inr [],
     dl).
Proof.
  intros Hb. unfold download_with_batching, py_range.
  destruct (Z.eqb_spec batch_size 0); [done|].
  destruct (Z.ltb_spec 0 batch_size); [lia|].
  assert ((0 - Z.of_nat (length urls) - batch_size - 1) / - batch_size < 1)
    by (apply Z.div_lt_upper_bound; lia).
  replace (Z.to_nat _) with 0%nat by lia. done.
Qed.

(** X9: A zero batch size makes [download_with_batching] raise before any
    request; a negative one makes it return no result at all, without any
    request either. *)
Theorem download_with_batching_bad_size urls batch_size dl :
  batch_size <= 0 ->
  download_with_batching cfg env urls batch_size dl
  = (if batch_size =? 0
     then inl (ValueError "range() arg 3 must not be zero")
     else inr [],
     dl).
Proof. exact (download_with_batching_bad_size_holds urls batch_size dl). Qed.

End Batching.
(** ** What is retried *)

Section RetryPolicy.
Import AsyncDownloader.
Variable cfg : ParserConfig.
Variable env : Environment.

Lemma retry_policy_holds url dl :
  let k := retries_made cfg env url in
  let res := _download_single cfg env url dl in
  total_requests (stats res.2) = total_requests (stats dl) + 1 + Z.of_nat k
  /\ slept res.2 = slept dl ++ (wait_exponential <$> seq 1 k)
  /\ (forall e, res.1 = Raised e <->
        k = 2%nat /\ escalates cfg (net env url 3) = Some e).
Proof.
  cbn zeta. unfold retries_made, _download_single.
  change (stop_after_attempt - 1)%nat with 2%nat.
  rewrite retry_from_unfold.
  destruct (escalates cfg (net env url 1)) as [e1|] eqn:H1.
  - rewrite retry_from_unfold.
    destruct (escalates cfg (net env url 2)) as [e2|] eqn:H2.
    + rewrite retry_from_unfold.
      set (dl1 := sleep _ (attempt cfg env url (net env url 1) dl).2).
      set (dl2 := sleep _ (attempt cfg env url (net env url 2) dl1).2).
      assert (Heq : match escalates cfg (net env url 3), 0%nat with
                    | Some _, S remaining' =>
                        retry_from cfg env remaining' 4 url
                          (sleep (wait_exponential 3)
                             (attempt cfg env url (net env url 3) dl2).2)
                    | _, _ => attempt cfg env url (net env url 3) dl2
                    end = attempt cfg env url (net env url 3) dl2)
        by (by destruct (escalates cfg (net env url 3))).
      rewrite Heq. clear Heq.
      destruct (attempt_counts cfg env url (net env url 3) dl2) as (Ht3 & _ & Hs3).
      destruct (attempt_counts cfg env url (net env url 2) dl1) as (Ht2 & _ & Hs2).
      destruct (attempt_counts cfg env url (net env url 1) dl) as (Ht1 & _ & Hs1).
      split; [|split].
      * rewrite Ht3. subst dl2. cbn [sleep stats]. rewrite Ht2. subst dl1.
        cbn [sleep stats]. rewrite Ht1. lia.
      * rewrite Hs3. subst dl2. cbn [sleep slept]. rewrite Hs2. subst dl1.
        cbn [sleep slept]. rewrite Hs1. by rewrite <- !app_assoc.
      * intros e. rewrite attempt_raised. naive_solver.
    + destruct (attempt_counts cfg env url (net env url 2)
                  (sleep (wait_exponential 1)
                     (attempt cfg env url (net env url 1) dl).2))
        as (Ht2 & _ & Hs2).
      destruct (attempt_counts cfg env url (net env url 1) dl) as (Ht1 & _ & Hs1).
      split; [|split].
      * rewrite Ht2. cbn [sleep stats]. rewrite Ht1. lia.
      * rewrite Hs2. cbn [sleep slept]. by rewrite Hs1.
      * intros e. rewrite attempt_raised, H2. naive_solver.
  - destruct (attempt_counts cfg env url (net env url 1) dl) as (Ht1 & _ & Hs1).
    split; [|split].
    + rewrite Ht1. lia.
    + rewrite Hs1. cbn. by rewrite app_nil_r.
    + intros e. rewrite attempt_raised, H1. naive_solver.
Qed.

Lemma download_batch_single url dl :
  url ∉ failed_urls dl ->
  download_batch cfg env [url] dl
  = ([reported env url (_download_single cfg env url dl).1],
     (_download_single cfg env url dl).2).
Proof.
  intros Hfresh. unfold download_batch. cbn [List.filter].
  rewrite bool_decide_eq_true_2 by done. cbn [foldl].
  unfold await_task. cbn [fst snd].
  by destruct (_download_single cfg env url dl) as [[r|e] dl'].
Qed.

(** C2: what is retried, and what becomes of a failure.  An attempt is
    made again exactly when it ends in an exception that leaves
    [_download_single]: a time-out with [SKIP_TIMEOUT_ERRORS] off, or an
    exception that is not a [ClientError]; never an HTTP status, never a
    [ClientError].  There are at most three attempts, with waits of one and
    then two seconds between them; an exception leaves the call exactly when
    three attempts in a row end so, and [download_batch] then reports it as
    the result [(url, None, str(e))].  A status that is neither 200 nor 404,
    and a [ClientError], are reported as a [Client error] result after the
    one attempt. *)
Theorem retry_policy url dl :
  let k := retries_made cfg env url in
  let res := _download_single cfg env url dl in
  (forall r d0 e,
     (attempt cfg env url r d0).1 = Raised e <-> escalates cfg r = Some e)
  /\ (forall r, is_Some (escalates cfg r) <->
        (r = Raises TimeoutError /\ SKIP_TIMEOUT_ERRORS cfg = false)
        \/ (exists msg, r = Raises (ValueError msg))
        \/ r = Raises ZeroDivisionError
        \/ (exists msg, r = Raises (OtherError msg)))
  /\ (k <= 2)%nat
  /\ total_requests (stats res.2) = total_requests (stats dl) + 1 + Z.of_nat k
  /\ slept res.2 = slept dl ++ take k [1; 2]
  /\ (forall e, res.1 = Raised e <->
        k = 2%nat /\ escalates cfg (net env url 3) = Some e)
  /\ (url ∉ failed_urls dl ->
      download_batch cfg env [url] dl = ([reported env url res.1], res.2))
  /\ (forall http_status text,
        net env url 1 = Response http_status text ->
        http_status ≠ 200 -> http_status ≠ 404 ->
        k = 0%nat
        /\ res.1 = Returned
             (url, None,
              Some ("Client error: " +:+
                    str_exn env (ClientResponseError url http_status
                                   ("HTTP " +:+ pretty http_status)))))
  /\ (forall msg,
        net env url 1 = Raises (ClientError msg) ->
        k = 0%nat
        /\ res.1 = Returned
             (url, None,
              Some ("Client error: " +:+ str_exn env (ClientError msg)))).
Proof.
  cbn zeta. destruct (retry_policy_holds url dl) as (Ht & Hs & Hr).
  split; [intros r d0 e; apply attempt_raised|].
  split.
  { intros r. unfold escalates.
    destruct r as [st text|[]]; try destruct (SKIP_TIMEOUT_ERRORS cfg);
      split; intros H; try (by inversion H);
      try (destruct H as [[? ?]|[[? ?]|[?|[? ?]]]]; discriminate);
      try (by eexists); eauto 10. }
  split.
  { unfold retries_made. repeat case_match; lia. }
  split; [done|]. split.
  { rewrite Hs. f_equal. unfold retries_made. by repeat case_match. }
  split; [done|]. split; [apply download_batch_single|].
  split.
  - intros st text Hnet H200 H404. unfold retries_made. rewrite Hnet.
    cbn [escalates]. split; [done|].
    unfold _download_single. change (stop_after_attempt - 1)%nat with 2%nat.
    rewrite retry_from_unfold, Hnet. cbn [escalates].
    unfold attempt. rewrite (proj2 (Z.eqb_neq _ _) H200).
    rewrite (proj2 (Z.eqb_neq _ _) H404). reflexivity.
  - intros msg Hnet. unfold retries_made. rewrite Hnet.
    cbn [escalates]. split; [done|].
    unfold _download_single. change (stop_after_attempt - 1)%nat with 2%nat.
    rewrite retry_from_unfold, Hnet. reflexivity.
Qed.

End RetryPolicy.

(** ** The tasks on the event loop *)

Section TasksOnTheLoop.
Import Tasks.
Variable cfg : ParserConfig.
Variable env : Environment.

Lemma attempt_respond url r dl :
  AsyncDownloader.attempt cfg env url r dl
  = respond cfg env url r (AsyncDownloader.map_stats AsyncDownloader.incr_total dl).
Proof. reflexivity. Qed.

Lemma run_body url n k dl :
  run cfg env (body url n k) dl
  = let '(o, dl') := AsyncDownloader.attempt cfg env url (net env url n) dl in
    run cfg env (k o) dl'.
Proof. cbn [body run]. rewrite attempt_respond. reflexivity. Qed.

Lemma run_retry_task remaining : forall n url dl,
  run cfg env (retry_task remaining n url) dl
  = AsyncDownloader.retry_from cfg env remaining n url dl.
Proof.
  induction remaining as [|remaining IH]; intros n url dl.
  - cbn [retry_task AsyncDownloader.retry_from]. rewrite run_body.
    destruct (AsyncDownloader.attempt cfg env url (net env url n) dl)
      as [[r|e] dl']; reflexivity.
  - cbn [retry_task AsyncDownloader.retry_from]. rewrite run_body.
    destruct (AsyncDownloader.attempt cfg env url (net env url n) dl)
      as [[r|e] dl']; [reflexivity|].
    cbn [run]. apply IH.
Qed.

(** Run on its own, the task is the call [_download_single] of the
    downloader. *)
Lemma task_is_download_single url dl :
  run cfg env (_download_single url) dl
  = AsyncDownloader._download_single cfg env url dl.
Proof. apply run_retry_task. Qed.

Lemma guarded_nonneg c : forall h, guarded h c -> 0 <= h.
Proof. destruct c; cbn [guarded]; intros h Hg; lia. Qed.

Lemma guarded_in_flight t0 :
  guarded (holding t0) (code t0) -> in_flight t0 = true -> 1 <= holding t0.
Proof.
  unfold in_flight. destruct (code t0); cbn [guarded]; intros Hg Hf;
    try discriminate; lia.
Qed.

Lemma guarded_body h url n k :
  0 <= h -> (forall o, guarded h (k o)) -> guarded h (body url n k).
Proof.
  intros Hh Hk. unfold body. cbn [guarded].
  split; [lia|]. split; [lia|]. split; [lia|]. split; [lia|].
  split; [lia|]. intros r. split; [lia|]. intros o. split; [lia|].
  split; [lia|]. replace (h + 1 - 1) with h by lia. apply Hk.
Qed.

Lemma guarded_retry_task remaining : forall n url,
  guarded 0 (retry_task remaining n url).
Proof.
  induction remaining as [|remaining IH]; intros n url;
    cbn [retry_task]; (apply guarded_body; [lia|]); intros [r|e];
    cbn [guarded]; [done|done|done|].
  split; [lia|]. apply IH.
Qed.

Lemma held_app ts1 ts2 : held (ts1 ++ ts2) = held ts1 + held ts2.
Proof.
  unfold held. induction ts1 as [|t0 ts1 IH]; cbn [app foldr]; lia.
Qed.

Lemma held_insert ts : forall i t0 t',
  ts !! i = Some t0 ->
  held (<[i := t']> ts) = held ts - holding t0 + holding t'.
Proof.
  unfold held.
  induction ts as [|t1 ts IH]; intros [|i] t0 t' Hi; try done.
  - injection Hi as ->. cbn. lia.
  - change (<[S i:=t']> (t1 :: ts)) with (t1 :: <[i:=t']> ts).
    cbn [foldr]. cbn in Hi. specialize (IH i t0 t' Hi). lia.
Qed.

Lemma in_flight_le_held ts :
  Forall (fun t0 => guarded (holding t0) (code t0)) ts ->
  Z.of_nat (length (List.filter in_flight ts)) <= held ts.
Proof.
  unfold held.
  induction 1 as [|t0 ts Hg _ IH]; cbn [List.filter foldr length]; [lia|].
  pose proof (guarded_nonneg _ _ Hg).
  destruct (in_flight t0) eqn:Hf.
  - pose proof (guarded_in_flight _ Hg Hf). cbn [length]. lia.
  - lia.
Qed.

(** A task that moves keeps the discipline, and what it takes from the
    counter of the semaphore it holds. *)
Lemma advance_guarded p dl t0 p' dl' t' :
  0 <= p ->
  guarded (holding t0) (code t0) ->
  advance cfg env p dl t0 = Some (p', dl', t') ->
  0 <= p' /\ guarded (holding t') (code t')
  /\ p' + holding t' = p + holding t0.
Proof.
  intros Hp Hg Ha. unfold advance in Ha.
  destruct (code t0) as [r0|e|k|k|k|k|k|k|url n k|url r k|secs k];
    cbn [guarded] in Hg; try discriminate.
  - destruct (0 <? p) eqn:Hlt; [|discriminate].
    apply Z.ltb_lt in Hlt. injection Ha as <- <- <-. cbn.
    split; [lia|]. split; [tauto|lia].
  - injection Ha as <- <- <-. cbn. split; [lia|]. split; [tauto|lia].
  - injection Ha as <- <- <-. cbn. split; [lia|]. split; [tauto|lia].
  - injection Ha as <- <- <-. cbn. split; [lia|]. split; [tauto|lia].
  - injection Ha as <- <- <-. cbn. split; [lia|]. split; [tauto|lia].
  - injection Ha as <- <- <-. cbn. split; [lia|]. split; [tauto|lia].
  - injection Ha as <- <- <-. cbn. split; [lia|].
    split; [apply Hg|lia].
  - destruct (respond cfg env url r dl) as [o dl1].
    injection Ha as <- <- <-. cbn. split; [lia|].
    split; [apply Hg|lia].
  - injection Ha as <- <- <-. cbn. split; [lia|]. split; [tauto|lia].
Qed.

(** What every state of the loop keeps: the counter of the semaphore is not
    negative, every task follows the discipline, and the permits taken are
    those the tasks hold. *)
Lemma step_keeps s s' :
  step cfg env s s' ->
  0 <= permits s ->
  Forall (fun t0 => guarded (holding t0) (code t0)) (tasks s) ->
  0 <= permits s'
  /\ Forall (fun t0 => guarded (holding t0) (code t0)) (tasks s')
  /\ permits s' + held (tasks s') = permits s + held (tasks s).
Proof.
  intros Hstep Hp Hall. destruct Hstep as [s url|s i t0 p' dl' t' Hi Ha]; cbn.
  - split; [done|]. split.
    + apply Forall_app. split; [done|]. apply Forall_singleton.
      exact (guarded_retry_task (AsyncDownloader.stop_after_attempt - 1) 1 url).
    + rewrite held_app. unfold held. cbn. lia.
  - assert (Hg : guarded (holding t0) (code t0)).
    { by apply (Forall_lookup_1 _ _ _ _ Hall Hi). }
    destruct (advance_guarded _ _ _ _ _ _ Hp Hg Ha) as (Hp' & Hg' & Heq).
    split; [done|]. split.
    + by apply Forall_insert.
    + rewrite (held_insert _ _ _ _ Hi). lia.
Qed.

Lemma loop_keeps dl s :
  0 <= MAX_CONCURRENT_REQUESTS cfg ->
  rtc (step cfg env) (start cfg dl) s ->
  0 <= permits s
  /\ Forall (fun t0 => guarded (holding t0) (code t0)) (tasks s)
  /\ permits s + held (tasks s) = MAX_CONCURRENT_REQUESTS cfg.
Proof.
  intros Hmax Hrun.
  assert (Hinit : 0 <= permits (start cfg dl)
    /\ Forall (fun t0 => guarded (holding t0) (code t0)) (tasks (start cfg dl))
    /\ permits (start cfg dl) + held (tasks (start cfg dl))
       = MAX_CONCURRENT_REQUESTS cfg).
  { cbn. split; [done|]. split; [constructor|]. unfold held. cbn. lia. }
  induction Hrun as [s|s1 s2 s3 Hstep Hrun IH]; [done|].
  apply IH. destruct Hinit as (Hp & Hall & Heq).
  destruct (step_keeps _ _ Hstep Hp Hall) as (Hp' & Hall' & Heq').
  split; [done|]. split; [done|]. lia.
Qed.

Lemma do_move_steps s m : rtc (step cfg env) s (do_move cfg env s m).
Proof.
  destruct m as [url|i]; cbn [do_move].
  - apply rtc_once. apply step_create.
  - destruct (tasks s !! i) as [t0|] eqn:Hi; [|apply rtc_refl].
    destruct (advance cfg env (permits s) (downloader s) t0)
      as [[[p' dl'] t']|] eqn:Ha; [|apply rtc_refl].
    apply rtc_once. by apply (step_advance cfg env s i t0).
Qed.

(** Every schedule is a run of the loop. *)
Lemma schedule_steps ms : forall s,
  rtc (step cfg env) s (schedule cfg env ms s).
Proof.
  induction ms as [|m ms IH]; intros s; [apply rtc_refl|].
  unfold schedule. cbn [foldl]. etrans; [apply do_move_steps|].
  apply IH.
Qed.

(** C9: however the tasks of [_download_single] are interleaved on the event
    loop, the requests under way are never more than
    [MAX_CONCURRENT_REQUESTS]: a task whose request is under way holds the
    semaphore, the permits held and the permits left add up to
    [MAX_CONCURRENT_REQUESTS], and the counter of the semaphore is never
    negative.  ([asyncio.Semaphore] refuses a negative initial value.) *)
Theorem in_flight_bounded dl s :
  0 <= MAX_CONCURRENT_REQUESTS cfg ->
  rtc (step cfg env) (start cfg dl) s ->
  requests_in_flight s <= MAX_CONCURRENT_REQUESTS cfg
  /\ (forall t0, t0 ∈ tasks s -> in_flight t0 = true -> 1 <= holding t0)
  /\ requests_in_flight s <= held (tasks s)
  /\ permits s + held (tasks s) = MAX_CONCURRENT_REQUESTS cfg
  /\ 0 <= permits s.
Proof.
  intros Hmax Hrun.
  destruct (loop_keeps _ _ Hmax Hrun) as (Hp & Hall & Heq).
  pose proof (in_flight_le_held _ Hall) as Hle.
  unfold requests_in_flight.
  split; [lia|]. split.
  - intros t0 Ht Hf. rewrite Forall_forall in Hall.
    by apply guarded_in_flight; [apply Hall|].
  - split; [done|]. split; [done|done].
Qed.

End TasksOnTheLoop.

(** ** The resume cache *)

Section Cache.
Import CacheManager.

Lemma cache_paths_distinct :
  CACHE_FILE ≠ status_cache_file
  /\ CACHE_FILE ≠ PROGRESS_CACHE
  /\ status_cache_file ≠ PROGRESS_CACHE.
Proof. unfold CACHE_FILE, status_cache_file, PROGRESS_CACHE. naive_solver. Qed.

Lemma save_cache_flushes_holds now force cm d :
  let res := save_cache now force cm d in
  (cache_dirty cm = false -> force = false -> res = (true, cm, d))
  /\ (res.1.1 = false -> res.1.2 = cm)
  /\ (CACHE_FILE ∉ faulty d -> status_cache_file ∉ faulty d ->
      PROGRESS_CACHE ∉ faulty d -> res.1.1 = true)
  /\ (res.1.1 = true -> (cache_dirty cm = true \/ force = true) ->
      cache_dirty res.1.2 = false
      /\ last_save_time res.1.2 = now
      /\ processed_urls res.1.2 = processed_urls cm
      /\ url_status_cache res.1.2 = url_status_cache cm
      /\ collection_progress res.1.2 = collection_progress cm
      /\ texts res.2 !! CACHE_FILE
         = Some (write_lines (sorted_urls (processed_urls cm)))
      /\ url_status_cache_json res.2 = Some (Complete (url_status_cache cm))
      /\ progress_json res.2 = Some (Complete (collection_progress cm))
      /\ (forall p, p ≠ CACHE_FILE -> texts res.2 !! p = texts d !! p)
      /\ files res.2 = files d
      /\ forall now', save_cache now' false res.1.2 res.2 = (true, res.1.2, res.2)).
Proof.
  cbn zeta. unfold save_cache.
  split; [by intros -> ->|].
  destruct (negb (cache_dirty cm) && negb force) eqn:E.
  { split; [done|]. split; [done|].
    intros _ [Hd| ->]; [rewrite Hd in E|]; by destruct (cache_dirty cm). }
  unfold _save_processed_urls, _save_url_status_cache,
    _save_collection_progress. cbn.
  repeat case_decide; cbn; (split; [done|]); (split; [done|]); try done.
  intros _ _. rewrite lookup_insert_eq.
  do 8 (split; [done|]). split; [|done].
  intros p ?. by rewrite lookup_insert_ne.
Qed.

(** X10: A save of the cache that has something to write succeeds on a disk
    that lets it write the three cache files; when it succeeds it leaves
    them with the complete current state and every other file as it was,
    clears the dirty flag and records the time; one that fails reports it
    and leaves the manager, with its dirty flag, as it was; one that has
    nothing to write (clean and not forced) changes nothing at all.  So a
    second unforced save right after a successful one is without effect. *)
Theorem save_cache_flushes now force cm d :
  let res := save_cache now force cm d in
  (cache_dirty cm = false -> force = false -> res = (true, cm, d))
  /\ (res.1.1 = false -> res.1.2 = cm)
  /\ (CACHE_FILE ∉ faulty d -> status_cache_file ∉ faulty d ->
      PROGRESS_CACHE ∉ faulty d -> res.1.1 = true)
  /\ (res.1.1 = true -> (cache_dirty cm = true \/ force = true) ->
      cache_dirty res.1.2 = false
      /\ last_save_time res.1.2 = now
      /\ processed_urls res.1.2 = processed_urls cm
      /\ url_status_cache res.1.2 = url_status_cache cm
      /\ collection_progress res.1.2 = collection_progress cm
      /\ texts res.2 !! CACHE_FILE
         = Some (write_lines (sorted_urls (processed_urls cm)))
      /\ url_status_cache_json res.2 = Some (Complete (url_status_cache cm))
      /\ progress_json res.2 = Some (Complete (collection_progress cm))
      /\ (forall p, p ≠ CACHE_FILE -> texts res.2 !! p = texts d !! p)
      /\ files res.2 = files d
      /\ forall now', save_cache now' false res.1.2 res.2 = (true, res.1.2, res.2)).
Proof. exact (save_cache_flushes_holds now force cm d). Qed.

Lemma mark_url_processed_last_wins_holds now url st md cm :
  let cm' := mark_url_processed now url st md cm in
  is_url_processed cm' url = true
  /\ get_url_status cm' url
     = Some {| status := st; processed_at := iso now;
               metadata := default ∅ md |}
  /\ cache_dirty cm' = true
  /\ (forall u, u ≠ url ->
        is_url_processed cm' u = is_url_processed cm u
        /\ get_url_status cm' u = get_url_status cm u)
  /\ collection_progress cm' = collection_progress cm
  /\ last_save_time cm' = last_save_time cm
  /\ (forall now0 st0 md0,
        mark_url_processed now url st md
          (mark_url_processed now0 url st0 md0 cm) = cm').
Proof.
  cbn zeta. unfold is_url_processed, get_url_status, mark_url_processed. cbn.
  split; [apply bool_decide_eq_true_2; set_solver|].
  split; [apply lookup_insert_eq|]. split; [done|].
  split.
  { intros u Hu. split; [|by rewrite lookup_insert_ne].
    apply bool_decide_ext. set_solver. }
  split; [done|]. split; [done|].
  intros now0 st0 md0. f_equal; [set_solver|apply insert_insert_eq].
Qed.

(** X11: [mark_url_processed] makes the URL processed with exactly the given
    status, the time of the call and the metadata (none is the empty
    dictionary), sets the dirty flag, and leaves every other URL, the
    progress map and the time of the last save alone.  The last mark of a
    URL wins: an earlier one leaves no trace. *)
Theorem mark_url_processed_last_wins now url st md cm :
  let cm' := mark_url_processed now url st md cm in
  is_url_processed cm' url = true
  /\ get_url_status cm' url
     = Some {| status := st; processed_at := iso now;
               metadata := default ∅ md |}
  /\ cache_dirty cm' = true
  /\ (forall u, u ≠ url ->
        is_url_processed cm' u = is_url_processed cm u
        /\ get_url_status cm' u = get_url_status cm u)
  /\ collection_progress cm' = collection_progress cm
  /\ last_save_time cm' = last_save_time cm
  /\ (forall now0 st0 md0,
        mark_url_processed now url st md
          (mark_url_processed now0 url st0 md0 cm) = cm').
Proof. exact (mark_url_processed_last_wins_holds now url st md cm). Qed.

Lemma filter_unprocessed_urls_exact_holds cm urls :
  (forall u, u ∈ filter_unprocessed_urls cm urls
             <-> u ∈ urls /\ u ∉ processed_urls cm)
  /\ filter_unprocessed_urls cm urls `sublist_of` urls
  /\ (filter_unprocessed_urls cm urls = [] <->
      forall u, u ∈ urls -> u ∈ processed_urls cm)
  /\ (forall now url st md,
        filter_unprocessed_urls (mark_url_processed now url st md cm) urls
        = List.filter (fun u => bool_decide (u ≠ url))
            (filter_unprocessed_urls cm urls)).
Proof.
  unfold filter_unprocessed_urls, is_url_processed.
  split; [|split; [|split]].
  - intros u. rewrite !list_elem_of_In, filter_In, negb_true_iff,
      bool_decide_eq_false. done.
  - induction urls as [|u urls IH]; cbn; [done|].
    destruct (negb _); by constructor.
  - induction urls as [|u urls IH]; cbn.
    + split; [|done]. intros _ u Hu. by apply elem_of_nil in Hu.
    + destruct (bool_decide_reflect (u ∈ processed_urls cm)) as [Hin|Hout]; cbn.
      * rewrite IH. split.
        -- intros H v Hv. apply elem_of_cons in Hv as [->|Hv]; auto.
        -- intros H v Hv. apply H. by right.
      * split; [done|]. intros H. exfalso. apply Hout, H. by left.
  - intros now url st md. cbn.
    induction urls as [|u urls IH]; cbn; [done|].
    destruct (bool_decide_reflect (u ∈ processed_urls cm)) as [Hin|Hout]; cbn.
    + rewrite bool_decide_eq_true_2 by set_solver. cbn. apply IH.
    + destruct (decide (u = url)) as [->|Hne].
      * rewrite bool_decide_eq_true_2 by set_solver. cbn.
        rewrite bool_decide_eq_false_2 by naive_solver. apply IH.
      * rewrite bool_decide_eq_false_2 by set_solver. cbn.
        rewrite bool_decide_eq_true_2 by done. by rewrite IH.
Qed.

(** X12: [filter_unprocessed_urls] keeps, in their order and with their
    repetitions, exactly the URLs that are not in the processed set; once a
    URL is marked it is filtered out, and the other URLs are kept or dropped
    as before. *)
Theorem filter_unprocessed_urls_exact cm urls :
  (forall u, u ∈ filter_unprocessed_urls cm urls
             <-> u ∈ urls /\ u ∉ processed_urls cm)
  /\ filter_unprocessed_urls cm urls `sublist_of` urls
  /\ (filter_unprocessed_urls cm urls = [] <->
      forall u, u ∈ urls -> u ∈ processed_urls cm)
  /\ (forall now url st md,
        filter_unprocessed_urls (mark_url_processed now url st md cm) urls
        = List.filter (fun u => bool_decide (u ≠ url))
            (filter_unprocessed_urls cm urls)).
Proof. exact (filter_unprocessed_urls_exact_holds cm urls). Qed.


End Cache.

Section CacheFiles.
Import CacheManager.

Lemma string_leb_total :
  Total (fun a b : string => Is_true (String.leb a b)).
Proof.
  intros a b. destruct (String.leb_total a b) as [H|H]; rewrite H; cbn; auto.
Qed.

Lemma sorted_urls_sorted_holds (s : gset string) :
  Sorted (fun a b => Is_true (String.leb a b)) (sorted_urls s)
  /\ NoDup (sorted_urls s)
  /\ (forall u, u ∈ sorted_urls s <-> u ∈ s)
  /\ length (sorted_urls s) = size s.
Proof.
  unfold sorted_urls.
  pose proof (merge_sort_Permutation
                (fun a b => Is_true (String.leb a b)) (elements s)) as Hp.
  split; [apply (Sorted_merge_sort _ (Total0 := string_leb_total))|].
  split; [rewrite Hp; apply NoDup_elements|].
  split; [intros u; by rewrite Hp, elem_of_elements|].
  by rewrite Hp.
Qed.

(** X13: The list written to the URL file holds every processed URL, each once,
    in ascending order. *)
Theorem sorted_urls_sorted (s : gset string) :
  Sorted (fun a b => Is_true (String.leb a b)) (sorted_urls s)
  /\ NoDup (sorted_urls s)
  /\ (forall u, u ∈ sorted_urls s <-> u ∈ s)
  /\ length (sorted_urls s) = size s.
Proof. exact (sorted_urls_sorted_holds s). Qed.


(** A text that begins with a line and its line feed. *)
Lemma split_lines_line (u rest : string) :
  has_newline u = false ->
  split_lines (u +:+ LF +:+ rest) = u :: split_lines rest.
Proof.
  induction u as [|c u IH]; intros Hu.
  - done.
  - cbn in Hu. apply orb_false_iff in Hu as [Hc Hu].
    change (String c u +:+ LF +:+ rest) with (String c (u +:+ LF +:+ rest)).
    cbn [split_lines]. rewrite Hc, (IH Hu).
    unfold is_newline in Hc. apply orb_false_iff in Hc as [_ Hc].
    by rewrite Hc.
Qed.

Lemma split_lines_write_lines (us : list string) :
  Forall (fun u => has_newline u = false) us ->
  split_lines (write_lines us) = us.
Proof.
  induction 1 as [|u us Hu _ IH]; [done|].
  cbn [write_lines foldr]. fold (write_lines us).
  by rewrite (split_lines_line u _ Hu), IH.
Qed.

(** The URLs written are the URLs read back, when they are lines that the
    reader leaves as they are. *)
Lemma listed_urls_write_lines (us : list string) :
  Forall (fun u => strip u = u /\ u ≠ "" /\ has_newline u = false) us ->
  listed_urls (write_lines us) = us.
Proof.
  intros Hclean. unfold listed_urls.
  rewrite split_lines_write_lines
    by (eapply Forall_impl; [exact Hclean|]; by intros u (_ & _ & ?)).
  induction Hclean as [|u us (Hs & Hne & _) _ IH]; [done|].
  cbn. rewrite Hs. apply String.eqb_neq in Hne. rewrite Hne. cbn.
  by rewrite IH.
Qed.

(** X14: What a successful save of the cache wrote, a new manager loads back: the
    same processed set, status map and progress map, provided every
    processed URL is one line that the loader leaves as it is: no white
    space around it, not empty, no line break in it. *)
Theorem save_then_load_cache now now' force cm d :
  cache_dirty cm = true \/ force = true ->
  (save_cache now force cm d).1.1 = true ->
  (forall u, u ∈ processed_urls cm ->
     strip u = u /\ u ≠ "" /\ has_newline u = false) ->
  exists cm2,
    load_cache (init now') (save_cache now force cm d).2 = (true, cm2)
    /\ processed_urls cm2 = processed_urls cm
    /\ url_status_cache cm2 = url_status_cache cm
    /\ collection_progress cm2 = collection_progress cm
    /\ cache_dirty cm2 = false.
Proof.
  intros Hwrite Hok Hclean.
  destruct (save_cache_flushes_holds now force cm d) as (_ & _ & _ & H).
  destruct (H Hok Hwrite) as (_ & _ & _ & _ & _ & Hf1 & Hf2 & Hf3 & _).
  unfold load_cache, _load_processed_urls. rewrite Hf1.
  eexists. split; [reflexivity|].
  unfold _load_collection_progress, _load_url_status_cache.
  cbn [url_status_cache_json progress_json]. rewrite Hf2, Hf3. cbn.
  split; [|done].
  destruct (sorted_urls_sorted_holds (processed_urls cm)) as (_ & _ & Hin & _).
  rewrite listed_urls_write_lines.
  - apply set_eq. intros u. rewrite elem_of_union, elem_of_list_to_set, Hin.
    set_solver.
  - apply Forall_forall. intros u Hu. apply Hclean. by apply Hin.
Qed.


(** X16: Pruning removes exactly the URLs whose status record is older than the
    cut-off, from the status map and from the processed set alike; a
    processed URL without a status record is never pruned; and the dirty
    flag is raised only when something was removed. *)
Theorem cleanup_old_cache_entries_exact cutoff_str cm :
  let cm' := cleanup_old_cache_entries cutoff_str cm in
  (forall u r, url_status_cache cm' !! u = Some r <->
     url_status_cache cm !! u = Some r
     /\ String.ltb (processed_at r) cutoff_str = false)
  /\ (forall u, u ∈ processed_urls cm' <->
        u ∈ processed_urls cm
        /\ forall r, url_status_cache cm !! u = Some r ->
             String.ltb (processed_at r) cutoff_str = false)
  /\ ((forall u r, url_status_cache cm !! u = Some r ->
         String.ltb (processed_at r) cutoff_str = false) ->
      cm' = cm).
Proof.
  cbn zeta. unfold cleanup_old_cache_entries. cbn.
  split; [|split].
  - intros u r. rewrite map_lookup_filter_Some. cbn.
    destruct (String.ltb (processed_at r) cutoff_str); naive_solver.
  - intros u. rewrite elem_of_difference, elem_of_dom.
    split.
    + intros [Hin Hold]. split; [done|]. intros r Hr.
      destruct (String.ltb (processed_at r) cutoff_str) eqn:E; [|done].
      exfalso. apply Hold. exists r. apply map_lookup_filter_Some. cbn.
      by rewrite E.
    + intros [Hin Hnew]. split; [done|]. intros [r Hr].
      apply map_lookup_filter_Some in Hr as [Hr Hold]. cbn in Hold.
      by rewrite (Hnew r Hr) in Hold.
  - intros Hnew.
    assert (filter (fun kv : string * url_record =>
                      Is_true (String.ltb (processed_at kv.2) cutoff_str))
                   (url_status_cache cm) = ∅) as ->.
    { apply map_empty_filter_2. intros u r Hr. cbn.
      rewrite (Hnew u r Hr). by intros []. }
    rewrite dom_empty_L, difference_empty_L, map_size_empty.
    rewrite map_filter_id; [by destruct cm|].
    intros u r Hr. cbn. rewrite (Hnew u r Hr). by intros [].
Qed.

End CacheFiles.
(** ** Loading, saving, loading again *)

Section LoadSave.
Variable cfg : ParserConfig.
Import DataManager.

Lemma load_collection_cases_holds now name dm d :
  let res := load_collection now name dm d in
  collections_cache res.2 !! name = Some res.1
  /\ (forall other, other ≠ name ->
        collections_cache res.2 !! other = collections_cache dm !! other)
  /\ last_save_time res.2 = last_save_time dm
  /\ heap dm ⊆ heap res.2
  /\ (forall c, collections_cache dm !! name = Some c -> res = (c, dm))
  /\ (collections_cache dm !! name = None ->
      (forall j, files d !! collection_file name = Some (Complete j) ->
         to_json (heap res.2) res.1 = j
         /\ NoDup (gifts res.1)
         /\ forall a, a ∈ gifts res.1 -> a ∉ dom (heap dm))
      /\ (files d !! collection_file name = None ->
          res.1 = _create_empty_collection now name /\ heap res.2 = heap dm)
      /\ (forall j, files d !! collection_file name = Some (Truncated j) ->
          res.1 = _create_empty_collection now name /\ heap res.2 = heap dm))
  /\ (forall now' d', load_collection now' name res.2 d' = res).
Proof.
  cbn zeta.
  destruct (load_collection_caches now name dm d) as (Hhit & Hother & Ht & Hsub).
  do 4 (split; [done|]). split; [|split].
  - intros c Hc. by apply load_collection_cached.
  - intros Hc.
    destruct (load_collection_new now name dm d Hc)
      as (_ & _ & _ & Hnew & Hnd & Hfile).
    split; [|split].
    + intros j Hj. by rewrite Hj in Hfile.
    + intros Hj. rewrite Hj in Hfile. destruct Hfile as [-> ->]. by cbn.
    + intros j Hj. rewrite Hj in Hfile. destruct Hfile as [-> ->]. by cbn.
  - intros now' d'. rewrite (load_collection_cached _ _ _ _ _ Hhit).
    by destruct (load_collection now name dm d).
Qed.

(** X17: [load_collection] answers from the cache when the name is cached,
    without a look at the disk; else it decodes the file, the records
    becoming new dictionaries that no address in use leads to; else, without
    a file or with one that does not decode, it makes the empty skeleton.
    The answer is cached under the name, the other names, the dictionaries
    in use and the time of the last save are left alone; from then on every
    load gives the same answer whatever the disk has become. *)
Theorem load_collection_cases now name dm d :
  let res := load_collection now name dm d in
  collections_cache res.2 !! name = Some res.1
  /\ (forall other, other ≠ name ->
        collections_cache res.2 !! other = collections_cache dm !! other)
  /\ last_save_time res.2 = last_save_time dm
  /\ heap dm ⊆ heap res.2
  /\ (forall c, collections_cache dm !! name = Some c -> res = (c, dm))
  /\ (collections_cache dm !! name = None ->
      (forall j, files d !! collection_file name = Some (Complete j) ->
         to_json (heap res.2) res.1 = j
         /\ NoDup (gifts res.1)
         /\ forall a, a ∈ gifts res.1 -> a ∉ dom (heap dm))
      /\ (files d !! collection_file name = None ->
          res.1 = _create_empty_collection now name /\ heap res.2 = heap dm)
      /\ (forall j, files d !! collection_file name = Some (Truncated j) ->
          res.1 = _create_empty_collection now name /\ heap res.2 = heap dm))
  /\ (forall now' d', load_collection now' name res.2 d' = res).
Proof. exact (load_collection_cases_holds now name dm d). Qed.

(** X18: A save that fails leaves the collection file as it was and the time
    of the last save unchanged; the cached collection has been stamped all
    the same. *)
Theorem save_collection_failure now name dm d c :
  collections_cache dm !! name = Some c ->
  (save_collection cfg now name dm d).1.1 = false ->
  files (save_collection cfg now name dm d).2 !! collection_file name
    = files d !! collection_file name
  /\ collections_cache (save_collection cfg now name dm d).1.2 !! name
     = Some (stamp_for_save now c)
  /\ last_save_time (save_collection cfg now name dm d).1.2 = last_save_time dm.
Proof.
  intros Hc. rewrite (save_collection_unfold cfg now name dm d c Hc).
  cbn [fst snd]. intros Hf. rewrite Hf.
  split; [by apply save_ops_failure|].
  split; [cbn; apply lookup_insert_eq|done].
Qed.

(** X19: What a successful save wrote, a manager that starts with an empty
    cache loads back: the saved collection, record by record. *)
Theorem save_then_load_collection now now' name dm d c z h0 :
  collections_cache dm !! name = Some c ->
  (save_collection cfg now name dm d).1.1 = true ->
  let loaded :=
    load_collection now' name
      {| collections_cache := ∅; last_save_time := z; heap := h0 |}
      (save_collection cfg now name dm d).2 in
  to_json (heap loaded.2) loaded.1 = to_json (heap dm) (stamp_for_save now c)
  /\ collections_cache (save_collection cfg now name dm d).1.2 !! name
     = Some (stamp_for_save now c).
Proof.
  intros Hc Hok.
  rewrite (save_collection_unfold cfg now name dm d c Hc) in Hok |- *.
  cbn [fst snd] in *. rewrite Hok. cbn zeta.
  split; [|cbn; apply lookup_insert_eq].
  destruct (save_ops_success cfg name _ d Hok) as [Hfile _].
  set (dm0 := {| collections_cache := ∅; last_save_time := z; heap := h0 |}).
  set (d1 := (run_ops _ d).2) in *.
  destruct (load_collection_new now' name dm0 d1 (lookup_empty _))
    as (_ & _ & _ & _ & _ & H).
  by rewrite Hfile in H.
Qed.

(** X20: With [AUTO_BACKUP], a successful save over an existing collection file
    leaves the previous version of the file as the backup; without it, or
    without a previous file, the backup file is not touched.  No temporary
    file is left behind. *)
Theorem save_collection_backup now name dm d c :
  collections_cache dm !! name = Some c ->
  (save_collection cfg now name dm d).1.1 = true ->
  let d' := (save_collection cfg now name dm d).2 in
  files d' !! backup_file name
    = (if AUTO_BACKUP cfg
       then match files d !! collection_file name with
            | Some old => Some old
            | None => files d !! backup_file name
            end
       else files d !! backup_file name)
  /\ files d' !! temp_file name = None.
Proof.
  intros Hc. rewrite (save_collection_unfold cfg now name dm d c Hc).
  cbn [fst snd]. intros Hok. cbn zeta.
  destruct (save_ops_success cfg name _ d Hok) as [_ Htemp].
  split; [|done]. revert Hok. rewrite save_ops_run. cbn zeta.
  destruct (_ && _ && _); [done|].
  destruct (bool_decide (temp_file name ∈ _)); [done|].
  destruct (bool_decide (collection_file name ∈ _)); [done|].
  intros _. cbn.
  rewrite lookup_insert_ne by apply not_eq_sym, backup_file_not_target.
  rewrite lookup_delete_ne by apply temp_file_not_backup.
  rewrite lookup_insert_ne by apply temp_file_not_backup.
  destruct (files d !! collection_file name) as [old|];
    destruct (AUTO_BACKUP cfg); try done.
  by rewrite lookup_insert_eq.
Qed.

End LoadSave.

(** ** What the upsert keeps *)

Section UpsertInvariants.
Variable cfg : ParserConfig.
Import DataManager.

Lemma upsert_fold_id_list now incoming st :
  existing_gift_ids st = ids_of (st_heap st) (st_gifts st) ->
  let st' := foldl (upsert_one now) st incoming in
  (forall b, gift_id_at (st_heap st') b = gift_id_at (st_heap st) b)
  /\ exists extra,
       gift_ids (st_heap st') (st_gifts st')
       = gift_ids (st_heap st) (st_gifts st) ++ extra
       /\ (NoDup (gift_ids (st_heap st) (st_gifts st)) ->
           NoDup (gift_ids (st_heap st') (st_gifts st')))
       /\ (forall id, id ∈ extra ->
             exists a, a ∈ incoming /\ has_id (deref (st_heap st) a)
                       /\ gift_id_at (st_heap st) a = id).
Proof.
  revert st. induction incoming as [|a rest IH]; intros st Hinv; cbn zeta.
  - split; [done|]. exists []. rewrite app_nil_r. split; [done|].
    split; [done|]. intros id Hid. by apply elem_of_nil in Hid.
  - cbn [foldl].
    destruct (upsert_one_id_list now st a Hinv) as (Hsame & Hlist & Hinv1).
    destruct (IH _ Hinv1) as (Hsame' & extra & He & Hnd & Hex).
    split; [intros b; by rewrite Hsame', Hsame|].
    assert (forall id, id ∈ extra ->
              exists a0, a0 ∈ a :: rest /\ has_id (deref (st_heap st) a0)
                         /\ gift_id_at (st_heap st) a0 = id) as Hex'.
    { intros id Hid. destruct (Hex id Hid) as (a' & Ha1 & Ha2 & Ha3).
      exists a'. split; [by right|]. rewrite <- (Hsame a'). split; [|done].
      by apply (has_id_gift_id_at _ (st_heap (upsert_one now st a))),
        Ha2. }
    destruct Hlist as [Hl|(Hg & Hnew & Happ)].
    + rewrite Hl in He, Hnd. by exists extra.
    + rewrite Happ in He, Hnd. exists (gift_id_at (st_heap st) a :: extra).
      split; [by rewrite He, <- app_assoc|]. split.
      * intros H. apply Hnd, NoDup_app. split; [done|]. split.
        -- intros x Hx Hx'. apply list_elem_of_singleton in Hx'. by subst x.
        -- apply NoDup_singleton.
      * intros id Hid. apply elem_of_cons in Hid as [->|Hid].
        -- exists a. split; [by left|done].
        -- by apply Hex'.
Qed.

(** X21: For a batch that is not empty, [add_gifts_to_collection] returns the
    number of records its loop added or updated and leaves the records and
    the dictionaries of the loop in the manager, with [total_gifts] their
    number and [processed_gifts] the number of the active ones; or of all
    of them when more than 30 seconds have passed since the last save, the
    collection being saved on the spot. *)
Theorem add_gifts_to_collection_result now name incoming dm d :
  incoming ≠ [] ->
  let before := load_collection now name dm d in
  let st := upsert_loop now (gifts before.1) (heap before.2) incoming in
  let res := add_gifts_to_collection cfg now name incoming dm d in
  res.1.1 = added_count st + updated_count st
  /\ heap res.1.2 = st_heap st
  /\ (forall other, other ≠ name ->
        collections_cache res.1.2 !! other = collections_cache dm !! other)
  /\ exists c',
       collections_cache res.1.2 !! name = Some c'
       /\ gifts c' = st_gifts st
       /\ total_gifts c' = Z.of_nat (length (st_gifts st))
       /\ processed_gifts c' =
            if 30 <? unix now - last_save_time dm
            then Z.of_nat (length (st_gifts st))
            else Z.of_nat (length (filter
                   (fun g => dict_get (deref (st_heap st) g) "status"
                             = VStr "active") (st_gifts st))).
Proof. exact (add_gifts_to_collection_unfold cfg now name incoming dm d). Qed.

(** X22: The upsert never removes a record and never moves one: the ids of
    the stored records after the call are the ids before it, in their
    order, followed by the ids of records of the batch; no dictionary
    changes its id; ids that were distinct stay distinct. *)
Theorem add_gifts_to_collection_keeps_ids now name incoming dm d :
  let before := load_collection now name dm d in
  let res := add_gifts_to_collection cfg now name incoming dm d in
  let after := load_collection now name res.1.2 res.2 in
  (forall b, gift_id_at (heap after.2) b = gift_id_at (heap before.2) b)
  /\ exists extra,
       gift_ids (heap after.2) (gifts after.1)
       = gift_ids (heap before.2) (gifts before.1) ++ extra
       /\ (NoDup (gift_ids (heap before.2) (gifts before.1)) ->
           NoDup (gift_ids (heap after.2) (gifts after.1)))
       /\ (length (gifts before.1) <= length (gifts after.1))%nat
       /\ (forall id, id ∈ extra ->
             exists a, a ∈ incoming /\ has_id (deref (heap before.2) a)
                       /\ gift_id_at (heap before.2) a = id).
Proof.
  cbn zeta. destruct (decide (incoming = [])) as [->|Hne].
  - cbn. split; [done|]. exists []. rewrite app_nil_r. split; [done|].
    split; [done|]. split; [done|]. intros id Hid. by apply elem_of_nil in Hid.
  - destruct (add_gifts_to_collection_unfold cfg now name incoming dm d Hne)
      as (_ & Hh & _ & c' & Hc' & Hg & _).
    cbn zeta in *.
    set (res := add_gifts_to_collection cfg now name incoming dm d) in *.
    rewrite (load_collection_cached now name _ _ c' Hc'). cbn [fst snd].
    rewrite Hg, Hh.
    set (before := load_collection now name dm d) in *.
    destruct (upsert_fold_id_list now incoming
                (upsert_init (gifts before.1) (heap before.2))
                (upsert_init_ids _ _)) as (Hsame & extra & He & Hnd & Hex).
    cbn zeta in *. cbn [upsert_init st_gifts st_heap] in Hsame, He, Hnd, Hex.
    split; [done|].
    exists extra. split; [done|]. split; [done|]. split; [|done].
    apply (f_equal length) in He. unfold gift_ids in He.
    rewrite length_app, !length_fmap in He. unfold upsert_loop. lia.
Qed.

(** X23: Records without an id are passed over: a batch of such records stores
    nothing, counts nothing and writes into no dictionary. *)
Theorem add_gifts_to_collection_skips_idless now name incoming dm d :
  let before := load_collection now name dm d in
  Forall (fun a => ¬ has_id (deref (heap before.2) a)) incoming ->
  let res := add_gifts_to_collection cfg now name incoming dm d in
  let after := load_collection now name res.1.2 res.2 in
  res.1.1 = 0
  /\ gifts after.1 = gifts before.1
  /\ heap after.2 = heap before.2.
Proof.
  cbn zeta. intros Hall.
  assert (forall st,
            st_heap st = heap (load_collection now name dm d).2 ->
            foldl (upsert_one now) st incoming = st) as Hfold.
  { induction Hall as [|a rest Ha _ IH]; intros st Hst; [done|]. cbn [foldl].
    assert (upsert_one now st a = st) as ->; [|by apply IH].
    unfold upsert_one. rewrite Hst. unfold has_id in Ha.
    by destruct (truthy (dict_get _ "gift_id")). }
  destruct (decide (incoming = [])) as [->|Hne]; [done|].
  destruct (add_gifts_to_collection_unfold cfg now name incoming dm d Hne)
    as (Hn & Hh & _ & c' & Hc' & Hg & _).
  cbn zeta in *. unfold upsert_loop in *. rewrite Hfold in Hn, Hh, Hg by done.
  rewrite (load_collection_cached now name _ _ c' Hc'). cbn [fst snd].
  by rewrite Hn, Hg, Hh.
Qed.

(** The inner loop run again for the same dictionary finds the dictionary
    itself, or the record it was equal to, and changes nothing. *)
Lemma update_existing_again now a h gid :
  gid = gift_id_at h a ->
  forall stored,
    let r := update_existing now a gid stored h in
    update_existing now a gid r.1.1 r.1.2 = (r.1.1, r.1.2, 0)
    /\ (forall b, gift_id_at r.1.2 b = gift_id_at h b).
Proof.
  intros Hgid. induction stored as [|e rest IH]; [done|].
  cbn zeta in *. cbn [update_existing].
  destruct (decide (dict_get (deref h e) "gift_id" = gid)) as [He|He].
  - destruct (decide (deref h e ≠ deref h a)) as [Hd|Hd]; cbn [fst snd].
    + assert (forall b,
                gift_id_at (<[a := stamp_update now (deref h e) (deref h a)]> h) b
                = gift_id_at h b) as Hids
        by (intros b; apply gift_id_at_insert, stamp_update_gift_id).
      split; [|exact Hids]. cbn [update_existing].
      rewrite decide_True by (rewrite <- (Hids a) in Hgid; by rewrite Hgid).
      by rewrite decide_False by (intros H; by apply H).
    + split; [|done]. cbn [update_existing].
      rewrite decide_True by done. by rewrite decide_False by done.
  - destruct IH as [IH Hids].
    destruct (update_existing now a gid rest h) as [[rest' h'] u].
    cbn [fst snd] in *. split; [|exact Hids]. cbn [update_existing].
    rewrite decide_False by (fold (gift_id_at h' e); by rewrite Hids).
    by rewrite IH.
Qed.

(** A dictionary that has just been appended is found by the inner loop,
    equal to itself. *)
Lemma update_existing_appended now a h stored :
  (forall e, e ∈ stored -> gift_id_at h e ≠ gift_id_at h a) ->
  update_existing now a (gift_id_at h a) (stored ++ [a]) h
  = (stored ++ [a], h, 0).
Proof.
  induction stored as [|e rest IH]; intros Hnone.
  - cbn [app update_existing]. rewrite decide_True by done.
    by rewrite decide_False by (intros H; by apply H).
  - cbn [app update_existing].
    rewrite decide_False by (apply Hnone; by left).
    rewrite IH; [done|]. intros e' He'. apply Hnone. by right.
Qed.

Lemma upsert_one_again now st a :
  existing_gift_ids st = ids_of (st_heap st) (st_gifts st) ->
  upsert_one now (upsert_one now st a) a = upsert_one now st a.
Proof.
  intros Hinv. remember (upsert_one now st a) as st1 eqn:E.
  unfold upsert_one in E. fold (gift_id_at (st_heap st) a) in E.
  destruct (truthy (gift_id_at (st_heap st) a)) eqn:Hid; cbn [negb] in E.
  2:{ subst st1. unfold upsert_one. fold (gift_id_at (st_heap st) a).
      by rewrite Hid. }
  destruct (decide (gift_id_at (st_heap st) a ∈ existing_gift_ids st))
    as [Hin|Hin].
  - destruct (update_existing_again now a (st_heap st)
                (gift_id_at (st_heap st) a) eq_refl (st_gifts st))
      as [Hagain Hids]. cbn zeta in Hagain, Hids.
    destruct (update_existing now a (gift_id_at (st_heap st) a)
                (st_gifts st) (st_heap st)) as [[gs h'] u].
    cbn [fst snd] in *. subst st1. unfold upsert_one.
    cbn [st_heap st_gifts existing_gift_ids added_count updated_count].
    fold (gift_id_at h' a). rewrite Hids, Hid. cbn [negb].
    rewrite decide_True by done. rewrite Hagain. f_equal. lia.
  - subst st1. rewrite Hinv in Hin. unfold upsert_one.
    cbn [st_heap st_gifts existing_gift_ids added_count updated_count].
    fold (gift_id_at (st_heap st) a). rewrite Hid. cbn [negb].
    rewrite decide_True
      by (apply elem_of_union_l, elem_of_singleton; reflexivity).
    rewrite update_existing_appended.
    + f_equal. lia.
    + intros e He Heq. apply Hin. apply elem_of_ids_of. by exists e.
Qed.

(** X30: A dictionary that comes twice in a row in a batch is taken in once:
    the second time the loop finds the dictionary itself in the collection,
    equal to itself, and neither counts nor stamps it again.  So a batch
    of twice the same dictionary does what the batch of the one does. *)
Theorem add_gifts_to_collection_same_dictionary now name a dm d :
  add_gifts_to_collection cfg now name [a; a] dm d
  = add_gifts_to_collection cfg now name [a] dm d
  /\ (forall st,
        existing_gift_ids st = ids_of (st_heap st) (st_gifts st) ->
        upsert_one now (upsert_one now st a) a = upsert_one now st a).
Proof.
  split; [|intros st; apply upsert_one_again].
  unfold add_gifts_to_collection.
  destruct (load_collection now name dm d) as [c dm1].
  unfold upsert_loop. cbn [foldl].
  by rewrite (upsert_one_again now _ a (upsert_init_ids _ _)).
Qed.

End UpsertInvariants.

(** ** Ingesting one result *)

Section Ingest.
Variable cfg : ParserConfig.
Variable env : Environment.
Import CollectionManager.


Lemma ingest_outcome_holds name now url html_content error k m d :
  let res := ingest cfg env name now (url, html_content, error) k m d in
  let mark st md :=
    CacheManager.get_url_status (cache_manager res.1.2) url
    = Some {| status := st; processed_at := iso now; metadata := md |} in
  (forall html g,
     html_content = Some html ->
     parse_gift_data env html url = Some g ->
     validate_gift_data env g = true ->
     mark "active"
          (<["collection" := VStr name]> {["gift_id" := dict_get g "gift_id"]})
     /\ (data_manager res.1.2, res.2)
        = ((DataManager.add_gifts_to_collection cfg now name
              [(DataManager.alloc g (data_manager m)).1]
              (DataManager.alloc g (data_manager m)).2 d).1.2,
           (DataManager.add_gifts_to_collection cfg now name
              [(DataManager.alloc g (data_manager m)).1]
              (DataManager.alloc g (data_manager m)).2 d).2)
     /\ success_count res.1.1 = success_count k + 1
     /\ error_count res.1.1 = error_count k)
  /\ (forall html,
        html_content = Some html ->
        (forall g, parse_gift_data env html url = Some g ->
                   validate_gift_data env g = false) ->
        mark "parse_failed" ∅
        /\ (data_manager res.1.2, res.2) = (data_manager m, d)
        /\ success_count res.1.1 = success_count k
        /\ error_count res.1.1 = error_count k + 1)
  /\ (html_content = None ->
        mark (if decide (error = Some "404 Not Found")
              then "deleted" else "error")
             {["error" := from_option VStr VNone error]}
        /\ (data_manager res.1.2, res.2) = (data_manager m, d)
        /\ success_count res.1.1 = success_count k
        /\ error_count res.1.1 = error_count k + 1).
Proof.
  cbn zeta. unfold ingest, CacheManager.get_url_status.
  split; [|split].
  - intros html g -> Hp Hv. rewrite Hp, Hv.
    destruct (DataManager.alloc g (data_manager m)) as [a dm0]. cbn [fst snd].
    destruct (DataManager.add_gifts_to_collection _ _ _ _ _ _) as [[n dm] d'].
    cbn. by rewrite lookup_insert_eq.
  - intros html -> Hbad.
    destruct (parse_gift_data env html url) as [g|] eqn:Hp.
    + rewrite (Hbad g eq_refl). cbn. by rewrite lookup_insert_eq.
    + cbn. by rewrite lookup_insert_eq.
  - intros ->. cbn. by rewrite lookup_insert_eq.
Qed.


(** X25: A gift that passes [validate_gift_data] carries an id, so the upsert
    does not pass it over: once it is ingested its id is among the ids of
    the cached collection, whose [total_gifts] is the number of its
    records. *)
Theorem valid_gift_is_stored name now url html error k m d g :
  parse_gift_data env html url = Some g ->
  validate_gift_data env g = true ->
  let res := ingest cfg env name now (url, Some html, error) k m d in
  has_id g
  /\ exists c,
       DataManager.collections_cache (data_manager res.1.2) !! name = Some c
       /\ dict_get g "gift_id"
          ∈ gift_ids (DataManager.heap (data_manager res.1.2)) (gifts c)
       /\ total_gifts c = Z.of_nat (length (gifts c)).
Proof.
  intros Hp Hv. cbn zeta.
  assert (has_id g) as Hid.
  { unfold validate_gift_data in Hv. cbn in Hv. unfold has_id.
    repeat (apply andb_true_iff in Hv as [Hv ?]).
    repeat match goal with H : _ && _ = true |- _ =>
      apply andb_true_iff in H as [? ?] end. done. }
  split; [done|].
  destruct (ingest_outcome_holds name now url (Some html) error k m d)
    as (Hact & _). destruct (Hact html g eq_refl Hp Hv) as (_ & Hdm & _).
  apply (f_equal fst) in Hdm. cbn [fst] in Hdm. rewrite Hdm.
  set (a := (DataManager.alloc g (data_manager m)).1).
  set (dm0 := (DataManager.alloc g (data_manager m)).2).
  assert (DataManager.deref (DataManager.heap dm0) a = g) as Ha.
  { subst a dm0. unfold DataManager.alloc, DataManager.deref. cbn.
    by rewrite lookup_insert_eq. }
  destruct (add_gifts_to_collection_unfold cfg now name [a] dm0 d)
    as (_ & Hh & _ & c & Hc & Hg & Ht & _); [done|].
  cbn zeta in *. exists c. split; [done|]. rewrite Hg, Hh. split; [|done].
  set (before' := DataManager.load_collection now name dm0 d) in *.
  assert (DataManager.deref (DataManager.heap before'.2) a = g) as Ha'.
  { rewrite <- Ha. apply deref_weaken.
    - apply load_collection_caches.
    - subst a dm0. unfold DataManager.alloc. cbn. apply elem_of_dom.
      rewrite lookup_insert_eq. by eexists. }
  apply elem_of_gift_ids.
  unfold DataManager.upsert_loop. cbn [foldl].
  set (st0 := DataManager.upsert_init (gifts before'.1)
                (DataManager.heap before'.2)).
  destruct (upsert_one_id_list now st0 a (upsert_init_ids _ _))
    as (_ & _ & Hinv).
  cbn zeta in Hinv. rewrite <- Hinv.
  unfold DataManager.upsert_one. cbn [DataManager.st_heap st0 DataManager.upsert_init].
  rewrite Ha'. unfold has_id in Hid. rewrite Hid. cbn [negb].
  case_decide as Hin.
  - by destruct (DataManager.update_existing _ _ _ _ _) as [[? ?] ?].
  - cbn. apply elem_of_union_l, elem_of_singleton. reflexivity.
Qed.

End Ingest.

(** ** Processing a collection *)

Section ProcessCollection.
Variable cfg : ParserConfig.
Variable env : Environment.
Import CollectionManager.





(** C5: In resume mode a collection whose URLs are all in the processed set is
    left alone: no request is made (the downloader is as before), nothing is
    marked or written, and the result has no processed URL; the number of
    skipped URLs is what the result reports as [failed_parses].  What resume
    mode passes on are the URLs [filter_unprocessed_urls] keeps: in their
    order, exactly those that are not in the processed set. *)
Theorem process_collection_resume_noop name m d :
  (forall u, u ∈ load_collection_urls name d ->
             u ∈ CacheManager.processed_urls (cache_manager m)) ->
  process_collection cfg env name true m d
  = (inr (_create_collection_stats name
            (Z.of_nat (length (load_collection_urls name d))) 0 0
            (Z.of_nat (length (load_collection_urls name d)))),
     m, d)
  /\ CacheManager.filter_unprocessed_urls (cache_manager m)
       (load_collection_urls name d) = []
  /\ (forall cm urls,
        CacheManager.filter_unprocessed_urls cm urls
        = List.filter
            (fun u => bool_decide (u ∉ CacheManager.processed_urls cm)) urls
        /\ (forall u, u ∈ CacheManager.filter_unprocessed_urls cm urls
                      <-> u ∈ urls /\ u ∉ CacheManager.processed_urls cm)
        /\ CacheManager.filter_unprocessed_urls cm urls `sublist_of` urls).
Proof.
  intros Hall.
  destruct (filter_unprocessed_urls_exact_holds (cache_manager m)
              (load_collection_urls name d)) as (_ & _ & Hnil & _).
  split; [|split; [exact (proj2 Hnil Hall)|]].
  - unfold process_collection. rewrite (proj2 Hnil Hall).
    destruct (load_collection_urls name d) as [|u urls]; [done|].
    cbn [length]. do 3 f_equal; try lia.
  - intros cm urls.
    destruct (filter_unprocessed_urls_exact_holds cm urls) as (H1 & H2 & _).
    split; [|done].
    unfold CacheManager.filter_unprocessed_urls, CacheManager.is_url_processed.
    apply List.filter_ext. intros u.
    by rewrite bool_decide_not.
Qed.



Lemma process_collection_zero_batch_holds name (resume_mode : bool) m d :
  BATCH_SIZE cfg = 0 ->
  (if resume_mode
   then CacheManager.filter_unprocessed_urls (cache_manager m)
          (load_collection_urls name d)
   else load_collection_urls name d) ≠ [] ->
  process_collection cfg env name resume_mode m d
  = (inl (ValueError "range() arg 3 must not be zero"), m, d).
Proof.
  intros Hb Hne. unfold process_collection.
  destruct (load_collection_urls name d) as [|u0 rest] eqn:Eall.
  { by destruct resume_mode. }
  rewrite <- Eall in *.
  destruct (if resume_mode then _ else _) as [|u1 rest1] eqn:Eurls; [done|].
  rewrite <- Eurls.
  rewrite download_with_batching_bad_size_holds by lia. rewrite Hb. cbn.
  by destruct m.
Qed.

(** X28: A batch size of zero makes the run raise [ValueError] as soon as there
    is a URL to process, before any request and any mark. *)
Theorem process_collection_zero_batch name (resume_mode : bool) m d :
  BATCH_SIZE cfg = 0 ->
  (if resume_mode
   then CacheManager.filter_unprocessed_urls (cache_manager m)
          (load_collection_urls name d)
   else load_collection_urls name d) ≠ [] ->
  process_collection cfg env name resume_mode m d
  = (inl (ValueError "range() arg 3 must not be zero"), m, d).
Proof.
  exact (process_collection_zero_batch_holds name resume_mode m d).
Qed.

End ProcessCollection.

(** ** The loop over the collections *)

Section CollectionsLoop.
Import CollectionManager.
Variable process :
  nat -> string -> bool -> t -> disk -> (exn + collection_stats) * t * disk.
Variable str_of : nat -> exn -> string.

Lemma collections_loop_app resume l1 l2 st :
  collections_loop process str_of resume (l1 ++ l2) st
  = collections_loop process str_of resume l2
      (collections_loop process str_of resume l1 st).
Proof. unfold collections_loop. apply foldl_app. Qed.

Lemma loop_step_results resume st name other :
  position (loop_step process str_of resume st name) = S (position st)
  /\ is_Some (collection_results (loop_step process str_of resume st name) !! name)
  /\ (other ≠ name ->
      collection_results (loop_step process str_of resume st name) !! other
      = collection_results st !! other).
Proof.
  unfold loop_step.
  destruct (process _ _ _ _ _) as [[[e|stats] m] d]; cbn;
    rewrite lookup_insert_eq; (split; [done|]); (split; [done|]);
    intros; by rewrite lookup_insert_ne.
Qed.

Lemma collections_loop_results resume collections st :
  let st' := collections_loop process str_of resume collections st in
  position st' = (position st + length collections)%nat
  /\ (forall name, name ∈ collections \/ is_Some (collection_results st !! name) ->
        is_Some (collection_results st' !! name))
  /\ (forall name, name ∉ collections ->
        collection_results st' !! name = collection_results st !! name).
Proof.
  revert st. induction collections as [|c rest IH]; intros st; cbn zeta.
  - cbn. split; [lia|]. split; [|done].
    intros name [Hin|H]; [by apply elem_of_nil in Hin|done].
  - cbn [collections_loop foldl].
    destruct (IH (loop_step process str_of resume st c)) as (Hp & Hin & Hout).
    fold (collections_loop process str_of resume rest
            (loop_step process str_of resume st c)) in *.
    split; [|split].
    + destruct (loop_step_results resume st c c) as (Hs & _).
      rewrite Hp, Hs. cbn [length]. lia.
    + intros name Hname. apply Hin.
      destruct (decide (name = c)) as [->|Hne].
      * right. apply (loop_step_results resume st c c).
      * destruct (loop_step_results resume st c name) as (_ & _ & Ho).
        rewrite (Ho Hne).
        destruct Hname as [Hname|?]; [|by right].
        apply elem_of_cons in Hname as [?|?]; [done|by left].
    + intros name Hname. rewrite Hout by set_solver.
      apply (loop_step_results resume st c name). set_solver.
Qed.

Lemma collections_loop_records_failure_holds resume before name after st e m d :
  let mid := collections_loop process str_of resume before st in
  process (position mid) name resume (manager mid) (the_disk mid)
    = (inl e, m, d) ->
  let st' := collections_loop process str_of resume
               (before ++ name :: after) st in
  st' = collections_loop process str_of resume after
          {| position := S (position mid);
             collection_results :=
               <[name := ErrorEntry (str_of (position mid) e) 0 0 0]>
                 (collection_results mid);
             manager := m;
             the_disk := d |}
  /\ (name ∉ after ->
      collection_results st' !! name
      = Some (ErrorEntry (str_of (position mid) e) 0 0 0))
  /\ (forall c, c ∈ before ++ name :: after ->
        is_Some (collection_results st' !! c))
  /\ position st' = (position st + length (before ++ name :: after))%nat.
Proof.
  cbn zeta. intros Hfail.
  rewrite collections_loop_app.
  set (mid := collections_loop process str_of resume before st) in *.
  change (collections_loop process str_of resume (name :: after) mid)
    with (collections_loop process str_of resume after
            (loop_step process str_of resume mid name)).
  assert (loop_step process str_of resume mid name
          = {| position := S (position mid);
               collection_results :=
                 <[name := ErrorEntry (str_of (position mid) e) 0 0 0]>
                   (collection_results mid);
               manager := m; the_disk := d |}) as Hstep
    by (unfold loop_step; by rewrite Hfail).
  rewrite Hstep. split; [done|]. split.
  - intros Hnot.
    destruct (collections_loop_results resume after
                {| position := S (position mid);
                   collection_results :=
                     <[name := ErrorEntry (str_of (position mid) e) 0 0 0]>
                       (collection_results mid);
                   manager := m; the_disk := d |}) as (_ & _ & Hout).
    rewrite (Hout name Hnot). cbn. apply lookup_insert_eq.
  - rewrite <- Hstep.
    change (collections_loop process str_of resume after
              (loop_step process str_of resume mid name))
      with (collections_loop process str_of resume (name :: after) mid).
    subst mid. rewrite <- collections_loop_app.
    destruct (collections_loop_results resume (before ++ name :: after) st)
      as (Hp & Hin & _).
    split; [|done]. intros c Hc. apply Hin. by left.
Qed.

(** X29: A collection whose processing raises does not stop the loop: the
    exception is recorded under the collection's name with zero counts, the
    totals of [processing_stats] get nothing from it, and the loop goes on
    with the collections after it from the state the failed call left.
    Every collection of the list has an entry in the end. *)
Theorem collections_loop_records_failure resume before name after st e m d :
  let mid := collections_loop process str_of resume before st in
  process (position mid) name resume (manager mid) (the_disk mid)
    = (inl e, m, d) ->
  let st' := collections_loop process str_of resume
               (before ++ name :: after) st in
  st' = collections_loop process str_of resume after
          {| position := S (position mid);
             collection_results :=
               <[name := ErrorEntry (str_of (position mid) e) 0 0 0]>
                 (collection_results mid);
             manager := m;
             the_disk := d |}
  /\ (name ∉ after ->
      collection_results st' !! name
      = Some (ErrorEntry (str_of (position mid) e) 0 0 0))
  /\ (forall c, c ∈ before ++ name :: after ->
        is_Some (collection_results st' !! c))
  /\ position st' = (position st + length (before ++ name :: after))%nat.
Proof.
  exact (collections_loop_records_failure_holds resume before name after st
           e m d).
Qed.

(** A collection processed without an exception is recorded with its
    statistics, which are added to the totals, and counts as completed. *)
Lemma loop_step_records_success resume st name stats m d :
  process (position st) name resume (manager st) (the_disk st)
    = (inr stats, m, d) ->
  let st' := loop_step process str_of resume st name in
  collection_results st' !! name = Some (Stats stats)
  /\ completed_collections (processing_stats (manager st'))
     = completed_collections (processing_stats m) + 1
  /\ processed_urls (processing_stats (manager st'))
     = processed_urls (processing_stats m) + cs_processed_urls stats
  /\ successful_parses (processing_stats (manager st'))
     = successful_parses (processing_stats m) + cs_successful_parses stats
  /\ failed_parses (processing_stats (manager st'))
     = failed_parses (processing_stats m) + cs_failed_parses stats
  /\ the_disk st' = d.
Proof.
  intros H. cbn zeta. unfold loop_step. rewrite H. cbn.
  by rewrite lookup_insert_eq.
Qed.

End CollectionsLoop.

(** ** The whole run *)

Section AllCollections.
Import CollectionManager.
Variable cfg : ParserConfig.
Variable envs : nat -> Environment.


End AllCollections.
(** ** The theorems at work on concrete inputs *)

(** The first gift comes in as deleted, twice as one and the same
    dictionary, with a dictionary without an id and the second gift: the
    first is replaced once, the second is appended. *)
Lemma add_gifts_to_collection_upserts_witness :
  let dm := Scenario.data_manager_with_lightsword in
  let d := Scenario.empty_disk in
  let incoming := [2; 2; 3; 1]%nat in
  let before := DataManager.load_collection Scenario.t1 "lightsword" dm d in
  let res :=
    DataManager.add_gifts_to_collection config Scenario.t1 "lightsword"
      incoming dm d in
  let after :=
    DataManager.load_collection Scenario.t1 "lightsword" res.1.2 res.2 in
  upsert_spec Scenario.t1
    (DataManager.heap before.2, gifts before.1)
    (filter (fun a => has_id (DataManager.deref (DataManager.heap before.2) a))
            incoming)
    (DataManager.heap after.2, gifts after.1) res.1.1
  /\ filter (fun a => has_id (DataManager.deref (DataManager.heap before.2) a))
            incoming = [2; 2; 1]%nat
  /\ gifts before.1 = [0%nat]
  /\ gifts after.1 = [2; 1]%nat
  /\ res.1.1 = 2
  /\ dict_get (DataManager.deref (DataManager.heap after.2) 2%nat)
       <$> ["status"; "previous_status"; "updated_at"]
     = [VStr "deleted"; VStr "active"; VStr (iso Scenario.t1)].
Proof.
  split.
  - exact (add_gifts_to_collection_upserts config Scenario.t1 "lightsword"
             [2; 2; 3; 1]%nat Scenario.data_manager_with_lightsword
             Scenario.empty_disk).
  - repeat (split; [vm_compute; reflexivity|]). vm_compute. reflexivity.
Defined.

(** The collection is saved over an older file: the save succeeds, and a
    kill before the rename leaves the older file. *)
Lemma save_collection_atomic_witness :
  let dm := Scenario.data_manager_with_lightsword in
  let d := Scenario.disk_with Scenario.older_json in
  let j := DataManager.to_json (DataManager.heap dm)
             (DataManager.stamp_for_save Scenario.t1 Scenario.lightsword) in
  let ops := DataManager.save_ops config "lightsword" j d in
  let res := DataManager.save_collection config Scenario.t1 "lightsword" dm d in
  DataManager.collections_cache dm !! "lightsword" = Some Scenario.lightsword
  /\ length ops = 3%nat
  /\ res.1.1 = true
  /\ files res.2 !! DataManager.collection_file "lightsword"
     = Some (Complete j)
  /\ files res.2 !! DataManager.temp_file "lightsword" = None
  /\ (forall k mid, (k < 3)%nat ->
        files (crash_state ops k mid d) !! DataManager.collection_file "lightsword"
        = Some (Complete Scenario.older_json))
  /\ files (crash_state ops 1 true d) !! DataManager.temp_file "lightsword"
     = Some (Truncated j).
Proof.
  intros dm d j ops res.
  pose proof (save_collection_atomic config Scenario.t1 "lightsword" dm d
                Scenario.lightsword eq_refl) as H.
  cbn zeta in H. fold j ops res in H.
  destruct H as (_ & _ & _ & _ & _ & _ & _ & Hok & Hsucc & _ & Hcrash & _ & Htemp).
  assert (Hlen : length ops = 3%nat) by reflexivity.
  assert (Hfaulty : forall p : path, p ∉ faulty d)
    by (intros p; apply not_elem_of_empty).
  assert (Hres : res.1.1 = true)
    by (apply Hok; [apply Hfaulty|apply Hfaulty|left; apply Hfaulty]).
  destruct (Hsucc Hres) as (Htarget & Hnotemp & _).
  split; [reflexivity|]. split; [exact Hlen|]. split; [exact Hres|].
  split; [exact Htarget|]. split; [exact Hnotemp|]. split.
  - intros k mid Hk. rewrite Hcrash by (rewrite Hlen; exact Hk). reflexivity.
  - refine (proj1 (Htemp (Hfaulty _) (or_introl (Hfaulty _)))).
Defined.

(** A new manager on an empty disk takes the first gift in as deleted: the
    upsert counts no active record; the save that follows counts the one
    record, in memory and in the file. *)
Lemma save_collection_counters_witness :
  let events := [NewDict Scenario.gift1_deleted;
                 CallAddGifts Scenario.t1 "lightsword" [0%nat]] in
  let s := store_run config events
             (Scenario.fresh_data_manager, Scenario.empty_disk) in
  let res := DataManager.save_collection config Scenario.t2 "lightsword"
               s.1 s.2 in
  processed_gifts <$> DataManager.collections_cache s.1 !! "lightsword"
    = Some 0
  /\ res.1.1 = true
  /\ processed_gifts <$> DataManager.collections_cache res.1.2 !! "lightsword"
     = Some 1
  /\ exists j,
       files res.2 !! DataManager.collection_file "lightsword"
         = Some (Complete j)
       /\ length (gifts j) = 1%nat
       /\ processed_gifts j = 1
       /\ total_gifts j = 1.
Proof.
  intros events s res.
  assert (Hok : res.1.1 = true) by (vm_compute; reflexivity).
  assert (Heq : DataManager.save_collection config Scenario.t2 "lightsword"
                  s.1 s.2 = (res.1.1, res.1.2, res.2))
    by (fold res; by destruct res as [[? ?] ?]).
  rewrite Hok in Heq.
  assert (Hlen : (fun c => length (gifts c))
                   <$> DataManager.collections_cache s.1 !! "lightsword"
                 = Some 1%nat) by (vm_compute; reflexivity).
  destruct (save_collection_counters config events
              Scenario.fresh_data_manager Scenario.empty_disk
              Scenario.t2 "lightsword" res.1.2 res.2) as [Hsaved _].
  { intros n c Hc. cbn in Hc. rewrite lookup_empty in Hc. discriminate Hc. }
  { intros p j Hp. cbn in Hp. rewrite lookup_empty in Hp. discriminate Hp. }
  { exact Heq. }
  destruct Hsaved as (c & c' & j & Hc & Hc' & Hfile & Hg' & Hg & Hp' & Hp & Ht & _).
  fold s in Hc. rewrite Hc in Hlen. cbn in Hlen. injection Hlen as Hlen.
  assert (Hj : length (gifts j) = 1%nat) by (by rewrite Hg, length_fmap).
  split; [vm_compute; reflexivity|]. split; [exact Hok|]. split.
  - rewrite Hc'. cbn. rewrite Hp', Hg', Hlen. reflexivity.
  - exists j. split; [exact Hfile|]. split; [exact Hj|].
    rewrite Hp, Ht, Hj. split; reflexivity.
Defined.



(** A time-out, then the page: one retry, after one second. *)
Lemma retry_policy_witness :
  let res := AsyncDownloader._download_single config (World.world World.flaky)
               Scenario.url1 AsyncDownloader.init in
  retries_made config (World.world World.flaky) Scenario.url1 = 1%nat
  /\ AsyncDownloader.total_requests (AsyncDownloader.stats res.2) = 2
  /\ AsyncDownloader.slept res.2 = [1]
  /\ res.1 = AsyncDownloader.Returned (Scenario.url1, Some "<html>", None).
Proof.
  intros res.
  destruct (retry_policy config (World.world World.flaky) Scenario.url1
              AsyncDownloader.init) as (_ & _ & _ & Ht & Hs & _).
  cbn zeta in Ht, Hs. fold res in Ht, Hs.
  split; [reflexivity|]. split; [rewrite Ht; reflexivity|].
  split; [rewrite Hs; reflexivity|]. vm_compute. reflexivity.
Defined.

(** C2, as stated, fails: a URL that is always answered by the status 500,
    which is neither 2xx nor 404, is requested once, not three times. *)
Lemma retry_policy_counterexample :
  ~ (forall cfg env url dl,
       (forall n, retryable_by_spec (net env url n)) ->
       AsyncDownloader.total_requests
         (AsyncDownloader.stats
            (AsyncDownloader._download_single cfg env url dl).2)
       = AsyncDownloader.total_requests (AsyncDownloader.stats dl) + 3).
Proof.
  intros H.
  specialize (H config (World.world (World.always (Response 500 "")))
                Scenario.url1 AsyncDownloader.init).
  assert (forall n : nat,
            retryable_by_spec
              (net (World.world (World.always (Response 500 "")))
                   Scenario.url1 n)) as Hretryable
    by (intros n; cbn; lia).
  specialize (H Hretryable). vm_compute in H. discriminate H.
Qed.

(** The one URL of the collection is marked: nothing is done. *)
Lemma process_collection_resume_noop_witness :
  let d := Scenario.materials [Scenario.url1] in
  (forall u,
     u ∈ CollectionManager.load_collection_urls "lightsword" d ->
     u ∈ CacheManager.processed_urls
           (CollectionManager.cache_manager World.manager_with_url1))
  /\ CollectionManager.process_collection config (World.world World.flaky)
       "lightsword" true World.manager_with_url1 d
     = (inr (CollectionManager._create_collection_stats "lightsword" 1 0 0 1),
        World.manager_with_url1, d).
Proof.
  intros d.
  assert (CollectionManager.load_collection_urls "lightsword" d
          = [Scenario.url1]) as Hurls by (vm_compute; reflexivity).
  assert (forall u,
     u ∈ CollectionManager.load_collection_urls "lightsword" d ->
     u ∈ CacheManager.processed_urls
           (CollectionManager.cache_manager World.manager_with_url1)) as H.
  { intros u Hu. rewrite Hurls in Hu.
    apply list_elem_of_singleton in Hu. subst u. cbn.
    apply elem_of_union_l, elem_of_singleton. reflexivity. }
  split; [exact H|].
  rewrite (proj1 (process_collection_resume_noop config
                    (World.world World.flaky) "lightsword"
                    World.manager_with_url1 d H)).
  rewrite Hurls. reflexivity.
Defined.


(** One permit, two calls: the first task has sent its request and holds
    the permit, the second waits for it. *)
Lemma in_flight_bounded_witness :
  0 <= MAX_CONCURRENT_REQUESTS Scenario.one_at_a_time
  /\ rtc (Tasks.step Scenario.one_at_a_time (World.world World.flaky))
       (Tasks.start Scenario.one_at_a_time AsyncDownloader.init)
       World.busy_loop
  /\ Tasks.requests_in_flight World.busy_loop
     <= MAX_CONCURRENT_REQUESTS Scenario.one_at_a_time
  /\ Tasks.requests_in_flight World.busy_loop = 1
  /\ Tasks.permits World.busy_loop = 0
  /\ Tasks.holding <$> Tasks.tasks World.busy_loop = [1; 0].
Proof.
  assert (0 <= MAX_CONCURRENT_REQUESTS Scenario.one_at_a_time) as Hmax
    by (cbn; lia).
  assert (rtc (Tasks.step Scenario.one_at_a_time (World.world World.flaky))
            (Tasks.start Scenario.one_at_a_time AsyncDownloader.init)
            World.busy_loop) as Hrun by apply schedule_steps.
  split; [exact Hmax|]. split; [exact Hrun|].
  split; [exact (proj1 (in_flight_bounded Scenario.one_at_a_time
                          (World.world World.flaky) AsyncDownloader.init
                          World.busy_loop Hmax Hrun))|].
  split; [vm_compute; reflexivity|]. split; vm_compute; reflexivity.
Defined.

Lemma http_error_not_retried_witness :
  net (World.world (World.always (Response 500 ""))) Scenario.url1 1
    = Response 500 ""
  /\ 500 ≠ 200
  /\ 500 ≠ 404
  /\ (AsyncDownloader._download_single config
        (World.world (World.always (Response 500 "")))
        Scenario.url1 AsyncDownloader.init).1
     = AsyncDownloader.Returned
         (Scenario.url1, None,
          Some "Client error: 500, message='HTTP 500', url='https://t.me/nft/lightsword-1'")
  /\ AsyncDownloader.total_requests
       (AsyncDownloader.stats
          (AsyncDownloader._download_single config
             (World.world (World.always (Response 500 "")))
             Scenario.url1 AsyncDownloader.init).2)
     = 1.
Proof.
  split; [reflexivity|]. split; [lia|]. split; [lia|].
  rewrite (http_error_not_retried config
             (World.world (World.always (Response 500 "")))
             Scenario.url1 AsyncDownloader.init 500 "" eq_refl);
    [|lia|lia].
  split; vm_compute; reflexivity.
Defined.

Lemma client_error_not_retried_witness :
  net (World.world (World.always (Raises (ClientError "Connection reset"))))
      Scenario.url1 1
    = Raises (ClientError "Connection reset")
  /\ AsyncDownloader.total_requests
       (AsyncDownloader.stats
          (AsyncDownloader._download_single config
             (World.world (World.always (Raises (ClientError "Connection reset"))))
             Scenario.url1 AsyncDownloader.init).2)
     = 1.
Proof.
  split; [reflexivity|].
  rewrite (client_error_not_retried config
             (World.world (World.always (Raises (ClientError "Connection reset"))))
             Scenario.url1 AsyncDownloader.init "Connection reset" eq_refl).
  reflexivity.
Defined.

Lemma retries_exhausted_witness :
  escalates config
    (net (World.world (World.always (Raises TimeoutError))) Scenario.url1 1)
    = Some TimeoutError
  /\ (AsyncDownloader._download_single config
        (World.world (World.always (Raises TimeoutError)))
        Scenario.url1 AsyncDownloader.init).1
     = AsyncDownloader.Raised TimeoutError
  /\ AsyncDownloader.total_requests
       (AsyncDownloader.stats
          (AsyncDownloader._download_single config
             (World.world (World.always (Raises TimeoutError)))
             Scenario.url1 AsyncDownloader.init).2)
     = 0 + 3
  /\ AsyncDownloader.slept
       (AsyncDownloader._download_single config
          (World.world (World.always (Raises TimeoutError)))
          Scenario.url1 AsyncDownloader.init).2
     = [] ++ [1; 2].
Proof.
  split; [reflexivity|].
  exact (retries_exhausted config
           (World.world (World.always (Raises TimeoutError)))
           Scenario.url1 AsyncDownloader.init
           TimeoutError TimeoutError TimeoutError
           eq_refl eq_refl eq_refl).
Defined.

Lemma retry_recovers_witness :
  escalates config (net (World.world World.flaky) Scenario.url1 1)
    = Some TimeoutError
  /\ escalates config (net (World.world World.flaky) Scenario.url1 2) = None
  /\ (AsyncDownloader._download_single config (World.world World.flaky)
        Scenario.url1 AsyncDownloader.init).1
     = AsyncDownloader.Returned (Scenario.url1, Some "<html>", None).
Proof.
  split; [reflexivity|]. split; [reflexivity|].
  rewrite (proj1 (retry_recovers config (World.world World.flaky)
                    Scenario.url1 AsyncDownloader.init TimeoutError
                    eq_refl eq_refl)).
  reflexivity.
Defined.

Lemma download_batch_skips_failed_witness :
  (forall url, url ∈ [Scenario.url1] ->
               url ∈ AsyncDownloader.failed_urls World.downloader_after_404)
  /\ AsyncDownloader.download_batch config (World.world World.flaky)
       [Scenario.url1] World.downloader_after_404
     = ([], World.downloader_after_404).
Proof.
  assert (forall url, url ∈ [Scenario.url1] ->
            url ∈ AsyncDownloader.failed_urls World.downloader_after_404) as H.
  { intros url Hin. apply list_elem_of_singleton in Hin. subst url.
    refine (bool_decide_unpack _ _). vm_compute. exact I. }
  split; [exact H|].
  exact (download_batch_skips_failed config (World.world World.flaky)
           [Scenario.url1] World.downloader_after_404 H).
Defined.


Lemma download_with_batching_bad_size_witness :
  -1 <= 0
  /\ AsyncDownloader.download_with_batching config (World.world World.flaky)
       [Scenario.url1; Scenario.url2] (-1) AsyncDownloader.init
     = (inr [], AsyncDownloader.init).
Proof.
  split; [lia|].
  exact (download_with_batching_bad_size config (World.world World.flaky)
           [Scenario.url1; Scenario.url2] (-1) AsyncDownloader.init
           ltac:(lia)).
Defined.

Lemma save_then_load_cache_witness :
  (CacheManager.cache_dirty World.cache_with_url1 = true \/ false = true)
  /\ (CacheManager.save_cache Scenario.t1 false World.cache_with_url1
        Scenario.empty_disk).1.1 = true
  /\ (forall u, u ∈ CacheManager.processed_urls World.cache_with_url1 ->
                strip u = u /\ u ≠ "" /\ has_newline u = false)
  /\ exists cm2,
       CacheManager.load_cache (CacheManager.init Scenario.t1)
         (CacheManager.save_cache Scenario.t1 false
            World.cache_with_url1 Scenario.empty_disk).2
       = (true, cm2)
       /\ CacheManager.processed_urls cm2
          = CacheManager.processed_urls World.cache_with_url1
       /\ CacheManager.url_status_cache cm2
          = CacheManager.url_status_cache World.cache_with_url1
       /\ CacheManager.collection_progress cm2
          = CacheManager.collection_progress World.cache_with_url1
       /\ CacheManager.cache_dirty cm2 = false.
Proof.
  assert ((CacheManager.save_cache Scenario.t1 false
             World.cache_with_url1 Scenario.empty_disk).1.1 = true) as Hok
    by (vm_compute; reflexivity).
  assert (forall u, u ∈ CacheManager.processed_urls World.cache_with_url1 ->
                    strip u = u /\ u ≠ "" /\ has_newline u = false) as Hclean.
  { intros u Hu. cbn in Hu.
    apply elem_of_union in Hu as [Hu|Hu]; [|by apply elem_of_empty in Hu].
    apply elem_of_singleton in Hu. subst u.
    split; [vm_compute; reflexivity|].
    split; [discriminate|vm_compute; reflexivity]. }
  split; [left; reflexivity|]. split; [exact Hok|]. split; [exact Hclean|].
  exact (save_then_load_cache Scenario.t1 Scenario.t1 false
           World.cache_with_url1 Scenario.empty_disk
           (or_introl eq_refl) Hok Hclean).
Defined.

Lemma save_collection_failure_witness :
  let dm := Scenario.data_manager_with_lightsword in
  DataManager.collections_cache dm !! "lightsword" = Some Scenario.lightsword
  /\ (DataManager.save_collection config Scenario.t1 "lightsword" dm
        Scenario.broken_disk).1.1 = false
  /\ files (DataManager.save_collection config Scenario.t1 "lightsword" dm
              Scenario.broken_disk).2
       !! DataManager.collection_file "lightsword"
     = files Scenario.broken_disk !! DataManager.collection_file "lightsword".
Proof.
  intros dm.
  assert ((DataManager.save_collection config Scenario.t1 "lightsword" dm
             Scenario.broken_disk).1.1 = false) as Hfail
    by (vm_compute; reflexivity).
  split; [reflexivity|]. split; [exact Hfail|].
  exact (proj1 (save_collection_failure config Scenario.t1 "lightsword" dm
                  Scenario.broken_disk Scenario.lightsword eq_refl Hfail)).
Defined.

Lemma save_then_load_collection_witness :
  let dm := Scenario.data_manager_with_lightsword in
  let saved := DataManager.save_collection config Scenario.t1 "lightsword" dm
                 Scenario.empty_disk in
  let loaded := DataManager.load_collection Scenario.t2 "lightsword"
                  Scenario.fresh_data_manager saved.2 in
  DataManager.collections_cache dm !! "lightsword" = Some Scenario.lightsword
  /\ saved.1.1 = true
  /\ DataManager.to_json (DataManager.heap loaded.2) loaded.1
     = DataManager.to_json (DataManager.heap dm)
         (DataManager.stamp_for_save Scenario.t1 Scenario.lightsword)
  /\ length (gifts loaded.1) = 1%nat.
Proof.
  intros dm saved loaded.
  assert (saved.1.1 = true) as Hok by (vm_compute; reflexivity).
  split; [reflexivity|]. split; [exact Hok|].
  split; [|vm_compute; reflexivity].
  exact (proj1 (save_then_load_collection config Scenario.t1 Scenario.t2
                  "lightsword" dm Scenario.empty_disk Scenario.lightsword
                  (unix Scenario.t0) ∅ eq_refl Hok)).
Defined.

Lemma save_collection_backup_witness :
  let dm := Scenario.data_manager_with_lightsword in
  let d := Scenario.disk_with Scenario.older_json in
  DataManager.collections_cache dm !! "lightsword" = Some Scenario.lightsword
  /\ (DataManager.save_collection config Scenario.t1 "lightsword" dm d).1.1
     = true
  /\ files (DataManager.save_collection config Scenario.t1 "lightsword" dm d).2
       !! DataManager.backup_file "lightsword"
     = Some (Complete Scenario.older_json).
Proof.
  intros dm d.
  assert ((DataManager.save_collection config Scenario.t1 "lightsword" dm
             d).1.1 = true) as Hok
    by (vm_compute; reflexivity).
  split; [reflexivity|]. split; [exact Hok|].
  rewrite (proj1 (save_collection_backup config Scenario.t1 "lightsword" dm d
                    Scenario.lightsword eq_refl Hok)).
  reflexivity.
Defined.

Lemma add_gifts_to_collection_result_witness :
  [1%nat] ≠ []
  /\ (DataManager.add_gifts_to_collection config Scenario.t1 "lightsword"
        [1%nat] Scenario.data_manager_with_lightsword
        Scenario.empty_disk).1.1
     = 1.
Proof.
  split; [discriminate|].
  rewrite (proj1 (add_gifts_to_collection_result config Scenario.t1
                    "lightsword" [1%nat]
                    Scenario.data_manager_with_lightsword
                    Scenario.empty_disk ltac:(discriminate))).
  vm_compute. reflexivity.
Defined.

Lemma add_gifts_to_collection_skips_idless_witness :
  let dm := Scenario.data_manager_with_lightsword in
  let before := DataManager.load_collection Scenario.t1 "lightsword" dm
                  Scenario.empty_disk in
  Forall (fun a => ¬ has_id (DataManager.deref (DataManager.heap before.2) a))
         [3%nat]
  /\ (DataManager.add_gifts_to_collection config Scenario.t1 "lightsword"
        [3%nat] dm Scenario.empty_disk).1.1
     = 0.
Proof.
  intros dm before.
  assert (Forall (fun a => ¬ has_id (DataManager.deref
                                       (DataManager.heap before.2) a))
                 [3%nat]) as H.
  { apply Forall_singleton. intros Hid. vm_compute in Hid. discriminate Hid. }
  split; [exact H|].
  exact (proj1 (add_gifts_to_collection_skips_idless config Scenario.t1
                  "lightsword" [3%nat] dm Scenario.empty_disk H)).
Defined.

Lemma valid_gift_is_stored_witness :
  parse_gift_data (World.world World.flaky) "<html>" Scenario.url1
    = Some Scenario.gift1
  /\ validate_gift_data (World.world World.flaky) Scenario.gift1 = true
  /\ has_id Scenario.gift1.
Proof.
  split; [reflexivity|]. split; [vm_compute; reflexivity|].
  exact (proj1 (valid_gift_is_stored config (World.world World.flaky)
                  "lightsword" Scenario.t1 Scenario.url1 "<html>" None
                  {| CollectionManager.processed_count := 0;
                     CollectionManager.success_count := 0;
                     CollectionManager.error_count := 0 |}
                  World.manager Scenario.empty_disk Scenario.gift1
                  eq_refl ltac:(vm_compute; reflexivity))).
Defined.

Lemma process_collection_zero_batch_witness :
  let d := Scenario.materials [Scenario.url1] in
  BATCH_SIZE Scenario.zero_batch = 0
  /\ CollectionManager.load_collection_urls "lightsword" d ≠ []
  /\ CollectionManager.process_collection Scenario.zero_batch
       (World.world World.flaky) "lightsword" false World.manager d
     = (inl (ValueError "range() arg 3 must not be zero"), World.manager, d).
Proof.
  intros d.
  assert (CollectionManager.load_collection_urls "lightsword" d ≠ []) as Hne
    by (vm_compute; discriminate).
  split; [reflexivity|]. split; [exact Hne|].
  exact (process_collection_zero_batch Scenario.zero_batch
           (World.world World.flaky) "lightsword" false World.manager d
           eq_refl Hne).
Defined.

Lemma collections_loop_records_failure_witness :
  let d := Scenario.materials [Scenario.url1] in
  let st := {| CollectionManager.position := 1;
               CollectionManager.collection_results := ∅;
               CollectionManager.manager := World.manager;
               CollectionManager.the_disk := d |} in
  CollectionManager.process_collection Scenario.zero_batch
    (World.world World.flaky) "lightsword" false World.manager d
  = (inl (ValueError "range() arg 3 must not be zero"), World.manager, d)
  /\ CollectionManager.collection_results
       (CollectionManager.collections_loop
          (fun _ => CollectionManager.process_collection Scenario.zero_batch
                      (World.world World.flaky))
          (fun _ => World.str) false (["lightsword"; "missing"]) st)
       !! "lightsword"
     = Some (CollectionManager.ErrorEntry "range() arg 3 must not be zero" 0 0 0).
Proof.
  intros d st.
  assert (CollectionManager.process_collection Scenario.zero_batch
            (World.world World.flaky) "lightsword" false World.manager d
          = (inl (ValueError "range() arg 3 must not be zero"),
             World.manager, d)) as Hfail.
  { apply process_collection_zero_batch_holds; [reflexivity|].
    vm_compute. discriminate. }
  split; [exact Hfail|].
  refine (proj1 (proj2 (collections_loop_records_failure
           (fun _ => CollectionManager.process_collection Scenario.zero_batch
                       (World.world World.flaky))
           (fun _ => World.str) false [] "lightsword" ["missing"] st
           (ValueError "range() arg 3 must not be zero")
           World.manager d Hfail)) _).
  intros Hin. apply list_elem_of_singleton in Hin. discriminate Hin.
Defined.

